(** * biovisualize: the shell partitioning and the pathway hierarchy builder

    A shallow embedding of the notebook functions [make_shells],
    [assign_node_weights], [shift_nodes], [add_subset] and of the pathway
    subset construction, with the properties of the specification proved
    about them.

    Python values are modelled as follows.
    - [int] is [Z]; a list is a [list]; a [str] is a [string].
    - [float] is IEEE binary64, taken from the Standard Library's
      [SpecFloat] ([spec_float] with the operations at precision 53 and
      maximal exponent 1024), the specification the primitive floats of the
      kernel are stated against.
    - A raised exception is a value of [exn]; code that may raise returns a
      [result].
    - A networkx [DiGraph] is a record of a node-attribute map and an edge
      set, both from stdpp. *)

From Stdlib Require Import ZArith Lia Floats.
From stdpp Require Import gmap strings pretty list fin_maps relations.

Local Open Scope Z_scope.

(** ** Exceptions and results *)

Inductive exn : Type :=
| KeyError (key : string)
| IndexError
| AttributeError
| TypeError
| ZeroDivisionError
| ValueError
| OverflowError.

Inductive result (A : Type) : Type :=
| Ok (a : A)
| Raise (e : exn).

Arguments Ok {A} a.
Arguments Raise {A} e.

(** Sequencing propagates the first exception: [x ← r; k] runs [k] on the
    value of [r], or raises what [r] raised. *)
#[global] Instance result_bind : MBind result := fun A B k r =>
  match r with
  | Ok a => k a
  | Raise e => Raise e
  end.

#[global] Instance result_fmap : FMap result := fun A B f r =>
  match r with
  | Ok a => Ok (f a)
  | Raise e => Raise e
  end.

#[global] Instance result_ret : MRet result := fun A a => Ok a.

(** [for x in xs: st = body(st, x)], stopping at the first exception. *)
Fixpoint for_each {A S : Type} (body : S -> A -> result S) (xs : list A) (st : S)
  : result S :=
  match xs with
  | [] => Ok st
  | x :: xs' => st' ← body st x; for_each body xs' st'
  end.

(** ** Python lists *)

(** The position a slice bound [k] denotes in a list of length [len]: a
    negative bound counts from the end, and bounds are clipped. *)
Definition slice_bound (len : nat) (k : Z) : nat :=
  Z.to_nat (if k <? 0 then Z.max 0 (Z.of_nat len + k) else Z.min k (Z.of_nat len)).

(** [l[:k]] *)
Definition slice_to {A : Type} (l : list A) (k : Z) : list A :=
  take (slice_bound (length l) k) l.

(** [l[k:]] *)
Definition slice_from {A : Type} (l : list A) (k : Z) : list A :=
  drop (slice_bound (length l) k) l.

(** [l[k] = x]: a negative index counts from the end, an index out of
    range raises. *)
Definition setitem {A : Type} (l : list A) (k : Z) (x : A) : result (list A) :=
  let k := if k <? 0 then k + Z.of_nat (length l) else k in
  if (0 <=? k) && (k <? Z.of_nat (length l)) then Ok (<[Z.to_nat k := x]> l)
  else Raise IndexError.

(** [[x] * n] *)
Definition list_repeat {A : Type} (x : A) (n : Z) : list A :=
  replicate (Z.to_nat n) x.

(** [enumerate(l, start=1)], as the list of the indices it yields. *)
Definition enumerate_from_1 {A : Type} (l : list A) : list Z :=
  map (fun k => Z.of_nat (S k)) (seq 0 (length l)).

(** ** Binary64 *)

Abbreviation float64 := spec_float.

(** [float(z)]: the nearest binary64 to [z], ties to even. *)
Definition float_of_int (z : Z) : float64 :=
  binary_normalize prec emax z 0 false.

(** [a / b] on two [int]s (Python 3 true division). The quotient of the
    converted operands is the correctly rounded quotient whenever both
    operands are below [2^53]. *)
Definition true_div (a b : Z) : result float64 :=
  if b =? 0 then Raise ZeroDivisionError
  else Ok (SF64div (float_of_int a) (float_of_int b)).

(** The integer nearest to [m / 2^k], ties to the even one. *)
Definition round_half_even (m : Z) (k : Z) : Z :=
  let q := m / 2 ^ k in
  let r := m mod 2 ^ k in
  match Z.compare (2 * r) (2 ^ k) with
  | Lt => q
  | Gt => q + 1
  | Eq => if Z.even q then q else q + 1
  end.

(** [np.round(x)] with no decimals: round to the nearest integer, ties to
    even, keeping the sign (numpy calls C's [rint]). *)
Definition np_round (x : float64) : float64 :=
  match x with
  | S754_finite s m e =>
      if 0 <=? e then x
      else
        let n := round_half_even (Zpos m) (- e) in
        if n =? 0 then S754_zero s
        else binary_normalize prec emax (cond_Zopp s n) 0 s
  | _ => x
  end.

(** [int(x)]: truncation towards zero; NaN and the infinities raise. *)
Definition int_of_float (x : float64) : result Z :=
  match x with
  | S754_zero _ => Ok 0
  | S754_finite s m e => Ok (cond_Zopp s (Z.shiftl (Zpos m) e))
  | S754_infinity _ => Raise OverflowError
  | S754_nan => Raise ValueError
  end.

(** ** Notions the facts about binary64 are stated with *)

(** A shifted mantissa has lost a bit that was set. *)
Definition inexact (r : shr_record) : bool := shr_r r || shr_s r.

(** The exponent a mantissa [m] at exponent [e] is rounded to: the canonical
    exponent of binary64. *)
Definition cexp (m e : Z) : Z := fexp prec emax (Zdigits2 m + e).

(** One when the exact value lies above the mantissa it is located at. *)
Definition delta (l : location) : Z :=
  match l with
  | loc_Exact => 0
  | loc_Inexact _ => 1
  end.

(** [repr x v]: [x] is a valid binary64, finite and not negative, of value
    [v * 2^-1074]. *)
Definition repr (x : float64) (v : Z) : Prop :=
  match x with
  | S754_zero _ => v = 0
  | S754_finite false m e => bounded prec emax m e = true ∧ v = Zpos m * 2 ^ (e + 1074)
  | _ => False
  end.

(** ** make_shells

    The notebook runs on a Python 3 kernel: [total_nodes/num_shells] is the
    true division, and the loop index [i] is an [int]. *)

Module Shells.
Section Shells.
Context {A : Type}.

(** The loop state: the list [shells] and the variable [nodes]. *)
Abbreviation state := (list (list A) * list A)%type.

(** [num_nodes] of iteration [i]. *)
Definition num_nodes (nodes_per_shell : float64) (i : Z) : result Z :=
  let this_shell := nodes_per_shell in
  let from_inner :=
    if i =? 1 then float_of_int 0
    else np_round (SF64mul nodes_per_shell
                     (SF64div (float_of_int (i - 1)) (float_of_int i))) in
  let to_outer :=
    np_round (SF64mul nodes_per_shell
                (SF64div (float_of_int i) (float_of_int (i + 1)))) in
  int_of_float (SF64sub (SF64add from_inner this_shell) to_outer).

(** The body of the [for] loop at index [i]. *)
Definition shell_body (num_shells : Z) (nodes_per_shell : float64)
    (st : state) (i : Z) : result state :=
  let '(shells, nodes) := st in
  n ← num_nodes nodes_per_shell i;
  if i =? num_shells then
    shells' ← setitem shells (i - 1) nodes;
    Ok (shells', nodes)
  else
    shells' ← setitem shells (i - 1) (slice_to nodes n);
    Ok (shells', slice_from nodes n).

(** [make_shells(num_shells, nodes)]; the unused [added_nodes] is left out. *)
Definition make_shells (num_shells : Z) (nodes : list A) : result (list (list A)) :=
  let total_nodes := Z.of_nat (length nodes) in
  let shells := list_repeat [] num_shells in
  nodes_per_shell ← np_round <$> true_div total_nodes num_shells;
  st ← for_each (shell_body num_shells nodes_per_shell)
          (enumerate_from_1 shells) (shells, nodes);
  Ok (fst st).

End Shells.
End Shells.

(** ** Notions the properties of [make_shells] are stated with *)

(** [nodes_per_shell] as the function computes it. *)
Definition nodes_per_shell (total_nodes num_shells : Z) : float64 :=
  np_round (SF64div (float_of_int total_nodes) (float_of_int num_shells)).

(** The node count of shell [i] as a natural number. *)
Definition shell_count (nps : float64) (i : Z) : nat :=
  match Shells.num_nodes nps i with
  | Ok k => Z.to_nat k
  | Raise _ => 0%nat
  end.

(** The node counts of the shells 1 to [num_shells - 1]. *)
Definition shell_counts (total_nodes num_shells : Z) : list nat :=
  map (fun k => shell_count (nodes_per_shell total_nodes num_shells) (Z.of_nat (S k)))
    (seq 0 (Z.to_nat (num_shells - 1))).

(** The shells as the specification describes them: each shell but the last
    takes its count of nodes, or what is left when that is fewer, from the
    front of the nodes not yet assigned; the last shell takes the rest. *)
Fixpoint split_shells {A : Type} (counts : list nat) (nodes : list A) : list (list A) :=
  match counts with
  | [] => [nodes]
  | c :: counts' => take c nodes :: split_shells counts' (drop c nodes)
  end.

(** ** Directed graphs (networkx [DiGraph]) *)

(** The values the notebooks store as node attributes: strings, the missing
    value NaN, integer weights and positions. *)
Inductive attr : Type :=
| AStr (s : string)
| ANaN
| AInt (z : Z)
| APos (x y : float64).

(** [node] is the dictionary [g.node] (node name to attribute dictionary),
    [edges] the set of directed edges. *)
Record DiGraph : Type := mkDiGraph {
  node : gmap string (gmap string attr);
  edges : gset (string * string)
}.

(** [nx.DiGraph()] *)
Definition empty_graph : DiGraph := mkDiGraph ∅ ∅.

(** A node that is new gets an empty attribute dictionary. *)
Definition add_node (n : string) (nd : gmap string (gmap string attr))
  : gmap string (gmap string attr) :=
  match nd !! n with
  | Some _ => nd
  | None => <[n := ∅]> nd
  end.

(** [g.add_edge(u, v)] *)
Definition add_edge (u v : string) (g : DiGraph) : DiGraph :=
  mkDiGraph (add_node v (add_node u (node g))) ({[ (u, v) ]} ∪ edges g).

(** [d[k]] on a dictionary. *)
Definition getitem {V : Type} (d : gmap string V) (k : string) : result V :=
  match d !! k with
  | Some v => Ok v
  | None => Raise (KeyError k)
  end.

(** [g.node[n][k] = v] *)
Definition set_node_attr (g : DiGraph) (n k : string) (v : attr) : result DiGraph :=
  d ← getitem (node g) n;
  Ok (mkDiGraph (<[n := <[k := v]> d]> (node g)) (edges g)).

(** [g.nodes()] *)
Definition nodes (g : DiGraph) : list string := (map_to_list (node g)).*1.

(** [try: r except KeyError: handler] *)
Definition except_KeyError {A : Type} (r : result A) (handler : result A) : result A :=
  match r with
  | Raise (KeyError _) => handler
  | _ => r
  end.

(** Graph notions the properties are stated with. *)
Definition edge (g : DiGraph) (u v : string) : Prop := (u, v) ∈ edges g.


Definition acyclic (g : DiGraph) : Prop := ∀ v, ¬ tc (edge g) v v.



(** ** assign_node_weights and shift_nodes *)

Definition weight_body (d : gmap string Z) (g : DiGraph) (n : string) : result DiGraph :=
  w ← except_KeyError (getitem d n) (Ok 0);
  except_KeyError (set_node_attr g n "weight" (AInt w))
    (Ok (mkDiGraph (<[n := {[ "weight" := AInt w ]}]> (node g)) (edges g))).

Definition assign_node_weights (g : DiGraph) (d : gmap string Z) : result DiGraph :=
  for_each (weight_body d) (nodes g) g.

(** The attribute dictionary of node [n] once its weight is set. *)
Definition with_weight (d : gmap string Z) (n : string) (attrs : gmap string attr)
  : gmap string attr :=
  <["weight" := AInt (default 0 (d !! n))]> attrs.

(** [xn, yn = v] followed by [xn += x]: a position unpacks into its two
    coordinates; a string of two characters unpacks but cannot be added to a
    number, any other string has the wrong length, and the remaining values
    cannot be unpacked. *)
Definition unpack_pos (v : attr) : result (float64 * float64) :=
  match v with
  | APos xn yn => Ok (xn, yn)
  | AStr s => if (String.length s =? 2)%nat then Raise TypeError else Raise ValueError
  | ANaN | AInt _ => Raise TypeError
  end.

Definition shift_body (x y : float64) (g : DiGraph) (n : string) : result DiGraph :=
  d ← getitem (node g) n;
  v ← getitem d "pos";
  '(xn, yn) ← unpack_pos v;
  let xn := SF64add xn x in
  let yn := SF64add yn y in
  set_node_attr g n "pos" (APos xn yn).

Definition shift_nodes (g : DiGraph) (ns : list string) (x y : float64) : result DiGraph :=
  for_each (shift_body x y) ns g.

(** A position moved by [(x, y)]. *)
Definition translate (x y : float64) (v : attr) : attr :=
  match v with
  | APos xn yn => APos (SF64add xn x) (SF64add yn y)
  | _ => v
  end.

(** How many times [n] is listed in [ns]. *)
Definition occurrences (n : string) (ns : list string) : nat :=
  length (filter (fun m => m = n) ns).

(** Node [n] of [g] carries a position. *)
Definition has_pos (g : DiGraph) (n : string) : Prop :=
  ∃ attrs xn yn, node g !! n = Some attrs ∧ attrs !! "pos" = Some (APos xn yn).

(** [g'] is [g] with the position of every node of [ns] moved by [(x, y)]
    and nothing else changed. *)
Definition shifted_once (g : DiGraph) (ns : list string) (x y : float64)
    (g' : DiGraph) : Prop :=
  edges g' = edges g ∧
  (∀ n, n ∈ ns →
     ∃ attrs v, node g !! n = Some attrs ∧ attrs !! "pos" = Some v ∧
                node g' !! n = Some (<["pos" := translate x y v]> attrs)) ∧
  (∀ n, n ∉ ns → node g' !! n = node g !! n).

(** The attribute dictionary after [k] moves of its position. *)
Definition shift_attrs (x y : float64) (k : nat) (attrs : gmap string attr)
  : gmap string attr :=
  match attrs !! "pos" with
  | Some v => <["pos" := Nat.iter k (translate x y) v]> attrs
  | None => attrs
  end.

(** ** The category table and the pathway subsets *)

(** A row of [metacyc_df]; [None] is the missing value NaN. *)
Record row : Type := mkRow {
  Pathway : string;
  Category1 : option string;
  Category2 : option string;
  Category3 : option string;
  Category4 : option string;
  Category5 : option string;
  Category6 : option string;
  Category7 : option string;
  Parent : option string;
  Name : option string
}.

Definition core : list string := ["Generation of Precursor Metabolites and Energy"].
Definition syn : list string := ["Biosynthesis"].
Definition deg : list string := ["Degradation/Utilization/Assimilation"].

(** [set(metacyc_df.loc[metacyc_df.Category1.isin(cats), "Pathway"])] *)
Definition pathways_isin (cats : list string) (df : list row) : gset string :=
  list_to_set (Pathway <$> filter (fun r => Category1 r ∈ (Some <$> cats)) df).

(** The three subsets, each as the list [list(set(...))] (in the order of
    [elements]; Python leaves the order unspecified). *)
Definition make_subsets (df : list row) : list string * list string * list string :=
  let core_pwys := elements (pathways_isin core df) in
  let deg_pwys := elements (pathways_isin deg df) in
  let deg_pwys :=
    elements ((list_to_set deg_pwys : gset string) ∖ list_to_set core_pwys) in
  let syn_pwys := elements (pathways_isin syn df) in
  let syn_pwys :=
    elements ((list_to_set syn_pwys : gset string) ∖ list_to_set (core_pwys ++ deg_pwys)) in
  (core_pwys, deg_pwys, syn_pwys).

(** [p] is the pathway of a row whose Category1 is one of [cats]. *)
Definition listed_under (cats : list string) (df : list row) (p : string) : Prop :=
  ∃ r, r ∈ df ∧ Pathway r = p ∧ Category1 r ∈ (Some <$> cats).

(** [p] is in one of the three lists and in no other. *)
Definition in_exactly_one (p : string) (a b c : list string) : Prop :=
  (p ∈ a ∧ (p ∉ b) ∧ (p ∉ c)) ∨
  ((p ∉ a) ∧ p ∈ b ∧ (p ∉ c)) ∨
  ((p ∉ a) ∧ (p ∉ b) ∧ p ∈ c).

(** ** add_subset *)

(** [s.split("|")[0]]; the bar is the character of code 124. *)
Fixpoint before_bar (s : string) : string :=
  match s with
  | EmptyString => EmptyString
  | String c s' =>
      if Ascii.eqb c (Ascii.ascii_of_nat 124) then EmptyString
      else String c (before_bar s')
  end.

(** [v.split("|")[0]] on a cell: NaN is a float and has no [split]. *)
Definition split_first (v : option string) : result string :=
  match v with
  | Some s => Ok (before_bar s)
  | None => Raise AttributeError
  end.

(** [v != v], true of NaN only. *)
Definition is_nan (v : option string) : bool :=
  match v with
  | None => true
  | Some _ => false
  end.

(** The row as the Series [df.loc[p]], indexed by column name. *)
Definition series (r : row) : gmap string (option string) :=
  list_to_map
    [("Category1", Category1 r); ("Category2", Category2 r); ("Category3", Category3 r);
     ("Category4", Category4 r); ("Category5", Category5 r); ("Category6", Category6 r);
     ("Category7", Category7 r); ("Parent", Parent r); ("Name", Name r)].

(** [metacyc_df.loc[(metacyc_df.Category1==root) & (metacyc_df.Pathway.isin(pwys))]] *)
Definition select_rows (root : string) (pwys : list string) (df : list row) : list row :=
  filter (fun r => Category1 r = Some root ∧ Pathway r ∈ pwys) df.

(** The first value of a column that is not missing. *)
Definition first_valid (col : row → option string) (rs : list row) : option string :=
  head (omap col rs).

(** [df.groupby("Pathway").first()] followed by [.loc[p]]: the group of [p]
    collapsed to one row that holds, per column, the first value that is not
    missing; [KeyError] when [p] has no row. *)
Definition loc_first (df : list row) (p : string) : result row :=
  match filter (fun r => Pathway r = p) df with
  | [] => Raise (KeyError p)
  | rs =>
      Ok (mkRow p (first_valid Category1 rs) (first_valid Category2 rs)
            (first_valid Category3 rs) (first_valid Category4 rs)
            (first_valid Category5 rs) (first_valid Category6 rs)
            (first_valid Category7 rs) (first_valid Parent rs) (first_valid Name rs))
  end.

Definition attr_of_cell (v : option string) : attr :=
  match v with
  | Some s => AStr s
  | None => ANaN
  end.

(** The body of [for i in range(2,8)]; the state is [dg] and [previous]. *)
Definition category_body (col : string) (r : gmap string (option string))
    (st : DiGraph * string) (i : Z) : result (DiGraph * string) :=
  let '(dg, previous) := st in
  let c := "Category" +:+ pretty i in
  current ← getitem r c;
  let current := if is_nan current then Some previous else current in
  name ← split_first current;
  let current := name +:+ "|" +:+ pretty i in
  let dg := add_edge previous current dg in
  dg ← set_node_attr dg current "col" (AStr col);
  dg ← set_node_attr dg previous "col" (AStr col);
  Ok (dg, current).

(** The body of [for p in pwys]. *)
Definition path_body (root col : string) (df : list row) (dg : DiGraph) (p : string)
  : result DiGraph :=
  r ← series <$> loc_first df p;
  let previous := root in
  '(dg, previous) ← for_each (category_body col r) [2; 3; 4; 5; 6; 7] (dg, previous);
  let i := 8 in
  current ← getitem r "Parent";
  current ← (if is_nan current then getitem r "Parent" else Ok current);
  name ← split_first current;
  let current := name +:+ "|" +:+ pretty i in
  let dg := add_edge previous current dg in
  dg ← set_node_attr dg current "col" (AStr col);
  dg ← set_node_attr dg previous "col" (AStr col);
  let dg := add_edge current p dg in
  dg ← set_node_attr dg p "col" (AStr col);
  name ← getitem r "Name";
  set_node_attr dg p "Name" (attr_of_cell name).

Definition add_subset (root : string) (pwys : list string) (metacyc_df : list row)
    (col : string) : result DiGraph :=
  let dg := empty_graph in
  let df := select_rows root pwys metacyc_df in
  for_each (path_body root col df) pwys dg.

(** ** Notions the properties of [add_subset] are stated with *)

(** The precondition of the hierarchy builder: every listed pathway has a
    row under [root] whose Parent and Name are present. *)
Definition well_formed_table (root : string) (pwys : list string) (df : list row)
  : Prop :=
  ∀ p, p ∈ pwys →
    ∃ r, r ∈ df ∧ Pathway r = p ∧ Category1 r = Some root ∧
         Parent r ≠ None ∧ Name r ≠ None.

(** [s] contains no ["|"]. *)
Definition bar_free (s : string) : Prop := before_bar s = s.

(** What follows the first ["|"] of [s], if there is one. *)
Fixpoint after_bar (s : string) : option string :=
  match s with
  | EmptyString => None
  | String c s' => if Ascii.eqb c (Ascii.ascii_of_nat 124) then Some s' else after_bar s'
  end.

(** The depth of a node in the hierarchy under [root]: the level suffix of a
    segment, 1 for the root and 9 for a pathway. *)
Definition level (root v : string) : Z :=
  match after_bar v with
  | Some t =>
      default 0 (list_to_map (M := gmap string Z)
                   [("2", 2); ("3", 3); ("4", 4); ("5", 5); ("6", 6); ("7", 7); ("8", 8)]
                 !! t)
  | None => if decide (v = root) then 1 else 9
  end.

(** The node a walk adds at level [i] for the cell [v], coming from
    [previous]. *)
Definition level_name (v : option string) (previous : string) (i : Z) : string :=
  before_bar (default previous v) +:+ "|" +:+ pretty i.

(** [g'] is [g] with the edge from [u] to [v], and its end points as nodes. *)
Definition extends (g : DiGraph) (u v : string) (g' : DiGraph) : Prop :=
  edges g' = {[ (u, v) ]} ∪ edges g ∧
  dom (node g') = {[ u; v ]} ∪ dom (node g).



(** The nodes a walk visits for the pathway [p] with grouped row [r]: the
    root, one segment per category level, the parent and the pathway. *)
Definition walk (root : string) (r : row) (p : string) : list string :=
  let n2 := level_name (Category2 r) root 2 in
  let n3 := level_name (Category3 r) n2 3 in
  let n4 := level_name (Category4 r) n3 4 in
  let n5 := level_name (Category5 r) n4 5 in
  let n6 := level_name (Category6 r) n5 6 in
  let n7 := level_name (Category7 r) n6 7 in
  let n8 := level_name (Parent r) n7 8 in
  [root; n2; n3; n4; n5; n6; n7; n8; p].

(** The edges between consecutive nodes of a path. *)
Definition path_edges (path : list string) : gset (string * string) :=
  list_to_set (zip path (tail path)).

(** The walk of a listed pathway in the table; empty when it has no row. *)
Definition walk_of (root : string) (pwys : list string) (df : list row) (p : string)
  : list string :=
  match loc_first (select_rows root pwys df) p with
  | Ok r => walk root r p
  | Raise _ => []
  end.


(** ** Sample inputs *)

Definition sample_row (p c2 c3 parent : string) : row :=
  mkRow p (Some "R") (Some c2) (Some c3) None None None None (Some parent) (Some "n").

(** Two pathways that list the same Category3 under different Category2. *)
Definition shared_table : list row :=
  [sample_row "P1" "A" "X" "Q1"; sample_row "P2" "B" "X" "Q2"].

(** Two pathways under different categories. *)
Definition tree_table : list row :=
  [sample_row "P1" "A" "X" "Q1"; sample_row "P2" "B" "Y" "Q2"].

(** A pathway that carries the name of the root. *)
Definition root_named_table : list row :=
  [mkRow "R" (Some "R") None None None None None None (Some "Q") (Some "n")].

(** A pathway whose Parent is missing. *)
Definition orphan_table : list row :=
  [mkRow "P1" (Some "R") (Some "A") None None None None None None (Some "n")].

(** A table in which PWY-1 and PWY-2 are listed under two root categories. *)
Definition category_row (p c1 : string) : row :=
  mkRow p (Some c1) None None None None None None None None.

Definition overlap_table : list row :=
  [category_row "PWY-1" "Biosynthesis";
   category_row "PWY-1" "Degradation/Utilization/Assimilation";
   category_row "PWY-2" "Generation of Precursor Metabolites and Energy";
   category_row "PWY-2" "Biosynthesis";
   category_row "PWY-3" "Biosynthesis"].

(** A graph of one node, at position (1, 2). *)
Definition one_node : DiGraph :=
  mkDiGraph {[ "a" := {[ "pos" := APos (float_of_int 1) (float_of_int 2) ]} ]} ∅.

(** * Further functions of the notebooks

    [assign_node_pos], [create_shell_graph], the graphs of the pathway
    subsets and [add_intergraph_edges], with the notions their properties
    and further properties of [make_shells], [shift_nodes] and [add_subset]
    are stated with. *)

(** ** Notions the node counts of the shells are stated with *)

(** [to_outer] of iteration [i] as an integer; the [from_inner] of
    iteration [i + 1] is the same number. *)
Definition to_outer (nps : float64) (i : Z) : Z :=
  match int_of_float
          (np_round (SF64mul nps (SF64div (float_of_int i) (float_of_int (i + 1))))) with
  | Ok k => k
  | Raise _ => 0
  end.

(** ** The node dictionary of a networkx graph

    [Graph] and [DiGraph] keep the attributes of their nodes in the same
    way, and [assign_node_pos] and [create_shell_graph] use nothing else of
    the graph they are given: they are stated once, for every graph class
    with a node dictionary. [with_node_dict nd g] is [g] with [nd] as its
    node dictionary and everything else as it was. *)

Class NodeDict (G : Type) : Type := {
  node_dict : G → gmap string (gmap string attr);
  with_node_dict : gmap string (gmap string attr) → G → G;
  node_dict_with : ∀ nd g, node_dict (with_node_dict nd g) = nd;
  with_node_dict_with : ∀ nd nd' g,
    with_node_dict nd' (with_node_dict nd g) = with_node_dict nd' g;
  with_node_dict_id : ∀ g, with_node_dict (node_dict g) g = g
}.

#[global] Instance DiGraph_NodeDict : NodeDict DiGraph := {
  node_dict := node;
  with_node_dict nd g := mkDiGraph nd (edges g);
  node_dict_with := fun _ _ => eq_refl;
  with_node_dict_with := fun _ _ _ => eq_refl;
  with_node_dict_id := fun g => match g with mkDiGraph _ _ => eq_refl end
}.

(** ** assign_node_pos *)

(** A layout: the dictionary from node to position that a layout function
    of networkx returns. *)
Abbreviation layout := (gmap string (float64 * float64)).

(** The position as it is stored in the attribute dictionary. *)
Definition pos_attr (p : float64 * float64) : attr := APos p.1 p.2.

(** [g.node[n]['pos'] = pos[n]]: the right-hand side is evaluated first. *)
Definition pos_body {G : Type} `{NodeDict G} (pos : layout) (g : G) (n : string)
  : result G :=
  p ← getitem pos n;
  d ← getitem (node_dict g) n;
  Ok (with_node_dict (<[n := <["pos" := pos_attr p]> d]> (node_dict g)) g).

Definition assign_node_pos {G : Type} `{NodeDict G} (g : G) (pos : layout) : result G :=
  for_each (pos_body pos) (map_to_list (node_dict g)).*1 g.

(** The attribute dictionary of node [n] once its position is set from
    [pos]; a node that [pos] does not place keeps its attributes. *)
Definition place (pos : layout) (n : string) (d : gmap string attr) : gmap string attr :=
  match pos !! n with
  | Some p => <["pos" := pos_attr p]> d
  | None => d
  end.

(** The node dictionary with every node placed. *)
Definition placed (pos : layout) (nd : gmap string (gmap string attr))
  : gmap string (gmap string attr) :=
  map_imap (fun n d => Some (place pos n d)) nd.

(** ** create_shell_graph

    [nx.shell_layout] belongs to networkx: it is a parameter of the
    function here. It is given the graph, the shells, the centre and the
    scale, and returns a layout or raises. *)

Section CreateShellGraph.
Context {G : Type} `{NodeDict G}.
Variable shell_layout : G → list (list string) → Z * Z → Z → result layout.


End CreateShellGraph.

(** ** The pathway graph table and undirected graphs (networkx [Graph]) *)

(** A row of [metacyc_graph]: two pathways and the compound that links
    them; [None] is the missing value NaN. The table is the list of its
    rows, and a row is denoted by its index label: the labels are taken to
    be distinct. *)
Record edge_row : Type := mkEdgeRow {
  Node1 : string;
  Node2 : string;
  CPD : option string
}.

Module Undirected.

(** [node] is the dictionary [g.node]; [edge] is [g.edge], with
    [edge g !! (u, v)] the attribute dictionary [g.edge[u][v]]. networkx
    keeps one dictionary per edge and reaches it from both of its ends:
    what is written through one end is written to both entries. *)
Record Graph : Type := mkGraph {
  node : gmap string (gmap string attr);
  edge : gmap (string * string) (gmap string attr)
}.

(** [nx.Graph()] *)
Definition empty_graph : Graph := mkGraph ∅ ∅.

(** [g.add_edge(u, v, attr_dict)]: an edge that exists keeps its
    attributes, updated with [attr_dict]. *)
Definition add_edge (u v : string) (attr_dict : gmap string attr) (g : Graph) : Graph :=
  let datadict := attr_dict ∪ default ∅ (edge g !! (u, v)) in
  mkGraph (add_node v (add_node u (node g)))
          (<[(v, u) := datadict]> (<[(u, v) := datadict]> (edge g))).

(** [g.edge[u][v][k] = a] *)
Definition set_edge_attr (g : Graph) (u v k : string) (a : attr) : result Graph :=
  match node g !! u with
  | None => Raise (KeyError u)
  | Some _ =>
      match edge g !! (u, v) with
      | None => Raise (KeyError v)
      | Some d =>
          let d := <[k := a]> d in
          Ok (mkGraph (node g) (<[(v, u) := d]> (<[(u, v) := d]> (edge g))))
      end
  end.

(** [g.add_nodes_from(ns)] *)
Definition add_nodes_from (ns : list string) (g : Graph) : Graph :=
  mkGraph (foldl (fun nd n => add_node n nd) (node g) ns) (edge g).

(** [nx.from_pandas_dataframe(df, source="Node1", target="Node2", edge_attr="CPD")]:
    one [add_edge] per row, in the order of the rows, with the CPD value of
    the row as attribute. *)
Definition from_pandas_dataframe (df : list edge_row) : Graph :=
  foldl (fun g r => add_edge (Node1 r) (Node2 r) {[ "CPD" := attr_of_cell (CPD r) ]} g)
        empty_graph df.

(** The two ends of an edge reach the same dictionary. *)
Definition symmetric (g : Graph) : Prop :=
  ∀ u v, edge g !! (u, v) = edge g !! (v, u).

End Undirected.

#[global] Instance Graph_NodeDict : NodeDict Undirected.Graph := {
  node_dict := Undirected.node;
  with_node_dict nd g := Undirected.mkGraph nd (Undirected.edge g);
  node_dict_with := fun _ _ => eq_refl;
  with_node_dict_with := fun _ _ _ => eq_refl;
  with_node_dict_id := fun g => match g with Undirected.mkGraph _ _ => eq_refl end
}.

(** [df.loc[(df.Node1.isin(p1)) & (df.Node2.isin(p2))]] *)
Definition loc_isin (p1 p2 : list string) (df : list edge_row) : list edge_row :=
  filter (fun r => Node1 r ∈ p1 ∧ Node2 r ∈ p2) df.

(** ** The graph of a pathway subset

    The notebook builds the three graphs with the same statements; they are
    given here once, for a subset [pwys]. *)

(** [core_graph_df], [syn_graph_df], [deg_graph_df] *)
Definition graph_df (pwys : list string) (metacyc_graph : list edge_row) : list edge_row :=
  loc_isin pwys pwys metacyc_graph.

(** [core_pwy_singles], [syn_pwy_singles], [deg_pwy_singles]:
    [list(set(pwys).difference(set(graph_df.Node1)))] *)
Definition pwy_singles (pwys : list string) (df : list edge_row) : list string :=
  elements ((list_to_set pwys : gset string) ∖ list_to_set (Node1 <$> df)).

(** [core_graph], [syn_graph], [deg_graph], once the single nodes are added. *)
Definition subset_graph (pwys : list string) (metacyc_graph : list edge_row)
  : Undirected.Graph :=
  let df := graph_df pwys metacyc_graph in
  let singles := pwy_singles pwys df in
  Undirected.add_nodes_from singles (Undirected.from_pandas_dataframe df).

(** ** add_intergraph_edges *)

(** [str(v)] on a cell. *)
Definition str_of_cell (v : option string) : string :=
  match v with
  | Some s => s
  | None => "nan"
  end.

(** The body of the loop, for the row the index label denotes. *)
Definition intergraph_body (g : Undirected.Graph) (r : edge_row)
  : result Undirected.Graph :=
  let e := (Node1 r, Node2 r) in
  let cpd := str_of_cell (CPD r) in
  let g := Undirected.add_edge e.1 e.2 ∅ g in
  Undirected.set_edge_attr g e.1 e.2 "CPD" (AStr cpd).

Definition add_intergraph_edges (g : Undirected.Graph) (p1 p2 : list string)
    (df : list edge_row) : result Undirected.Graph :=
  for_each intergraph_body (loc_isin p1 p2 df) g.

(** The row links [u] and [v], in one direction or the other. *)
Definition links (r : edge_row) (u v : string) : Prop :=
  (Node1 r = u ∧ Node2 r = v) ∨ (Node1 r = v ∧ Node2 r = u).

(** [n] is an end of one of the rows. *)
Definition end_of (rows : list edge_row) (n : string) : Prop :=
  ∃ r, r ∈ rows ∧ (Node1 r = n ∨ Node2 r = n).

(** ** Notions the further properties of [add_subset] are stated with *)

(** [g'] is [g] with the nodes of [l] coloured, a node that is new having
    no other attribute. *)
Definition coloured (col : string) (l : list string) (g g' : DiGraph) : Prop :=
  ∀ n, node g' !! n =
       if decide (n ∈ l) then Some (<["col" := AStr col]> (default ∅ (node g !! n)))
       else node g !! n.

(** The attributes of node [n] after the walk of the pathway [p] named
    [name], from the attributes [old] it had. *)
Definition walk_attrs (col p : string) (name : attr) (n : string)
    (old : gmap string attr) : gmap string attr :=
  let attrs := <["col" := AStr col]> old in
  if decide (n = p) then <["Name" := name]> attrs else attrs.

(** The attributes of node [n] once the pathways of [done] have been
    walked: the colour, and the name when [n] is one of them. *)
Definition node_attrs (col : string) (rows : list row) (done : gset string)
    (n : string) : gmap string attr :=
  let colour : gmap string attr := {[ "col" := AStr col ]} in
  if decide (n ∈ done) then
    match loc_first rows n with
    | Ok r => <["Name" := attr_of_cell (Name r)]> colour
    | Raise _ => colour
    end
  else colour.

(** The graph holds the walks of the pathways of [done] and nothing else. *)
Definition walked (root col : string) (pwys : list string) (df : list row)
    (done : gset string) (dg : DiGraph) : Prop :=
  (∀ e, e ∈ edges dg ↔ ∃ p, p ∈ done ∧ e ∈ path_edges (walk_of root pwys df p)) ∧
  (∀ n, is_Some (node dg !! n) ↔ ∃ p, p ∈ done ∧ n ∈ walk_of root pwys df p) ∧
  (∀ n attrs, node dg !! n = Some attrs →
     attrs = node_attrs col (select_rows root pwys df) done n).

(** Every listed pathway has a row under [root] with a Parent; the Name may
    be missing. *)
Definition has_parents (root : string) (pwys : list string) (df : list row) : Prop :=
  ∀ p, p ∈ pwys →
    ∃ r, r ∈ df ∧ Pathway r = p ∧ Category1 r = Some root ∧ Parent r ≠ None.

(** ** Further sample inputs *)

(** Two nodes with a position and an edge between them. *)
Definition two_nodes : DiGraph :=
  mkDiGraph {[ "a" := {[ "pos" := APos (float_of_int 1) (float_of_int 2) ]};
               "b" := {[ "pos" := APos (float_of_int 3) (float_of_int 4) ]} ]}
            {[ ("a", "b") ]}.

(** Two nodes without a position, one with a weight. *)
Definition bare_nodes : DiGraph :=
  mkDiGraph {[ "a" := ∅; "b" := {[ "weight" := AInt 5 ]} ]} {[ ("a", "b") ]}.

Definition sample_layout : layout :=
  {[ "a" := (float_of_int 10, float_of_int 20);
     "b" := (float_of_int 30, float_of_int 40) ]}.


(** A pathway graph table: two links inside the subset A, B, C, one link
    out of it that is listed twice, and one link into it. *)
Definition sample_edges : list edge_row :=
  [mkEdgeRow "A" "B" (Some "c1"); mkEdgeRow "B" "A" (Some "c2");
   mkEdgeRow "A" "X" (Some "c3"); mkEdgeRow "A" "X" None;
   mkEdgeRow "Y" "C" (Some "c5")].

(** A pathway with a Parent and one without. *)
Definition mixed_table : list row :=
  [sample_row "P1" "A" "X" "Q1";
   mkRow "P2" (Some "R") (Some "B") None None None None None None (Some "n")].

(** A pathway without categories below the root. *)
Definition flat_table : list row :=
  [mkRow "P" (Some "R") None None None None None None (Some "Q|x") (Some "n")].
(** * Properties *)

(** ** Generic facts about results and loops *)

Lemma for_each_app {A S : Type} (body : S → A → result S) (xs ys : list A) (st : S) :
  for_each body (xs ++ ys) st = (st' ← for_each body xs st; for_each body ys st').
Proof.
  revert st. induction xs as [|x xs IH]; intros st; simpl; [done|].
  destruct (body st x) as [st'|e]; simpl; [apply IH | done].
Qed.

(** An exception raised by the body at some element leaves the loop as it is. *)
Lemma for_each_raise {A S : Type} (body : S → A → result S) (xs ys : list A)
    (x : A) (st st' : S) (e : exn) :
  for_each body xs st = Ok st' →
  body st' x = Raise e →
  for_each body (xs ++ x :: ys) st = Raise e.
Proof.
  intros Hxs Hx. rewrite for_each_app, Hxs. simpl. by rewrite Hx.
Qed.

Lemma bind_Ok {A B : Type} (a : A) (k : A → result B) : (Ok a ≫= k) = k a.
Proof. done. Qed.

Lemma for_each_cons {A S : Type} (body : S → A → result S) (x : A) (xs : list A) (st : S) :
  for_each body (x :: xs) st = (body st x ≫= for_each body xs).
Proof. done. Qed.

Lemma for_each_nil {A S : Type} (body : S → A → result S) (st : S) :
  for_each body [] st = Ok st.
Proof. done. Qed.


(** ** Binary64 arithmetic

    The node count of a shell is computed in binary64. What the properties of
    [make_shells] need from it is that the count is an integer that is not
    negative, which rests on the results of the operations being correctly
    rounded: a quotient, product, sum or difference whose exact value lies
    below (or above) a binary64 number is rounded to a number that still lies
    below (or above) it. The facts are proved on the mantissa and exponent of
    [SpecFloat], with values compared after scaling by a common power of
    two. *)

Lemma digits2_pos_size (p : positive) : digits2_pos p = Pos.size p.
Proof. induction p; simpl; congruence. Qed.

Lemma Zdigits2_log2 (m : Z) : 0 < m → Zdigits2 m = Z.log2 m + 1.
Proof.
  destruct m as [|p|p]; try lia. intros _. simpl. rewrite digits2_pos_size.
  destruct p; simpl; lia.
Qed.

Lemma Zdigits2_bounds (m : Z) :
  0 < m → 2 ^ (Zdigits2 m - 1) ≤ m < 2 ^ Zdigits2 m.
Proof.
  intros H. rewrite Zdigits2_log2 by done.
  replace (Z.log2 m + 1 - 1) with (Z.log2 m) by lia.
  apply Z.log2_spec. done.
Qed.

Lemma Zdigits2_nonneg (m : Z) : 0 ≤ Zdigits2 m.
Proof. destruct m; simpl; lia. Qed.

Lemma Zdigits2_pos (m : Z) : 0 < m → 0 < Zdigits2 m.
Proof. intros H. rewrite Zdigits2_log2 by done. pose proof (Z.log2_nonneg m). lia. Qed.

Lemma Zdigits2_le (m n : Z) : 0 ≤ m → m ≤ n → Zdigits2 m ≤ Zdigits2 n.
Proof.
  intros H0 H. destruct (Z.eq_dec m 0) as [->|Hm].
  - apply Zdigits2_nonneg.
  - rewrite !Zdigits2_log2 by lia. pose proof (Z.log2_le_mono m n H). lia.
Qed.

Lemma Zdigits2_lt_pow2 (m k : Z) : 0 ≤ m → 0 ≤ k → m < 2 ^ k → Zdigits2 m ≤ k.
Proof.
  intros H0 Hk H. destruct (Z.eq_dec m 0) as [->|Hm]; [simpl; lia|].
  rewrite Zdigits2_log2 by lia.
  assert (Z.log2 m < k) by (apply Z.log2_lt_pow2; lia). lia.
Qed.

Lemma Zdigits2_ge_pow2 (m k : Z) : 0 ≤ k → 2 ^ k ≤ m → k + 1 ≤ Zdigits2 m.
Proof.
  intros Hk H. assert (0 < m) by (pose proof (Z.pow_pos_nonneg 2 k); lia).
  rewrite Zdigits2_log2 by lia.
  assert (k ≤ Z.log2 m) by (apply Z.log2_le_pow2; lia). lia.
Qed.

Lemma Zdigits2_div_pow2 (m n : Z) :
  0 ≤ n → 0 < m / 2 ^ n → Zdigits2 (m / 2 ^ n) = Zdigits2 m - n.
Proof.
  intros Hn Hq.
  assert (0 < 2 ^ n) by (apply Z.pow_pos_nonneg; lia).
  assert (0 < m).
  { destruct (Z_lt_le_dec 0 m); [done|].
    assert (m / 2 ^ n ≤ 0) by (apply Z.div_le_upper_bound; lia). lia. }
  rewrite !Zdigits2_log2 by lia.
  rewrite <- Z.shiftr_div_pow2 by lia. rewrite Z.log2_shiftr by lia.
  assert (0 < Z.shiftr m n) by (rewrite Z.shiftr_div_pow2 by lia; done).
  assert (0 ≤ Z.log2 m - n).
  { destruct (Z_lt_le_dec (Z.log2 m) n); [|lia].
    assert (m < 2 ^ n).
    { apply Z.log2_lt_pow2; lia. }
    rewrite Z.shiftr_div_pow2 in * by lia.
    rewrite Z.div_small in * by lia. lia. }
  lia.
Qed.

Lemma Zdigits2_mul_pow2 (m n : Z) :
  0 < m → 0 ≤ n → Zdigits2 (m * 2 ^ n) = Zdigits2 m + n.
Proof.
  intros Hm Hn. assert (0 < 2 ^ n) by (apply Z.pow_pos_nonneg; lia).
  rewrite !Zdigits2_log2 by nia. rewrite Z.log2_mul_pow2 by lia. lia.
Qed.

(** ** shr *)

Lemma shr_1_m (r : shr_record) : 0 ≤ shr_m r → shr_m (shr_1 r) = shr_m r / 2.
Proof.
  destruct r as [m r s]. cbn [shr_m]. intros H.
  destruct m as [|[p|p|]|p]; cbn [shr_1 shr_m]; try lia; try done.
  - rewrite Pos2Z.inj_xI. apply Z.div_unique with 1; lia.
  - rewrite Pos2Z.inj_xO. apply Z.div_unique with 0; lia.
Qed.

Lemma shr_1_exact (r : shr_record) :
  0 ≤ shr_m r → inexact r = false → shr_m r mod 2 = 0 → inexact (shr_1 r) = false.
Proof.
  destruct r as [m r s]. unfold inexact. cbn [shr_m shr_r shr_s]. intros H Hrs Hm.
  apply orb_false_elim in Hrs as [-> ->].
  destruct m as [|[p|p|]|p]; cbn [shr_1 shr_m shr_r shr_s orb]; try done; try lia.
  rewrite Pos2Z.inj_xI in Hm.
  rewrite Z.add_comm, Z.mul_comm, Z.mod_add in Hm by lia. done.
Qed.

Lemma mod_pow2_add (m a b : Z) :
  0 ≤ a → 0 ≤ b → m mod 2 ^ (a + b) = 0 →
  m mod 2 ^ a = 0 ∧ (m / 2 ^ a) mod 2 ^ b = 0.
Proof.
  intros Ha Hb H.
  assert (0 < 2 ^ a) by (apply Z.pow_pos_nonneg; lia).
  assert (0 < 2 ^ b) by (apply Z.pow_pos_nonneg; lia).
  apply Z.mod_divide in H; [|rewrite Z.pow_add_r by lia; nia].
  destruct H as [k Hk]. rewrite Z.pow_add_r in Hk by lia.
  split.
  - apply Z.mod_divide; [lia|]. exists (k * 2 ^ b). lia.
  - apply Z.mod_divide; [lia|]. exists k.
    replace m with (k * 2 ^ b * 2 ^ a) by lia. rewrite Z.div_mul by lia. done.
Qed.

Lemma iter_shr_1 (n : positive) :
  ∀ r, 0 ≤ shr_m r →
    shr_m (SpecFloat.iter_pos shr_1 n r) = shr_m r / 2 ^ Zpos n ∧
    (inexact r = false → shr_m r mod 2 ^ Zpos n = 0 →
     inexact (SpecFloat.iter_pos shr_1 n r) = false).
Proof.
  assert (Hdiv : ∀ m k, 0 ≤ m → 0 ≤ k → 0 ≤ m / 2 ^ k).
  { intros m k Hm Hk. apply Z.div_pos; [done|]. apply Z.pow_pos_nonneg; lia. }
  induction n as [n IH|n IH|]; intros r Hr; simpl SpecFloat.iter_pos.
  - pose proof (shr_1_m r Hr) as H1.
    assert (0 ≤ shr_m (shr_1 r)) as Hr1.
    { rewrite H1. apply Z.div_pos; lia. }
    destruct (IH _ Hr1) as [H2 E2].
    assert (0 ≤ shr_m (SpecFloat.iter_pos shr_1 n (shr_1 r))) as Hr2.
    { rewrite H2. by apply Hdiv. }
    destruct (IH _ Hr2) as [H3 E3]. split.
    + rewrite H3, H2, H1. rewrite !Z.div_div by (try apply Z.pow_pos_nonneg; lia).
      f_equal.
      assert (2 ^ Z.pos n~1 = 2 * 2 ^ Z.pos n * 2 ^ Z.pos n) as ->; [|lia].
      replace (Z.pos n~1) with (1 + Z.pos n + Z.pos n) by lia.
      rewrite !Z.pow_add_r by lia. lia.
    + intros Hex Hmod.
      replace (Z.pos n~1) with (1 + (Z.pos n + Z.pos n)) in Hmod by lia.
      apply mod_pow2_add in Hmod as [Hm1 Hm2]; [|lia..].
      apply mod_pow2_add in Hm2 as [Hm2 Hm3]; [|lia..].
      change (2 ^ 1) with 2 in *.
      apply E3.
      * apply E2; [by apply shr_1_exact|]. by rewrite H1.
      * by rewrite H2, H1.
  - destruct (IH _ Hr) as [H2 E2].
    assert (0 ≤ shr_m (SpecFloat.iter_pos shr_1 n r)) as Hr2.
    { rewrite H2. by apply Hdiv. }
    destruct (IH _ Hr2) as [H3 E3]. split.
    + rewrite H3, H2. rewrite !Z.div_div by (try apply Z.pow_pos_nonneg; lia).
      f_equal.
      assert (2 ^ Z.pos n~0 = 2 ^ Z.pos n * 2 ^ Z.pos n) as ->; [|lia].
      replace (Z.pos n~0) with (Z.pos n + Z.pos n) by lia.
      rewrite !Z.pow_add_r by lia. lia.
    + intros Hex Hmod.
      replace (Z.pos n~0) with (Z.pos n + Z.pos n) in Hmod by lia.
      apply mod_pow2_add in Hmod as [Hm1 Hm2]; [|lia..].
      apply E3; [by apply E2|]. by rewrite H2.
  - split.
    + by apply shr_1_m.
    + intros Hex Hmod. by apply shr_1_exact.
Qed.

(** ** The exponent function and canonical mantissas *)

Lemma fexp_eq (e : Z) : fexp prec emax e = Z.max (e - 53) (-1074).
Proof. reflexivity. Qed.

Lemma cexp_eq (m e : Z) : cexp m e = Z.max (Zdigits2 m + e - 53) (-1074).
Proof. reflexivity. Qed.

Lemma bounded_inv (M : positive) (E : Z) :
  bounded prec emax M E = true → cexp (Zpos M) E = E ∧ E ≤ 971.
Proof.
  unfold bounded, canonical_mantissa. intros H.
  apply andb_prop in H as [H1 H2].
  apply Z.eqb_eq in H1. apply Z.leb_le in H2. split; [exact H1|].
  change (emax - prec) with 971 in H2. exact H2.
Qed.

Lemma bounded_intro (M : positive) (E : Z) :
  cexp (Zpos M) E = E → E ≤ 971 → bounded prec emax M E = true.
Proof.
  intros H1 H2. unfold bounded, canonical_mantissa.
  apply andb_true_intro. split; [by apply Z.eqb_eq|].
  apply Z.leb_le. change (emax - prec) with 971. exact H2.
Qed.

Lemma pow2_pos (k : Z) : 0 ≤ k → 0 < 2 ^ k.
Proof. intros. apply Z.pow_pos_nonneg; lia. Qed.

Lemma pow2_add (a b : Z) : 0 ≤ a → 0 ≤ b → 2 ^ (a + b) = 2 ^ a * 2 ^ b.
Proof. intros. apply Z.pow_add_r; lia. Qed.

Lemma pow2_le (a b : Z) : 0 ≤ a → a ≤ b → 2 ^ a ≤ 2 ^ b.
Proof. intros. apply Z.pow_le_mono_r; lia. Qed.

(** A positive number with a canonical exponent above the exponent of a
    bounded float is above that float. *)
Lemma canonical_above (m e : Z) (M : positive) (E c : Z) :
  0 < m → c ≤ e → c ≤ E →
  cexp (Zpos M) E = E → E < cexp m e →
  Zpos M * 2 ^ (E - c) < m * 2 ^ (e - c).
Proof.
  intros Hm Hce HcE HM Hlt. rewrite !cexp_eq in *.
  assert (Hd : Zdigits2 (Zpos M) + E < Zdigits2 m + e) by lia.
  pose proof (Zdigits2_bounds (Zpos M) ltac:(lia)) as [_ HMlt].
  pose proof (Zdigits2_bounds m Hm) as [Hmge _].
  pose proof (Zdigits2_pos (Zpos M) ltac:(lia)) as HdM.
  pose proof (Zdigits2_pos m Hm) as Hdm.
  assert (H1 : Zpos M * 2 ^ (E - c) < 2 ^ (Zdigits2 (Zpos M) + (E - c))).
  { rewrite pow2_add by lia. pose proof (pow2_pos (E - c)). nia. }
  assert (H2 : 2 ^ (Zdigits2 (Zpos M) + (E - c)) ≤ 2 ^ ((Zdigits2 m - 1) + (e - c))).
  { apply pow2_le; lia. }
  assert (H3 : 2 ^ ((Zdigits2 m - 1) + (e - c)) ≤ m * 2 ^ (e - c)).
  { rewrite pow2_add by lia. pose proof (pow2_pos (e - c)). nia. }
  lia.
Qed.

(** ** shr_fexp *)

Lemma loc_of_record_exact (r : shr_record) :
  inexact r = false → loc_of_shr_record r = loc_Exact.
Proof. destruct r as [m [] []]; simpl; done. Qed.

Lemma shr_fexp_spec (m e : Z) (l : location) :
  0 ≤ m → e ≤ cexp m e →
  ∃ r, shr_fexp prec emax m e l = (r, cexp m e) ∧
       shr_m r = m / 2 ^ (cexp m e - e) ∧
       (l = loc_Exact → m mod 2 ^ (cexp m e - e) = 0 →
        loc_of_shr_record r = loc_Exact).
Proof.
  intros Hm He. unfold shr_fexp, shr. fold (cexp m e).
  destruct (cexp m e - e) as [|n|n] eqn:En; [| |lia].
  - exists (shr_record_of_loc m l). replace (cexp m e) with e by lia.
    split; [done|]. split.
    + destruct l as [|[]]; simpl; by rewrite Z.div_1_r.
    + intros -> _. done.
  - destruct (iter_shr_1 n (shr_record_of_loc m l)) as [H1 H2].
    { destruct l as [|[]]; simpl; done. }
    eexists. split; [f_equal; lia|]. split.
    + rewrite H1. destruct l as [|[]]; done.
    + intros -> Hmod. apply loc_of_record_exact. apply H2; done.
Qed.

Lemma cexp_shifted (m e : Z) :
  0 ≤ m → e ≤ cexp m e → 0 < m / 2 ^ (cexp m e - e) →
  cexp (m / 2 ^ (cexp m e - e)) (cexp m e) = cexp m e.
Proof.
  intros Hm He Hq. rewrite (cexp_eq (m / _)).
  rewrite Zdigits2_div_pow2 by (done || lia).
  replace (Zdigits2 m - (cexp m e - e) + cexp m e - 53) with (Zdigits2 m + e - 53) by lia.
  by rewrite cexp_eq.
Qed.

Lemma shift_zero_emin (m e : Z) :
  0 ≤ m → e ≤ cexp m e → m / 2 ^ (cexp m e - e) = 0 → cexp m e = -1074.
Proof.
  intros Hm He Hq.
  assert (m < 2 ^ (cexp m e - e)).
  { pose proof (pow2_pos (cexp m e - e) ltac:(lia)).
    apply Z.div_small_iff in Hq; lia. }
  assert (Zdigits2 m ≤ cexp m e - e) by (apply Zdigits2_lt_pow2; lia).
  rewrite cexp_eq in *. lia.
Qed.

Lemma shr_fexp_upper (m e : Z) (l : location) (r : shr_record) (e' : Z)
    (M : positive) (E c : Z) :
  0 < m → e ≤ cexp m e → cexp (Zpos M) E = E → c ≤ e → c ≤ E →
  (m + delta l) * 2 ^ (e - c) ≤ Zpos M * 2 ^ (E - c) →
  shr_fexp prec emax m e l = (r, e') →
  e' = cexp m e ∧
  (shr_m r + delta (loc_of_shr_record r)) * 2 ^ (e' - c) ≤ Zpos M * 2 ^ (E - c).
Proof.
  intros Hm He HM Hce HcE Hle Hshr.
  destruct (shr_fexp_spec m e l) as (r0 & Hr0 & Hm1 & Hex); [lia|done|].
  rewrite Hshr in Hr0.
  assert (r0 = r ∧ e' = cexp m e) as [-> ->] by (split; congruence).
  split; [done|].
  set (e1 := cexp m e) in *. set (n := e1 - e) in *.
  assert (0 ≤ delta l ≤ 1) by (destruct l; simpl; lia).
  pose proof (pow2_pos (e - c) ltac:(lia)) as Hpe.
  destruct (Z_lt_le_dec E e1) as [Hlt|Hge].
  - exfalso.
    pose proof (canonical_above m e M E c Hm Hce HcE HM Hlt). nia.
  - pose proof (pow2_pos n ltac:(lia)) as Hpn.
    pose proof (pow2_pos (E - e1) ltac:(lia)) as HpE.
    set (G := Zpos M * 2 ^ (E - e1)).
    assert (HG : Zpos M * 2 ^ (E - c) = G * 2 ^ n * 2 ^ (e - c)).
    { unfold G. replace (E - c) with ((E - e1) + (n + (e - c))) by lia.
      rewrite !pow2_add by lia. lia. }
    assert (HG1 : Zpos M * 2 ^ (E - c) = G * 2 ^ (e1 - c)).
    { unfold G. replace (E - c) with ((E - e1) + (e1 - c)) by lia.
      rewrite !pow2_add by lia. lia. }
    pose proof (pow2_pos (e1 - c) ltac:(lia)) as Hp1.
    rewrite HG in Hle. rewrite HG1.
    assert (Hmle : m + delta l ≤ G * 2 ^ n) by nia.
    apply Z.mul_le_mono_nonneg_r; [lia|].
    rewrite Hm1.
    destruct (loc_of_shr_record r) eqn:Hloc; simpl.
    + assert (m / 2 ^ n ≤ G); [|lia].
      apply Z.div_le_upper_bound; [lia|]. lia.
    + assert (m < G * 2 ^ n).
      { destruct l as [|cmp]; [|simpl in Hmle; lia].
        destruct (Z.eq_dec (m mod 2 ^ n) 0) as [Hmod|Hmod].
        - specialize (Hex eq_refl Hmod). congruence.
        - simpl in Hmle. destruct (Z.eq_dec m (G * 2 ^ n)) as [Heq|]; [|lia].
          rewrite Heq, Z.mod_mul in Hmod by lia. done. }
      assert (m / 2 ^ n < G); [|lia].
      apply Z.div_lt_upper_bound; lia.
Qed.

Lemma shr_fexp_lower (m e : Z) (l : location) (r : shr_record) (e' : Z)
    (M : positive) (E c : Z) :
  0 ≤ m → e ≤ cexp m e → cexp (Zpos M) E = E → c ≤ e → c ≤ E →
  Zpos M * 2 ^ (E - c) ≤ m * 2 ^ (e - c) →
  shr_fexp prec emax m e l = (r, e') →
  e' = cexp m e ∧ Zpos M * 2 ^ (E - c) ≤ shr_m r * 2 ^ (e' - c).
Proof.
  intros Hm He HM Hce HcE Hle Hshr.
  destruct (shr_fexp_spec m e l) as (r0 & Hr0 & Hm1 & Hex); [lia|done|].
  rewrite Hshr in Hr0.
  assert (r0 = r ∧ e' = cexp m e) as [-> ->] by (split; congruence).
  split; [done|].
  pose proof (pow2_pos (e - c) ltac:(lia)) as Hpe.
  assert (Hq0 : 0 ≤ m / 2 ^ (cexp m e - e)).
  { apply Z.div_pos; [lia|]. apply pow2_pos. lia. }
  destruct (Z_lt_le_dec E (cexp m e)) as [Hlt|Hge].
  - destruct (Z.eq_dec (m / 2 ^ (cexp m e - e)) 0) as [Hz|Hnz].
    + pose proof (shift_zero_emin m e Hm He Hz). rewrite cexp_eq in HM. lia.
    + rewrite Hm1.
      pose proof (canonical_above (m / 2 ^ (cexp m e - e)) (cexp m e) M E c) as Hca.
      rewrite cexp_shifted in Hca by (done || lia).
      specialize (Hca ltac:(lia) ltac:(lia) HcE HM Hlt). lia.
  - set (e1 := cexp m e) in *. set (n := e1 - e) in *.
    pose proof (pow2_pos n ltac:(lia)) as Hpn.
    pose proof (pow2_pos (E - e1) ltac:(lia)) as HpE.
    pose proof (pow2_pos (e1 - c) ltac:(lia)) as Hp1.
    set (G := Zpos M * 2 ^ (E - e1)).
    assert (HG : Zpos M * 2 ^ (E - c) = G * 2 ^ n * 2 ^ (e - c)).
    { unfold G. replace (E - c) with ((E - e1) + (n + (e - c))) by lia.
      rewrite !pow2_add by lia. lia. }
    assert (HG1 : Zpos M * 2 ^ (E - c) = G * 2 ^ (e1 - c)).
    { unfold G. replace (E - c) with ((E - e1) + (e1 - c)) by lia.
      rewrite !pow2_add by lia. lia. }
    rewrite HG in Hle. rewrite HG1.
    apply Z.mul_le_mono_nonneg_r; [lia|]. rewrite Hm1.
    apply Z.div_le_lower_bound; [lia|]. nia.
Qed.

(** ** binary_round_aux *)

Lemma round_nearest_even_bounds (m : Z) (l : location) :
  m ≤ round_nearest_even m l ≤ m + delta l.
Proof.
  destruct l as [|[]]; simpl; try lia. destruct (Z.even m); lia.
Qed.

Lemma cexp_mono (m n e : Z) : 0 ≤ m → m ≤ n → cexp m e ≤ cexp n e.
Proof.
  intros Hm Hn. rewrite !cexp_eq. pose proof (Zdigits2_le m n Hm Hn). lia.
Qed.

(** After the first shift and the rounding the exponent is still below the
    canonical one. *)
Lemma cexp_after_round (mx ex m2 : Z) :
  0 ≤ mx → ex ≤ cexp mx ex → mx / 2 ^ (cexp mx ex - ex) ≤ m2 →
  cexp mx ex ≤ cexp m2 (cexp mx ex).
Proof.
  intros Hm He Hm2.
  assert (Hq0 : 0 ≤ mx / 2 ^ (cexp mx ex - ex)).
  { apply Z.div_pos; [lia|]. apply pow2_pos. lia. }
  destruct (Z.eq_dec (mx / 2 ^ (cexp mx ex - ex)) 0) as [Hz|Hnz].
  - rewrite (shift_zero_emin mx ex Hm He Hz). rewrite cexp_eq. lia.
  - rewrite <- (cexp_shifted mx ex Hm He) at 1 by lia.
    apply cexp_mono; lia.
Qed.

Lemma binary_round_aux_upper (sx : bool) (mx ex : Z) (lx : location)
    (M : positive) (E c : Z) :
  0 < mx → ex ≤ cexp mx ex → bounded prec emax M E = true → c ≤ ex → c ≤ E →
  (mx + delta lx) * 2 ^ (ex - c) ≤ Zpos M * 2 ^ (E - c) →
  match binary_round_aux prec emax sx mx ex lx with
  | S754_zero s => s = sx
  | S754_finite s m e =>
      s = sx ∧ bounded prec emax m e = true ∧ c ≤ e ∧
      Zpos m * 2 ^ (e - c) ≤ Zpos M * 2 ^ (E - c)
  | _ => False
  end.
Proof.
  intros Hm He HB Hce HcE Hle. apply bounded_inv in HB as [HM HE].
  unfold binary_round_aux.
  destruct (shr_fexp prec emax mx ex lx) as [r1 e1] eqn:H1.
  destruct (shr_fexp_spec mx ex lx) as (r1' & Hs1 & Hm1 & _); [lia|done|].
  rewrite H1 in Hs1. assert (r1' = r1 ∧ e1 = cexp mx ex) as [-> ->] by (split; congruence).
  clear Hs1.
  destruct (shr_fexp_upper mx ex lx r1 _ M E c Hm He HM Hce HcE Hle H1) as [_ Hb1].
  pose proof (round_nearest_even_bounds (shr_m r1) (loc_of_shr_record r1)) as Hrne.
  set (m2 := round_nearest_even (shr_m r1) (loc_of_shr_record r1)) in *.
  set (e1 := cexp mx ex) in *.
  assert (Hq0 : 0 ≤ shr_m r1).
  { rewrite Hm1. apply Z.div_pos; [lia|]. apply pow2_pos. lia. }
  assert (HP2 : e1 ≤ cexp m2 e1).
  { apply cexp_after_round; [lia|done|]. fold e1. rewrite <- Hm1. lia. }
  pose proof (pow2_pos (e1 - c) ltac:(lia)) as Hp1.
  assert (Hb2 : m2 * 2 ^ (e1 - c) ≤ Zpos M * 2 ^ (E - c)) by nia.
  destruct (shr_fexp prec emax m2 e1 loc_Exact) as [r2 e2] eqn:H2.
  destruct (shr_fexp_spec m2 e1 loc_Exact) as (r2' & Hs2 & Hm3 & _); [lia|done|].
  rewrite H2 in Hs2. assert (r2' = r2 ∧ e2 = cexp m2 e1) as [-> ->] by (split; congruence).
  clear Hs2.
  assert (Hq3 : 0 ≤ shr_m r2).
  { rewrite Hm3. apply Z.div_pos; [lia|]. apply pow2_pos. lia. }
  destruct (shr_m r2) as [|p|p] eqn:Hp; [done| |lia].
  assert (0 < m2).
  { destruct (Z.eq_dec m2 0) as [Hz|]; [|lia]. rewrite Hz, Z.div_0_l in Hm3; [lia|].
    pose proof (pow2_pos (cexp 0 e1 - e1)). rewrite Hz in HP2. lia. }
  destruct (shr_fexp_upper m2 e1 loc_Exact r2 (cexp m2 e1) M E c) as [_ Hb3];
    [lia|done|done|lia|done|simpl; lia|done|].
  rewrite Hp in Hb3.
  assert (Hcan : cexp (Zpos p) (cexp m2 e1) = cexp m2 e1).
  { rewrite Hm3. apply cexp_shifted; [lia|done|]. rewrite <- Hm3. lia. }
  assert (Hmax : cexp m2 e1 ≤ 971).
  { destruct (Z_le_gt_dec (cexp m2 e1) 971) as [|Hgt]; [done|]. exfalso.
    pose proof (canonical_above (Zpos p) (cexp m2 e1) M E c ltac:(lia) ltac:(lia) HcE HM) as Hca.
    rewrite Hcan in Hca. specialize (Hca ltac:(lia)).
    assert (0 ≤ delta (loc_of_shr_record r2)) by (destruct (loc_of_shr_record r2); simpl; lia).
    pose proof (pow2_pos (cexp m2 e1 - c) ltac:(lia)). nia. }
  change (emax - prec) with 971.
  destruct (Z.leb_spec (cexp m2 e1) 971) as [_|]; [|lia].
  split; [done|]. split; [by apply bounded_intro|]. split; [lia|].
  assert (0 ≤ delta (loc_of_shr_record r2)) by (destruct (loc_of_shr_record r2); simpl; lia).
  pose proof (pow2_pos (cexp m2 e1 - c) ltac:(lia)). nia.
Qed.

Lemma binary_round_aux_lower (sx : bool) (mx ex : Z) (lx : location)
    (M : positive) (E c : Z) :
  0 ≤ mx → ex ≤ cexp mx ex → bounded prec emax M E = true → c ≤ ex → c ≤ E →
  Zpos M * 2 ^ (E - c) ≤ mx * 2 ^ (ex - c) →
  match binary_round_aux prec emax sx mx ex lx with
  | S754_finite s m e =>
      s = sx ∧ c ≤ e ∧ Zpos M * 2 ^ (E - c) ≤ Zpos m * 2 ^ (e - c)
  | S754_infinity s => s = sx
  | _ => False
  end.
Proof.
  intros Hm He HB Hce HcE Hle. apply bounded_inv in HB as [HM HE].
  unfold binary_round_aux.
  destruct (shr_fexp prec emax mx ex lx) as [r1 e1] eqn:H1.
  destruct (shr_fexp_spec mx ex lx) as (r1' & Hs1 & Hm1 & _); [lia|done|].
  rewrite H1 in Hs1. assert (r1' = r1 ∧ e1 = cexp mx ex) as [-> ->] by (split; congruence).
  clear Hs1.
  destruct (shr_fexp_lower mx ex lx r1 _ M E c Hm He HM Hce HcE Hle H1) as [_ Hb1].
  pose proof (round_nearest_even_bounds (shr_m r1) (loc_of_shr_record r1)) as Hrne.
  set (m2 := round_nearest_even (shr_m r1) (loc_of_shr_record r1)) in *.
  set (e1 := cexp mx ex) in *.
  assert (Hq0 : 0 ≤ shr_m r1).
  { rewrite Hm1. apply Z.div_pos; [lia|]. apply pow2_pos. lia. }
  assert (HP2 : e1 ≤ cexp m2 e1).
  { apply cexp_after_round; [lia|done|]. fold e1. rewrite <- Hm1. lia. }
  pose proof (pow2_pos (e1 - c) ltac:(lia)) as Hp1.
  assert (Hb2 : Zpos M * 2 ^ (E - c) ≤ m2 * 2 ^ (e1 - c)) by nia.
  destruct (shr_fexp prec emax m2 e1 loc_Exact) as [r2 e2] eqn:H2.
  destruct (shr_fexp_lower m2 e1 loc_Exact r2 e2 M E c) as [-> Hb3];
    [lia|done|done|lia|done|done|done|].
  pose proof (pow2_pos (E - c) ltac:(lia)) as HpE.
  pose proof (pow2_pos (cexp m2 e1 - c) ltac:(lia)) as Hp2.
  destruct (shr_m r2) as [|p|p] eqn:Hp; [nia| |nia].
  change (emax - prec) with 971.
  destruct (Z.leb_spec (cexp m2 e1) 971); [|done].
  split; [done|]. split; [lia|done].
Qed.

(** ** binary_round and binary_normalize *)

Lemma iter_xO (m d : positive) : Zpos (Pos.iter xO m d) = Zpos m * 2 ^ Zpos d.
Proof.
  induction d as [|d IH] using Pos.peano_ind.
  - simpl. lia.
  - rewrite Pos.iter_succ, Pos2Z.inj_xO, IH, Pos2Z.inj_succ.
    rewrite Z.pow_succ_r by lia. lia.
Qed.

Lemma shl_align_spec (mx : positive) (ex ex' : Z) :
  ∃ mz ez, shl_align mx ex ex' = (mz, ez) ∧ ez = Z.min ex ex' ∧
           Zpos mz = Zpos mx * 2 ^ (ex - ez).
Proof.
  unfold shl_align. destruct (ex' - ex) as [|d|d] eqn:E.
  - exists mx, ex. split; [done|]. split; [lia|].
    replace (ex - ex) with 0 by lia. simpl. lia.
  - exists mx, ex. split; [done|]. split; [lia|].
    replace (ex - ex) with 0 by lia. simpl. lia.
  - eexists _, _. split; [done|]. split; [lia|].
    rewrite iter_xO. f_equal. f_equal. lia.
Qed.

(** The input of the rounding that [binary_round] prepares. *)
Lemma binary_round_eq (sx : bool) (mx : positive) (ex : Z) :
  ∃ mz ez, binary_round prec emax sx mx ex
             = binary_round_aux prec emax sx (Zpos mz) ez loc_Exact ∧
           ez = Z.min ex (cexp (Zpos mx) ex) ∧
           Zpos mz = Zpos mx * 2 ^ (ex - ez) ∧
           ez ≤ cexp (Zpos mz) ez.
Proof.
  unfold binary_round.
  destruct (shl_align_spec mx ex (fexp prec emax (Zpos (digits2_pos mx) + ex)))
    as (mz & ez & Hs & Hez & Hmz).
  rewrite Hs. exists mz, ez. split; [done|].
  change (fexp prec emax (Zpos (digits2_pos mx) + ex)) with (cexp (Zpos mx) ex) in Hez.
  split; [done|]. split; [done|].
  rewrite (cexp_eq (Zpos mz)), Hmz, Zdigits2_mul_pow2 by lia.
  rewrite cexp_eq in Hez. lia.
Qed.

Lemma scale_eq (m m' e e' c : Z) :
  c ≤ e' → e' ≤ e → m' = m * 2 ^ (e - e') → m' * 2 ^ (e' - c) = m * 2 ^ (e - c).
Proof.
  intros H1 H2 ->. replace (e - c) with ((e - e') + (e' - c)) by lia.
  rewrite pow2_add by lia. lia.
Qed.

Lemma binary_round_upper (sx : bool) (mx : positive) (ex : Z)
    (M : positive) (E c : Z) :
  bounded prec emax M E = true → c ≤ ex → c ≤ -1074 →
  Zpos mx * 2 ^ (ex - c) ≤ Zpos M * 2 ^ (E - c) →
  match binary_round prec emax sx mx ex with
  | S754_zero s => s = sx
  | S754_finite s m e =>
      s = sx ∧ bounded prec emax m e = true ∧ c ≤ e ∧
      Zpos m * 2 ^ (e - c) ≤ Zpos M * 2 ^ (E - c)
  | _ => False
  end.
Proof.
  intros HB Hce Hc Hle.
  destruct (binary_round_eq sx mx ex) as (mz & ez & -> & Hez & Hmz & HP).
  pose proof (bounded_inv M E HB) as [HM _].
  assert (c ≤ ez) by (rewrite cexp_eq in Hez; lia).
  assert (c ≤ E) by (rewrite cexp_eq in HM; lia).
  apply binary_round_aux_upper; try done; try lia.
  simpl delta. rewrite Z.add_0_r.
  rewrite (scale_eq (Zpos mx) (Zpos mz) ex ez c); [done|lia|lia|done].
Qed.

Lemma binary_round_lower (sx : bool) (mx : positive) (ex : Z)
    (M : positive) (E c : Z) :
  bounded prec emax M E = true → c ≤ ex → c ≤ -1074 →
  Zpos M * 2 ^ (E - c) ≤ Zpos mx * 2 ^ (ex - c) →
  match binary_round prec emax sx mx ex with
  | S754_finite s m e =>
      s = sx ∧ c ≤ e ∧ Zpos M * 2 ^ (E - c) ≤ Zpos m * 2 ^ (e - c)
  | S754_infinity s => s = sx
  | _ => False
  end.
Proof.
  intros HB Hce Hc Hle.
  destruct (binary_round_eq sx mx ex) as (mz & ez & -> & Hez & Hmz & HP).
  pose proof (bounded_inv M E HB) as [HM _].
  assert (c ≤ ez) by (rewrite cexp_eq in Hez; lia).
  assert (c ≤ E) by (rewrite cexp_eq in HM; lia).
  apply binary_round_aux_lower; try done; try lia.
  rewrite (scale_eq (Zpos mx) (Zpos mz) ex ez c); [done|lia|lia|done].
Qed.

(** Rounding a number that needs no shift and no rounding. *)
Lemma binary_round_aux_exact (sx : bool) (m : positive) (e : Z) :
  cexp (Zpos m) e = e → e ≤ 971 →
  binary_round_aux prec emax sx (Zpos m) e loc_Exact = S754_finite sx m e.
Proof.
  intros Hc He. unfold binary_round_aux.
  assert (Hs : shr_fexp prec emax (Zpos m) e loc_Exact
               = (shr_record_of_loc (Zpos m) loc_Exact, e)).
  { unfold shr_fexp. fold (cexp (Zpos m) e). rewrite Hc, Z.sub_diag. done. }
  rewrite Hs. cbn [shr_record_of_loc shr_m loc_of_shr_record round_nearest_even].
  rewrite Hs. cbn [shr_record_of_loc shr_m].
  change (emax - prec) with 971.
  destruct (Z.leb_spec e 971); [done|lia].
Qed.

(** ** Finite floats that are not negative *)

Lemma repr_nonneg (x : float64) (v : Z) : repr x v → 0 ≤ v.
Proof.
  destruct x as [s|s| |[] m e]; simpl; try done; try lia.
Qed.

Lemma bounded_emin (m : positive) (e : Z) : bounded prec emax m e = true → -1074 ≤ e.
Proof. intros HB. apply bounded_inv in HB as [HB _]. rewrite cexp_eq in HB. lia. Qed.

Lemma bounded_digits (m : positive) (e : Z) :
  bounded prec emax m e = true → Zdigits2 (Zpos m) ≤ 53.
Proof. intros HB. apply bounded_inv in HB as [HB _]. rewrite cexp_eq in HB. lia. Qed.

(** The float of value [2^j]. *)
Lemma bounded_pow2 (j : Z) :
  -1022 ≤ j ≤ 1023 → bounded prec emax (Z.to_pos (2 ^ 52)) (j - 52) = true.
Proof.
  intros Hj. apply bounded_intro; [|lia]. rewrite cexp_eq.
  change (Zdigits2 (Zpos (Z.to_pos (2 ^ 52)))) with 53. lia.
Qed.

Lemma float_of_int_repr (z : Z) :
  0 ≤ z ≤ 2 ^ 53 → repr (float_of_int z) (z * 2 ^ 1074).
Proof.
  intros Hz. unfold float_of_int. destruct z as [|p|p]; [done| |lia].
  destruct (Z.eq_dec (Zpos p) (2 ^ 53)) as [Heq|Hne].
  { injection Heq as ->. vm_compute. split; reflexivity. }
  unfold binary_normalize.
  destruct (binary_round_eq false p 0) as (mz & ez & -> & Hez & Hmz & HP).
  assert (Hd : Zdigits2 (Zpos p) ≤ 53).
  { apply Zdigits2_lt_pow2; lia. }
  pose proof (Zdigits2_pos (Zpos p) ltac:(lia)) as Hd0.
  assert (Hez' : ez = Zdigits2 (Zpos p) - 53) by (rewrite cexp_eq in Hez; lia).
  assert (Hcz : cexp (Zpos mz) ez = ez).
  { rewrite cexp_eq, Hmz, Zdigits2_mul_pow2 by lia. lia. }
  rewrite binary_round_aux_exact by (done || lia).
  simpl. split; [apply bounded_intro; [done|lia]|].
  rewrite Hmz. replace 1074 with ((0 - ez) + (ez + 1074)) at 1 by lia.
  rewrite pow2_add by lia. lia.
Qed.

(** ** Multiplication *)

Lemma Zdigits2_mul (a b : Z) :
  0 < a → 0 < b → Zdigits2 a + Zdigits2 b - 1 ≤ Zdigits2 (a * b).
Proof.
  intros Ha Hb.
  pose proof (Zdigits2_bounds a Ha) as [Ha1 _].
  pose proof (Zdigits2_bounds b Hb) as [Hb1 _].
  pose proof (Zdigits2_pos a Ha). pose proof (Zdigits2_pos b Hb).
  assert (2 ^ ((Zdigits2 a - 1) + (Zdigits2 b - 1)) ≤ a * b).
  { rewrite pow2_add by lia.
    pose proof (pow2_pos (Zdigits2 a - 1)). pose proof (pow2_pos (Zdigits2 b - 1)). nia. }
  pose proof (Zdigits2_ge_pow2 (a * b) ((Zdigits2 a - 1) + (Zdigits2 b - 1))). lia.
Qed.

Lemma mul_repr (x y : float64) (vx vy : Z) :
  repr x vx → repr y vy → vy ≤ 2 ^ 1074 →
  ∃ v, repr (SF64mul x y) v ∧ v ≤ vx.
Proof.
  intros Hx Hy Hle. pose proof (repr_nonneg x vx Hx) as Hvx.
  destruct x as [sx|sx| |[] mx ex]; try done;
    destruct y as [sy|sy| |[] my ey]; try done;
    try (exists 0; split; [done|lia]).
  destruct Hx as [HBx ->], Hy as [HBy ->].
  pose proof (bounded_emin _ _ HBx). pose proof (bounded_emin _ _ HBy).
  pose proof (bounded_inv _ _ HBx) as [Hcx _].
  pose proof (bounded_inv _ _ HBy) as [Hcy _].
  unfold SF64mul, SFmul. cbn [xorb].
  pose proof (binary_round_aux_upper false (Zpos (mx * my)) (ex + ey) loc_Exact
                mx ex (-2148)) as HU.
  pose proof (pow2_pos (ex + 1074) ltac:(lia)) as Hpx.
  pose proof (pow2_pos (ey + 1074) ltac:(lia)) as Hpy.
  pose proof (pow2_pos 1074 ltac:(lia)) as Hp.
  assert (Hsx : 2 ^ (ex - -2148) = 2 ^ (ex + 1074) * 2 ^ 1074).
  { rewrite <- pow2_add by lia. f_equal. lia. }
  assert (Hsxy : 2 ^ (ex + ey - -2148) = 2 ^ (ex + 1074) * 2 ^ (ey + 1074)).
  { rewrite <- pow2_add by lia. f_equal. lia. }
  assert (HP : ex + ey ≤ cexp (Zpos (mx * my)) (ex + ey)).
  { pose proof (Zdigits2_mul (Zpos mx) (Zpos my) ltac:(lia) ltac:(lia)).
    rewrite cexp_eq in *.
    pose proof (Zdigits2_pos (Zpos mx) ltac:(lia)).
    pose proof (Zdigits2_pos (Zpos my) ltac:(lia)).
    change (Zpos (mx * my)) with (Zpos mx * Zpos my). lia. }
  assert (Hb : (Zpos (mx * my) + delta loc_Exact) * 2 ^ (ex + ey - -2148)
               ≤ Zpos mx * 2 ^ (ex - -2148)).
  { simpl delta. rewrite Hsx, Hsxy, Pos2Z.inj_mul. nia. }
  specialize (HU ltac:(lia) HP HBx ltac:(lia) ltac:(lia) Hb).
  destruct (binary_round_aux prec emax false (Zpos (mx * my)) (ex + ey) loc_Exact)
    as [s|s| |s m e]; try done.
  - exists 0. split; [done|lia].
  - destruct HU as (-> & HB & _ & Hv).
    exists (Zpos m * 2 ^ (e + 1074)). split; [done|].
    pose proof (bounded_emin _ _ HB).
    assert (Hse : 2 ^ (e - -2148) = 2 ^ (e + 1074) * 2 ^ 1074).
    { rewrite <- pow2_add by lia. f_equal. lia. }
    rewrite Hse, Hsx in Hv. nia.
Qed.

(** ** Division *)

Lemma delta_new_location (n k : Z) :
  delta (new_location n k) = if k =? 0 then 0 else 1.
Proof.
  unfold new_location, new_location_even, new_location_odd.
  destruct (Z.even n), (k =? 0); done.
Qed.

Lemma div_core_eq (mx my : positive) (ex ey : Z) :
  let a := (Zdigits2 (Zpos mx) + ex) - (Zdigits2 (Zpos my) + ey) in
  let s := 53 - Zdigits2 (Zpos mx) + Zdigits2 (Zpos my) in
  -1021 ≤ a → Zdigits2 (Zpos mx) ≤ 53 →
  SFdiv_core_binary prec emax (Zpos mx) ex (Zpos my) ey
    = ((Zpos mx * 2 ^ s) / Zpos my, a - 53,
       new_location (Zpos my) ((Zpos mx * 2 ^ s) mod Zpos my)).
Proof.
  intros a s Ha Hd. unfold SFdiv_core_binary.
  pose proof (Zdigits2_pos (Zpos my) ltac:(lia)) as Hdy.
  rewrite fexp_eq.
  replace (Z.min (Z.max (Zdigits2 (Zpos mx) + ex - (Zdigits2 (Zpos my) + ey) - 53) (-1074))
             (ex - ey)) with (a - 53) by (unfold a; lia).
  replace (ex - ey - (a - 53)) with s by (unfold a, s; lia).
  assert (Hs : 0 < s) by (unfold s; lia).
  destruct s as [|p|p] eqn:Es; [lia| |lia].
  rewrite Z.shiftl_mul_pow2 by lia.
  unfold Z.div, Z.modulo.
  destruct (Z.div_eucl (Zpos mx * 2 ^ Zpos p) (Zpos my)) as [q r]. done.
Qed.

Lemma div_repr (mx my M : positive) (ex ey E : Z) :
  bounded prec emax mx ex = true →
  bounded prec emax my ey = true →
  bounded prec emax M E = true →
  let a := (Zdigits2 (Zpos mx) + ex) - (Zdigits2 (Zpos my) + ey) in
  -1021 ≤ a → a - 53 ≤ E →
  Zpos mx * 2 ^ (ex + 1074) * 2 ^ 1074
    ≤ Zpos M * 2 ^ (E + 1074) * (Zpos my * 2 ^ (ey + 1074)) →
  ∃ v, repr (SF64div (S754_finite false mx ex) (S754_finite false my ey)) v ∧
       v ≤ Zpos M * 2 ^ (E + 1074).
Proof.
  intros HBx HBy HB a Ha Hgrid Hle.
  pose proof (bounded_emin _ _ HBx). pose proof (bounded_emin _ _ HBy).
  pose proof (bounded_emin _ _ HB).
  pose proof (bounded_digits _ _ HBx) as Hdx.
  pose proof (Zdigits2_pos (Zpos mx) ltac:(lia)) as Hdx0.
  pose proof (Zdigits2_pos (Zpos my) ltac:(lia)) as Hdy0.
  unfold SF64div, SFdiv. cbn [xorb].
  rewrite (div_core_eq mx my ex ey Ha Hdx). fold a.
  set (s := 53 - Zdigits2 (Zpos mx) + Zdigits2 (Zpos my)).
  set (m' := Zpos mx * 2 ^ s).
  set (q := m' / Zpos my). set (r := m' mod Zpos my).
  pose proof (pow2_pos s ltac:(unfold s; lia)) as Hps.
  pose proof (Z.div_mod m' (Zpos my) ltac:(lia)) as Hdm. fold q r in Hdm.
  pose proof (Z.mod_pos_bound m' (Zpos my) ltac:(lia)) as Hr. fold r in Hr.
  (* the quotient has at least 53 digits *)
  assert (Hq : 2 ^ 52 ≤ q).
  { apply Z.div_le_lower_bound; [lia|].
    pose proof (Zdigits2_bounds (Zpos mx) ltac:(lia)) as [Hmx _].
    pose proof (Zdigits2_bounds (Zpos my) ltac:(lia)) as [_ Hmy].
    assert (2 ^ (52 + Zdigits2 (Zpos my)) ≤ m').
    { unfold m'. replace (52 + Zdigits2 (Zpos my)) with ((Zdigits2 (Zpos mx) - 1) + s)
        by (unfold s; lia).
      rewrite pow2_add by (unfold s; lia). nia. }
    rewrite pow2_add in * by lia. pose proof (pow2_pos 52 ltac:(lia)). nia. }
  assert (HP : a - 53 ≤ cexp q (a - 53)).
  { pose proof (Zdigits2_ge_pow2 q 52 ltac:(lia) Hq). rewrite cexp_eq. lia. }
  (* the exact quotient is below the bound *)
  set (G := Zpos M * 2 ^ (E - (a - 53))).
  pose proof (pow2_pos (E - (a - 53)) ltac:(lia)) as HpG.
  assert (HG : m' ≤ G * Zpos my).
  { set (t := ey + (a - 53) + 2148).
    pose proof (pow2_pos t ltac:(unfold t; lia)) as Hpt.
    assert (Hl1 : Zpos mx * 2 ^ (ex + 1074) * 2 ^ 1074 = m' * 2 ^ t).
    { unfold m'. rewrite <- !Z.mul_assoc, <- !pow2_add by (unfold s, t; lia).
      f_equal. f_equal. unfold s, t, a. lia. }
    assert (Hl2 : Zpos M * 2 ^ (E + 1074) * (Zpos my * 2 ^ (ey + 1074))
                 = G * Zpos my * 2 ^ t).
    { unfold G. replace (E + 1074) with ((E - (a - 53)) + ((a - 53) + 1074)) by lia.
      rewrite pow2_add by lia.
      replace t with (((a - 53) + 1074) + (ey + 1074)) by (unfold t; lia).
      rewrite (pow2_add ((a - 53) + 1074)) by lia. lia. }
    rewrite Hl1, Hl2 in Hle. nia. }
  assert (Hb : (q + delta (new_location (Zpos my) r)) * 2 ^ (a - 53 - -1074)
               ≤ Zpos M * 2 ^ (E - -1074)).
  { replace (E - -1074) with ((E - (a - 53)) + (a - 53 - -1074)) by lia.
    rewrite pow2_add by lia. rewrite Z.mul_assoc. fold G.
    pose proof (pow2_pos (a - 53 - -1074) ltac:(lia)).
    apply Z.mul_le_mono_nonneg_r; [lia|].
    rewrite delta_new_location. destruct (Z.eqb_spec r 0); nia. }
  pose proof (binary_round_aux_upper false q (a - 53)
                (new_location (Zpos my) r) M E (-1074)
                ltac:(lia) HP HB ltac:(lia) ltac:(lia) Hb) as HU.
  destruct (binary_round_aux prec emax false q (a - 53) (new_location (Zpos my) r))
    as [sz|sz| |sz m e]; try done.
  - exists 0. split; [done|]. pose proof (pow2_pos (E + 1074) ltac:(lia)). nia.
  - destruct HU as (-> & HBz & _ & Hv).
    exists (Zpos m * 2 ^ (e + 1074)). split; [done|].
    replace (e - -1074) with (e + 1074) in Hv by lia.
    replace (E - -1074) with (E + 1074) in Hv by lia. done.
Qed.

(** The exponent of the leading digit of a float, read from its value. *)
Lemma repr_digits (m : positive) (e z : Z) :
  0 < z → bounded prec emax m e = true →
  z * 2 ^ 1074 = Zpos m * 2 ^ (e + 1074) →
  Zdigits2 (Zpos m) + e = Zdigits2 z.
Proof.
  intros Hz HB Heq. pose proof (bounded_emin _ _ HB).
  assert (Zdigits2 (z * 2 ^ 1074) = Zdigits2 (Zpos m * 2 ^ (e + 1074))) as Hd
    by by rewrite Heq.
  rewrite !Zdigits2_mul_pow2 in Hd by lia. lia.
Qed.

Lemma float_of_int_finite (z : Z) :
  1 ≤ z ≤ 2 ^ 53 →
  ∃ m e, float_of_int z = S754_finite false m e ∧ bounded prec emax m e = true ∧
         z * 2 ^ 1074 = Zpos m * 2 ^ (e + 1074).
Proof.
  intros Hz. pose proof (float_of_int_repr z ltac:(lia)) as H.
  destruct (float_of_int z) as [s|s| |[] m e]; simpl in H; try done.
  - pose proof (pow2_pos 1074 ltac:(lia)). nia.
  - destruct H as [HB Hv]. eauto.
Qed.

Lemma div_int_repr (a b j : Z) :
  0 ≤ a ≤ 2 ^ 53 → 1 ≤ b ≤ 2 ^ 53 → 0 ≤ j ≤ 53 → a ≤ 2 ^ j * b →
  ∃ v, repr (SF64div (float_of_int a) (float_of_int b)) v ∧ v ≤ 2 ^ j * 2 ^ 1074.
Proof.
  intros Ha Hb Hj Hle.
  destruct (float_of_int_finite b Hb) as (my & ey & -> & HBy & Hvy).
  pose proof (pow2_pos j ltac:(lia)) as Hpj.
  pose proof (pow2_pos 1074 ltac:(lia)) as Hp.
  destruct (Z.eq_dec a 0) as [->|Hne].
  { exists 0. split; [done|]. nia. }
  destruct (float_of_int_finite a ltac:(lia)) as (mx & ex & -> & HBx & Hvx).
  pose proof (repr_digits mx ex a ltac:(lia) HBx Hvx) as Hdx.
  pose proof (repr_digits my ey b ltac:(lia) HBy Hvy) as Hdy.
  assert (Hda : 1 ≤ Zdigits2 a ≤ 54).
  { pose proof (Zdigits2_pos a ltac:(lia)).
    pose proof (Zdigits2_lt_pow2 a 54 ltac:(lia) ltac:(lia)
                  ltac:(change (2 ^ 54) with (2 * 2 ^ 53); lia)). lia. }
  assert (Hdb : 1 ≤ Zdigits2 b ≤ 54).
  { pose proof (Zdigits2_pos b ltac:(lia)).
    pose proof (Zdigits2_lt_pow2 b 54 ltac:(lia) ltac:(lia)
                  ltac:(change (2 ^ 54) with (2 * 2 ^ 53); lia)). lia. }
  assert (Hdab : Zdigits2 a ≤ Zdigits2 b + j).
  { rewrite <- Zdigits2_mul_pow2 by lia. apply Zdigits2_le; lia. }
  destruct (div_repr mx my (Z.to_pos (2 ^ 52)) ex ey (j - 52) HBx HBy)
    as (v & Hv & Hvle).
  - apply bounded_pow2. lia.
  - lia.
  - lia.
  - rewrite <- Hvx, <- Hvy.
    change (Zpos (Z.to_pos (2 ^ 52))) with (2 ^ 52).
    replace (j - 52 + 1074) with (j + 1022) by lia.
    replace (2 ^ 52 * 2 ^ (j + 1022)) with (2 ^ j * 2 ^ 1074).
    + nia.
    + rewrite <- !pow2_add by lia. f_equal. lia.
  - exists v. split; [done|].
    change (Zpos (Z.to_pos (2 ^ 52))) with (2 ^ 52) in Hvle.
    replace (2 ^ 52 * 2 ^ (j - 52 + 1074)) with (2 ^ j * 2 ^ 1074) in Hvle; [done|].
    rewrite <- !pow2_add by lia. f_equal. lia.
Qed.

(** ** Rounding to an integer *)

Lemma round_half_even_bounds (m k : Z) :
  0 ≤ k →
  m / 2 ^ k ≤ round_half_even m k ≤ m / 2 ^ k + 1 ∧
  (m mod 2 ^ k = 0 → round_half_even m k = m / 2 ^ k).
Proof.
  intros Hk. unfold round_half_even.
  pose proof (pow2_pos k Hk) as Hp.
  destruct (Z.compare_spec (2 * (m mod 2 ^ k)) (2 ^ k)) as [H|H|H].
  - split; [destruct (Z.even (m / 2 ^ k)); lia|]. intros Hz. lia.
  - split; [lia|done].
  - split; [lia|]. intros Hz. lia.
Qed.

Lemma np_round_repr (x : float64) (v N : Z) :
  repr x v → 0 ≤ N ≤ 2 ^ 53 → v ≤ N * 2 ^ 1074 →
  ∃ k, 0 ≤ k ≤ N ∧ repr (np_round x) (k * 2 ^ 1074).
Proof.
  intros Hx HN Hle. pose proof (pow2_pos 1074 ltac:(lia)) as Hp.
  destruct x as [s|s| |[] m e]; try done.
  { exists 0. simpl. split; [lia|done]. }
  destruct Hx as [HB ->]. pose proof (bounded_emin _ _ HB) as He.
  unfold np_round. destruct (Z.leb_spec 0 e) as [He0|He0].
  - exists (Zpos m * 2 ^ e). pose proof (pow2_pos e He0).
    assert (Heq : Zpos m * 2 ^ (e + 1074) = Zpos m * 2 ^ e * 2 ^ 1074).
    { rewrite pow2_add by lia. lia. }
    split; [nia|]. simpl. split; [done|]. done.
  - pose proof (round_half_even_bounds (Zpos m) (- e) ltac:(lia)) as [Hb Hex].
    set (n := round_half_even (Zpos m) (- e)) in *.
    pose proof (pow2_pos (- e) ltac:(lia)) as Hpe.
    assert (Hq0 : 0 ≤ Zpos m / 2 ^ (- e)) by (apply Z.div_pos; lia).
    assert (HmN : Zpos m ≤ N * 2 ^ (- e)).
    { replace 1074 with ((- e) + (e + 1074)) in Hle at 2 by lia.
      rewrite (pow2_add (- e) (e + 1074)) in Hle by lia.
      pose proof (pow2_pos (e + 1074) ltac:(lia)). nia. }
    assert (HnN : n ≤ N).
    { destruct (Z.eq_dec (Zpos m mod 2 ^ (- e)) 0) as [Hz|Hnz].
      - rewrite (Hex Hz). apply Z.div_le_upper_bound; lia.
      - assert (Zpos m / 2 ^ (- e) < N); [|lia].
        apply Z.div_lt_upper_bound; [lia|].
        destruct (Z.eq_dec (Zpos m) (N * 2 ^ (- e))) as [Heq|]; [|lia].
        rewrite Heq, Z.mod_mul in Hnz by lia. done. }
    destruct (Z.eqb_spec n 0) as [Hn0|Hn0].
    + exists 0. simpl. split; [lia|done].
    + exists n. split; [lia|].
      change (binary_normalize prec emax (cond_Zopp false n) 0 false)
        with (float_of_int n).
      apply float_of_int_repr. lia.
Qed.

(** ** Addition and subtraction *)

Lemma shl_align_fst (m : positive) (e ez : Z) :
  ez ≤ e → Zpos (fst (shl_align m e ez)) = Zpos m * 2 ^ (e - ez).
Proof.
  intros H. destruct (shl_align_spec m e ez) as (mz & ez' & -> & Hez & Hmz).
  simpl. rewrite Hmz. f_equal. f_equal. lia.
Qed.

Lemma add_repr (x y : float64) (vx vy : Z) :
  repr x vx → repr y vy → vx + vy ≤ 2 ^ 54 * 2 ^ 1074 →
  ∃ v, repr (SF64add x y) v ∧ vy ≤ v.
Proof.
  intros Hx Hy Hle.
  pose proof (repr_nonneg x vx Hx) as Hvx. pose proof (repr_nonneg y vy Hy) as Hvy.
  destruct x as [sx|sx| |[] mx ex]; try done;
    destruct y as [sy|sy| |[] my ey]; try done.
  - simpl in Hx, Hy. subst. exists 0. split; [|lia]. by destruct sx, sy.
  - simpl in Hx. subst. exists vy. split; [done|lia].
  - simpl in Hy. subst. exists vx. split; [done|lia].
  - destruct Hx as [HBx ->], Hy as [HBy ->].
    pose proof (bounded_emin _ _ HBx). pose proof (bounded_emin _ _ HBy).
    unfold SF64add, SFadd. cbn [cond_Zopp].
    set (ez := Z.min ex ey).
    rewrite !shl_align_fst by (unfold ez; lia).
    pose proof (pow2_pos (ex - ez) ltac:(unfold ez; lia)) as Hpx.
    pose proof (pow2_pos (ey - ez) ltac:(unfold ez; lia)) as Hpy.
    pose proof (pow2_pos (ez - -1074) ltac:(unfold ez; lia)) as Hpz.
    destruct (Zpos mx * 2 ^ (ex - ez) + Zpos my * 2 ^ (ey - ez)) as [|p|p] eqn:Ep;
      [nia| |nia].
    unfold binary_normalize.
    assert (Hvx' : Zpos mx * 2 ^ (ex + 1074) = Zpos mx * 2 ^ (ex - ez) * 2 ^ (ez - -1074)).
    { rewrite <- Z.mul_assoc, <- pow2_add by (unfold ez; lia). f_equal. f_equal. lia. }
    assert (Hvy' : Zpos my * 2 ^ (ey + 1074) = Zpos my * 2 ^ (ey - ez) * 2 ^ (ez - -1074)).
    { rewrite <- Z.mul_assoc, <- pow2_add by (unfold ez; lia). f_equal. f_equal. lia. }
    assert (Hsum : Zpos p * 2 ^ (ez - -1074)
                   = Zpos mx * 2 ^ (ex + 1074) + Zpos my * 2 ^ (ey + 1074)).
    { rewrite <- Ep, Hvx', Hvy'. lia. }
    pose proof (binary_round_upper false p ez (Z.to_pos (2 ^ 52)) 2 (-1074)
                  (bounded_pow2 54 ltac:(lia)) ltac:(unfold ez; lia) ltac:(lia)) as HU.
    pose proof (binary_round_lower false p ez my ey (-1074)
                  HBy ltac:(unfold ez; lia) ltac:(lia)) as HL.
    assert (HU' : Zpos p * 2 ^ (ez - -1074) ≤ Zpos (Z.to_pos (2 ^ 52)) * 2 ^ (2 - -1074)).
    { rewrite Hsum. change (Zpos (Z.to_pos (2 ^ 52)) * 2 ^ (2 - -1074))
        with (2 ^ 54 * 2 ^ 1074). done. }
    assert (HL' : Zpos my * 2 ^ (ey - -1074) ≤ Zpos p * 2 ^ (ez - -1074)).
    { rewrite Hsum. replace (ey - -1074) with (ey + 1074) by lia.
      pose proof (pow2_pos (ex + 1074) ltac:(lia)). nia. }
    specialize (HU HU'). specialize (HL HL').
    destruct (binary_round prec emax false p ez) as [s|s| |s m e]; try done.
    destruct HU as (-> & HB & _ & _). destruct HL as (_ & _ & HLv).
    exists (Zpos m * 2 ^ (e + 1074)). split; [done|].
    replace (e - -1074) with (e + 1074) in HLv by lia.
    replace (ey - -1074) with (ey + 1074) in HLv by lia. done.
Qed.

Lemma sub_repr (x y : float64) (vx vy : Z) :
  repr x vx → repr y vy → vy ≤ vx →
  ∃ v, repr (SF64sub x y) v.
Proof.
  intros Hx Hy Hle.
  pose proof (repr_nonneg x vx Hx) as Hvx. pose proof (repr_nonneg y vy Hy) as Hvy.
  destruct x as [sx|sx| |[] mx ex]; try done;
    destruct y as [sy|sy| |[] my ey]; try done.
  - exists 0. by destruct sx, sy.
  - simpl in Hx. subst. destruct Hy as [HBy ->].
    pose proof (bounded_emin _ _ HBy).
    pose proof (pow2_pos (ey + 1074) ltac:(lia)). nia.
  - exists vx. done.
  - destruct Hx as [HBx ->], Hy as [HBy ->].
    pose proof (bounded_emin _ _ HBx). pose proof (bounded_emin _ _ HBy).
    unfold SF64sub, SFsub. cbn [cond_Zopp].
    set (ez := Z.min ex ey).
    rewrite !shl_align_fst by (unfold ez; lia).
    pose proof (pow2_pos (ex - ez) ltac:(unfold ez; lia)) as Hpx.
    pose proof (pow2_pos (ey - ez) ltac:(unfold ez; lia)) as Hpy.
    pose proof (pow2_pos (ez - -1074) ltac:(unfold ez; lia)) as Hpz.
    assert (Hvx' : Zpos mx * 2 ^ (ex + 1074) = Zpos mx * 2 ^ (ex - ez) * 2 ^ (ez - -1074)).
    { rewrite <- Z.mul_assoc, <- pow2_add by (unfold ez; lia). f_equal. f_equal. lia. }
    assert (Hvy' : Zpos my * 2 ^ (ey + 1074) = Zpos my * 2 ^ (ey - ez) * 2 ^ (ez - -1074)).
    { rewrite <- Z.mul_assoc, <- pow2_add by (unfold ez; lia). f_equal. f_equal. lia. }
    destruct (Zpos mx * 2 ^ (ex - ez) - Zpos my * 2 ^ (ey - ez)) as [|p|p] eqn:Ep.
    + exists 0. done.
    + unfold binary_normalize.
      pose proof (binary_round_upper false p ez mx ex (-1074)
                    HBx ltac:(unfold ez; lia) ltac:(lia)) as HU.
      assert (HU' : Zpos p * 2 ^ (ez - -1074) ≤ Zpos mx * 2 ^ (ex - -1074)).
      { replace (ex - -1074) with (ex + 1074) by lia. rewrite Hvx'. nia. }
      specialize (HU HU').
      destruct (binary_round prec emax false p ez) as [s|s| |s m e]; try done.
      * exists 0. done.
      * destruct HU as (-> & HB & _ & _). exists (Zpos m * 2 ^ (e + 1074)). done.
    + exfalso. rewrite Hvx', Hvy' in Hle. nia.
Qed.

Lemma int_of_float_repr (x : float64) (v : Z) :
  repr x v → ∃ k, int_of_float x = Ok k ∧ 0 ≤ k.
Proof.
  destruct x as [s|s| |[] m e]; try done.
  - exists 0. done.
  - intros _. eexists. split; [done|]. simpl. apply Z.shiftl_nonneg. lia.
Qed.

(** ** The node count of a shell *)

Lemma nodes_per_shell_repr (total num_shells : Z) :
  0 ≤ total ≤ 2 ^ 53 → 1 ≤ num_shells ≤ 2 ^ 53 →
  ∃ r K, true_div total num_shells = Ok r ∧ 0 ≤ K ≤ 2 ^ 53 ∧
         repr (np_round r) (K * 2 ^ 1074).
Proof.
  intros Ht Hn. unfold true_div.
  destruct (Z.eqb_spec num_shells 0) as [|_]; [lia|].
  destruct (div_int_repr total num_shells 53) as (v & Hv & Hle); [lia..|].
  destruct (np_round_repr _ v (2 ^ 53) Hv) as (K & HK & Hr); [lia|lia|].
  eauto.
Qed.

Lemma ratio_repr (a : Z) :
  0 ≤ a → a + 1 ≤ 2 ^ 53 →
  ∃ v, repr (SF64div (float_of_int a) (float_of_int (a + 1))) v ∧ v ≤ 2 ^ 1074.
Proof.
  intros Ha Hb.
  destruct (div_int_repr a (a + 1) 0) as (v & Hv & Hle); [lia..|].
  exists v. split; [done|]. change (2 ^ 0) with 1 in Hle. lia.
Qed.

Lemma share_repr (nps : float64) (K a : Z) :
  repr nps (K * 2 ^ 1074) → 0 ≤ K ≤ 2 ^ 53 → 0 ≤ a → a + 1 ≤ 2 ^ 53 →
  ∃ k, 0 ≤ k ≤ K ∧
       repr (np_round (SF64mul nps (SF64div (float_of_int a) (float_of_int (a + 1)))))
         (k * 2 ^ 1074).
Proof.
  intros Hnps HK Ha Hb.
  destruct (ratio_repr a Ha Hb) as (v1 & Hv1 & Hle1).
  destruct (mul_repr nps _ _ v1 Hnps Hv1 Hle1) as (v2 & Hv2 & Hle2).
  exact (np_round_repr _ v2 K Hv2 HK Hle2).
Qed.

Lemma num_nodes_nonneg (nps : float64) (K i : Z) :
  repr nps (K * 2 ^ 1074) → 0 ≤ K ≤ 2 ^ 53 → 1 ≤ i < 2 ^ 53 →
  ∃ k, Shells.num_nodes nps i = Ok k ∧ 0 ≤ k.
Proof.
  intros Hnps HK Hi. unfold Shells.num_nodes.
  pose proof (pow2_pos 1074 ltac:(lia)) as Hp.
  destruct (share_repr nps K i Hnps HK) as (k1 & Hk1 & Hto); [lia..|].
  assert (Hfi : ∃ k2, 0 ≤ k2 ≤ K ∧
            repr (if i =? 1 then float_of_int 0
                  else np_round (SF64mul nps
                         (SF64div (float_of_int (i - 1)) (float_of_int i))))
              (k2 * 2 ^ 1074)).
  { destruct (Z.eqb_spec i 1) as [->|Hne].
    - exists 0. split; [lia|done].
    - destruct (share_repr nps K (i - 1) Hnps HK) as (k2 & Hk2 & Hfi); [lia..|].
      replace (i - 1 + 1) with i in Hfi by lia. eauto. }
  destruct Hfi as (k2 & Hk2 & Hfi).
  destruct (add_repr _ nps _ _ Hfi Hnps) as (va & Hva & Hge).
  { change (2 ^ 54) with (2 * 2 ^ 53). nia. }
  destruct (sub_repr _ _ va _ Hva Hto) as (vt & Hvt); [nia|].
  exact (int_of_float_repr _ vt Hvt).
Qed.

(** ** make_shells *)

Section ShellsFacts.
Context {A : Type}.
Implicit Types (nodes rest : list A) (shells : list (list A)).

Lemma slice_to_nonneg rest (k : nat) : slice_to rest (Z.of_nat k) = take k rest.
Proof.
  unfold slice_to, slice_bound.
  destruct (Z.ltb_spec (Z.of_nat k) 0) as [|_]; [lia|].
  destruct (Nat.le_gt_cases k (length rest)).
  - f_equal. lia.
  - replace (Z.to_nat (Z.min (Z.of_nat k) (Z.of_nat (length rest)))) with (length rest) by lia.
    rewrite !take_ge by lia. done.
Qed.

Lemma slice_from_nonneg rest (k : nat) : slice_from rest (Z.of_nat k) = drop k rest.
Proof.
  unfold slice_from, slice_bound.
  destruct (Z.ltb_spec (Z.of_nat k) 0) as [|_]; [lia|].
  destruct (Nat.le_gt_cases k (length rest)).
  - f_equal. lia.
  - replace (Z.to_nat (Z.min (Z.of_nat k) (Z.of_nat (length rest)))) with (length rest) by lia.
    rewrite !drop_ge by lia. done.
Qed.

Lemma setitem_middle shells (x y : list A) (tl : list (list A)) :
  setitem (shells ++ y :: tl) (Z.of_nat (length shells)) x = Ok (shells ++ x :: tl).
Proof.
  unfold setitem. rewrite length_app. simpl.
  destruct (Z.ltb_spec (Z.of_nat (length shells)) 0); [lia|].
  destruct (Z.leb_spec 0 (Z.of_nat (length shells))); [|lia].
  destruct (Z.ltb_spec (Z.of_nat (length shells))
              (Z.of_nat (length shells + S (length tl)))); [|lia].
  simpl. rewrite Nat2Z.id.
  replace (length shells) with (length shells + 0)%nat at 1 by lia.
  by rewrite insert_app_r.
Qed.

Lemma concat_split_shells (counts : list nat) nodes :
  concat (split_shells counts nodes) = nodes.
Proof.
  revert nodes. induction counts as [|c counts IH]; intros nodes; simpl.
  - apply app_nil_r.
  - by rewrite IH, take_drop.
Qed.

Lemma length_split_shells (counts : list nat) nodes :
  length (split_shells counts nodes) = S (length counts).
Proof.
  revert nodes. induction counts as [|c counts IH]; intros nodes; simpl; [done|].
  by rewrite IH.
Qed.

Lemma shell_body_eq (num_shells : Z) (nps : float64) shells rest (i k : Z) :
  Shells.num_nodes nps i = Ok k →
  Shells.shell_body num_shells nps (shells, rest) i =
    if i =? num_shells then
      shells' ← setitem shells (i - 1) rest; Ok (shells', rest)
    else
      shells' ← setitem shells (i - 1) (slice_to rest k);
      Ok (shells', slice_from rest k).
Proof. intros H. unfold Shells.shell_body. by rewrite H. Qed.

(** The loop from shell [j + 1] on, with [m] shells still to fill. *)
Lemma shells_loop (num_shells : Z) (nps : float64) (K : Z) :
  repr nps (K * 2 ^ 1074) → 0 ≤ K ≤ 2 ^ 53 → 1 ≤ num_shells < 2 ^ 53 →
  ∀ (m j : nat) shells rest,
    Z.of_nat (j + S m) = num_shells → length shells = j →
    ∃ rest',
      for_each (Shells.shell_body num_shells nps)
        (map (fun k => Z.of_nat (S k)) (seq j (S m)))
        (shells ++ replicate (S m) [], rest)
      = Ok (shells ++ split_shells
                        (map (fun k => shell_count nps (Z.of_nat (S k))) (seq j m)) rest,
            rest').
Proof.
  intros Hnps HK Hn. induction m as [|m IH]; intros j shells rest Hj Hlen.
  - cbn [seq map]. rewrite for_each_cons.
    destruct (num_nodes_nonneg nps K (Z.of_nat (S j)) Hnps HK) as (k & Hk & Hk0); [lia|].
    rewrite (shell_body_eq _ _ _ _ _ k Hk).
    destruct (Z.eqb_spec (Z.of_nat (S j)) num_shells) as [_|]; [|lia].
    replace (Z.of_nat (S j) - 1) with (Z.of_nat (length shells)) by lia.
    change (replicate 1 []) with [@nil A].
    rewrite setitem_middle, bind_Ok, bind_Ok, for_each_nil. simpl. eauto.
  - cbn [seq map]. rewrite for_each_cons.
    destruct (num_nodes_nonneg nps K (Z.of_nat (S j)) Hnps HK) as (k & Hk & Hk0); [lia|].
    rewrite (shell_body_eq _ _ _ _ _ k Hk).
    destruct (Z.eqb_spec (Z.of_nat (S j)) num_shells) as [|_]; [lia|].
    replace (Z.of_nat (S j) - 1) with (Z.of_nat (length shells)) by lia.
    change (replicate (S (S m)) []) with ([] :: replicate (S m) (@nil A)).
    rewrite setitem_middle, bind_Ok, bind_Ok.
    assert (Hc : shell_count nps (Z.of_nat (S j)) = Z.to_nat k).
    { unfold shell_count. by rewrite Hk. }
    replace k with (Z.of_nat (Z.to_nat k)) by lia.
    rewrite slice_to_nonneg, slice_from_nonneg.
    destruct (IH (S j) (shells ++ [take (Z.to_nat k) rest]) (drop (Z.to_nat k) rest))
      as (rest' & Hrun).
    { lia. }
    { rewrite length_app. simpl. lia. }
    exists rest'. rewrite <- !app_assoc in Hrun. simpl in Hrun.
    cbn [split_shells]. rewrite Hc. exact Hrun.
Qed.

Lemma make_shells_split (num_shells : Z) nodes :
  1 ≤ num_shells < 2 ^ 53 → Z.of_nat (length nodes) ≤ 2 ^ 53 →
  (∀ i, 1 ≤ i < num_shells →
     Shells.num_nodes (nodes_per_shell (Z.of_nat (length nodes)) num_shells) i
     = Ok (Z.of_nat (shell_count
                       (nodes_per_shell (Z.of_nat (length nodes)) num_shells) i))) ∧
  Shells.make_shells num_shells nodes
  = Ok (split_shells (shell_counts (Z.of_nat (length nodes)) num_shells) nodes).
Proof.
  intros Hn Hlen.
  destruct (nodes_per_shell_repr (Z.of_nat (length nodes)) num_shells)
    as (r & K & Hdiv & HK & Hnps); [lia|lia|].
  assert (Hr : r = SF64div (float_of_int (Z.of_nat (length nodes)))
                     (float_of_int num_shells)).
  { unfold true_div in Hdiv. destruct (num_shells =? 0); congruence. }
  fold (nodes_per_shell (Z.of_nat (length nodes)) num_shells) in *.
  assert (Hnps' : repr (nodes_per_shell (Z.of_nat (length nodes)) num_shells)
                    (K * 2 ^ 1074)).
  { unfold nodes_per_shell. by rewrite <- Hr. }
  split.
  - intros i Hi. unfold shell_count.
    destruct (num_nodes_nonneg _ K i Hnps' HK) as (k & -> & Hk); [lia|].
    f_equal. lia.
  - unfold Shells.make_shells. rewrite Hdiv.
    change (np_round <$> Ok r) with (Ok (np_round r)). rewrite bind_Ok.
    rewrite Hr. fold (nodes_per_shell (Z.of_nat (length nodes)) num_shells).
    unfold enumerate_from_1, list_repeat. rewrite length_replicate.
    destruct (Z.to_nat num_shells) as [|m] eqn:Em; [lia|].
    destruct (shells_loop num_shells _ K Hnps' HK Hn m 0 [] nodes) as (rest' & Hrun).
    { simpl. lia. }
    { done. }
    cbn [app] in Hrun. rewrite Hrun, bind_Ok. cbn [fst].
    unfold shell_counts. replace (Z.to_nat (num_shells - 1)) with m by lia. done.
Qed.

Lemma drop_after_take (c L : nat) nodes :
  drop (length (take c nodes) + L) nodes = drop L (drop c nodes).
Proof.
  rewrite drop_drop, length_take.
  destruct (Nat.le_gt_cases c (length nodes)).
  - f_equal. lia.
  - rewrite !drop_ge by lia. done.
Qed.

(** Shell [t] is a prefix of the nodes that the shells before it left. *)
Lemma split_shells_lookup (counts : list nat) :
  ∀ nodes (t c : nat), counts !! t = Some c →
    split_shells counts nodes !! t
    = Some (take c (drop (length (concat (take t (split_shells counts nodes)))) nodes)).
Proof.
  induction counts as [|c0 counts IH]; intros nodes t c Ht; [done|].
  destruct t as [|t]; simpl in *.
  - injection Ht as ->. done.
  - rewrite (IH _ _ _ Ht). rewrite length_app, drop_after_take. done.
Qed.

Lemma split_shells_last (counts : list nat) :
  ∀ nodes,
    split_shells counts nodes !! length counts
    = Some (drop (length (concat (take (length counts) (split_shells counts nodes))))
              nodes).
Proof.
  induction counts as [|c0 counts IH]; intros nodes; [done|].
  simpl. rewrite IH, length_app, drop_after_take. done.
Qed.

End ShellsFacts.

(** C1. For a number of shells of at least one, [make_shells] returns shells
    whose concatenation, in order, is the list of nodes: every node is in
    one shell, none is dropped or repeated, and the order is kept. (Sizes
    are below [2^53], where an [int] converts to a [float] exactly.) *)
Theorem make_shells_partition {A : Type} (num_shells : Z) (nodes : list A) :
  1 ≤ num_shells < 2 ^ 53 → Z.of_nat (length nodes) ≤ 2 ^ 53 →
  ∃ shells, Shells.make_shells num_shells nodes = Ok shells ∧ concat shells = nodes.
Proof.
  intros Hn Hlen. destruct (make_shells_split num_shells nodes Hn Hlen) as [_ Hrun].
  eexists. split; [exact Hrun|]. apply concat_split_shells.
Qed.

Lemma make_shells_partition_witness :
  ∃ shells, Shells.make_shells 3 [1; 2; 3; 4; 5; 6; 7; 8; 9; 10] = Ok shells ∧
            concat shells = [1; 2; 3; 4; 5; 6; 7; 8; 9; 10].
Proof.
  apply (make_shells_partition 3 [1; 2; 3; 4; 5; 6; 7; 8; 9; 10]).
  - vm_compute. split; [discriminate|reflexivity].
  - vm_compute. discriminate.
Defined.

(** C4. For a number of shells of at least one, and any list of nodes, also
    a shorter or an empty one, [make_shells] returns exactly [num_shells]
    shells. *)
Theorem make_shells_length {A : Type} (num_shells : Z) (nodes : list A) :
  1 ≤ num_shells < 2 ^ 53 → Z.of_nat (length nodes) ≤ 2 ^ 53 →
  ∃ shells, Shells.make_shells num_shells nodes = Ok shells ∧
            Z.of_nat (length shells) = num_shells.
Proof.
  intros Hn Hlen. destruct (make_shells_split num_shells nodes Hn Hlen) as [_ Hrun].
  eexists. split; [exact Hrun|].
  rewrite length_split_shells. unfold shell_counts.
  rewrite length_map, length_seq. lia.
Qed.

Lemma make_shells_length_witness :
  ∃ shells, Shells.make_shells 4 [1; 2] = Ok shells ∧ Z.of_nat (length shells) = 4.
Proof.
  apply (make_shells_length 4 [1; 2]).
  - vm_compute. split; [discriminate|reflexivity].
  - vm_compute. discriminate.
Defined.

(** C3. With [nodes_per_shell = round(total_nodes / num_shells)], every
    shell [i] before the last receives [int(from_inner + nodes_per_shell -
    to_outer)] nodes, a number that is not negative, or all the nodes that
    are left when these are fewer, taken from the front of the nodes not yet
    assigned; the last shell receives all the nodes that are left. *)
Theorem make_shells_counts {A : Type} (num_shells : Z) (nodes : list A) :
  1 ≤ num_shells < 2 ^ 53 → Z.of_nat (length nodes) ≤ 2 ^ 53 →
  let nps := nodes_per_shell (Z.of_nat (length nodes)) num_shells in
  ∃ shells,
    Shells.make_shells num_shells nodes = Ok shells ∧
    shells = split_shells (shell_counts (Z.of_nat (length nodes)) num_shells) nodes ∧
    (∀ i, 1 ≤ i < num_shells →
       ∃ k : nat,
         Shells.num_nodes nps i = Ok (Z.of_nat k) ∧
         shells !! Z.to_nat (i - 1)
         = Some (take k (drop (length (concat (take (Z.to_nat (i - 1)) shells))) nodes))) ∧
    shells !! Z.to_nat (num_shells - 1)
    = Some (drop (length (concat (take (Z.to_nat (num_shells - 1)) shells))) nodes).
Proof.
  intros Hn Hlen nps.
  destruct (make_shells_split num_shells nodes Hn Hlen) as [Hcount Hrun].
  fold nps in Hcount.
  eexists. split; [exact Hrun|]. split; [done|].
  assert (Hlc : length (shell_counts (Z.of_nat (length nodes)) num_shells)
                = Z.to_nat (num_shells - 1)).
  { unfold shell_counts. by rewrite length_map, length_seq. }
  split.
  - intros i Hi. exists (shell_count nps i). split; [by apply Hcount|].
    apply split_shells_lookup. unfold shell_counts. fold nps.
    rewrite list_lookup_fmap, lookup_seq_lt by lia. simpl.
    do 2 f_equal. lia.
  - rewrite <- Hlc. apply split_shells_last.
Qed.

Lemma make_shells_counts_witness :
  ∃ shells,
    Shells.make_shells 3 [1; 2; 3; 4; 5; 6; 7; 8; 9; 10] = Ok shells ∧
    shells = [[1]; [2; 3; 4]; [5; 6; 7; 8; 9; 10]] ∧
    Shells.num_nodes (nodes_per_shell 10 3) 1 = Ok 1 ∧
    Shells.num_nodes (nodes_per_shell 10 3) 2 = Ok 3.
Proof.
  destruct (make_shells_counts 3 [1; 2; 3; 4; 5; 6; 7; 8; 9; 10])
    as (shells & Hrun & Hsplit & _ & _).
  - vm_compute. split; [discriminate|reflexivity].
  - vm_compute. discriminate.
  - exists shells. split; [exact Hrun|]. split; [rewrite Hsplit; vm_compute; reflexivity|].
    split; vm_compute; reflexivity.
Defined.

(** ** The pathway subsets *)

Lemma elem_of_pathways_isin (cats : list string) (df : list row) (p : string) :
  p ∈ pathways_isin cats df ↔ listed_under cats df p.
Proof.
  unfold pathways_isin, listed_under.
  rewrite elem_of_list_to_set, list_elem_of_fmap. split.
  - intros (r & -> & Hr). apply list_elem_of_filter in Hr as [Hc Hr]. eauto.
  - intros (r & Hr & <- & Hc). exists r. split; [done|].
    apply list_elem_of_filter. done.
Qed.

Lemma listed_under_app (cats1 cats2 : list string) (df : list row) (p : string) :
  listed_under (cats1 ++ cats2) df p ↔ listed_under cats1 df p ∨ listed_under cats2 df p.
Proof.
  unfold listed_under. split.
  - intros (r & Hr & Hp & Hc). rewrite fmap_app, elem_of_app in Hc.
    destruct Hc; [left|right]; eauto.
  - intros [(r & Hr & Hp & Hc)|(r & Hr & Hp & Hc)]; exists r;
      rewrite fmap_app, elem_of_app; eauto.
Qed.

(** C10. The core subset holds the pathways listed under the core
    category, the degradation subset those listed under degradation and not
    under core, the biosynthesis subset those listed under biosynthesis and
    under neither of the other two. The three subsets are pairwise disjoint,
    and a pathway listed under one of the three root categories is in
    exactly one of them. *)
Theorem make_subsets_partition (df : list row) :
  ∀ core_pwys deg_pwys syn_pwys,
    make_subsets df = (core_pwys, deg_pwys, syn_pwys) →
    (∀ p, p ∈ core_pwys ↔ listed_under core df p) ∧
    (∀ p, p ∈ deg_pwys ↔ listed_under deg df p ∧ ¬ listed_under core df p) ∧
    (∀ p, p ∈ syn_pwys ↔
          listed_under syn df p ∧ ¬ listed_under core df p ∧ ¬ listed_under deg df p) ∧
    (∀ p, ¬ (p ∈ core_pwys ∧ p ∈ deg_pwys)) ∧
    (∀ p, ¬ (p ∈ core_pwys ∧ p ∈ syn_pwys)) ∧
    (∀ p, ¬ (p ∈ deg_pwys ∧ p ∈ syn_pwys)) ∧
    (∀ p, listed_under (core ++ syn ++ deg) df p →
          in_exactly_one p core_pwys deg_pwys syn_pwys).
Proof.
  intros c d s Heq. unfold make_subsets in Heq.
  injection Heq as <- <- <-.
  rewrite list_to_set_app_L, !list_to_set_elements_L.
  assert (HC : ∀ p, p ∈ elements (pathways_isin core df) ↔ listed_under core df p).
  { intros p. by rewrite elem_of_elements, elem_of_pathways_isin. }
  assert (HD : ∀ p, p ∈ elements (pathways_isin deg df ∖ pathways_isin core df)
                    ↔ listed_under deg df p ∧ ¬ listed_under core df p).
  { intros p. by rewrite elem_of_elements, elem_of_difference, !elem_of_pathways_isin. }
  assert (HS : ∀ p, p ∈ elements (pathways_isin syn df ∖
                        (pathways_isin core df ∪
                         (pathways_isin deg df ∖ pathways_isin core df)))
                    ↔ listed_under syn df p ∧ ¬ listed_under core df p ∧
                      ¬ listed_under deg df p).
  { intros p. rewrite elem_of_elements, elem_of_difference, elem_of_union,
      elem_of_difference, !elem_of_pathways_isin. tauto. }
  split; [exact HC|]. split; [exact HD|]. split; [exact HS|].
  split; [|split; [|split]].
  - intros p. rewrite HC, HD. tauto.
  - intros p. rewrite HC, HS. tauto.
  - intros p. rewrite HD, HS. tauto.
  - intros p Hp. apply listed_under_app in Hp as [Hp|Hp];
      [|apply listed_under_app in Hp as [Hp|Hp]];
      unfold in_exactly_one; rewrite !HC, !HD, !HS;
      destruct (decide (p ∈ pathways_isin core df)) as [Hc|Hc];
      destruct (decide (p ∈ pathways_isin deg df)) as [Hd|Hd];
      rewrite !elem_of_pathways_isin in Hc, Hd; tauto.
Qed.

Lemma make_subsets_partition_witness :
  make_subsets overlap_table = (["PWY-2"], ["PWY-1"], ["PWY-3"]) ∧
  ∀ p, listed_under (core ++ syn ++ deg) overlap_table p →
       in_exactly_one p ["PWY-2"] ["PWY-1"] ["PWY-3"].
Proof.
  assert (H : make_subsets overlap_table = (["PWY-2"], ["PWY-1"], ["PWY-3"]))
    by (vm_compute; reflexivity).
  split; [exact H|].
  apply (make_subsets_partition overlap_table ["PWY-2"] ["PWY-1"] ["PWY-3"] H).
Defined.
(** ** Node attributes: assign_node_weights *)

Lemma elem_of_nodes (g : DiGraph) (n : string) :
  n ∈ nodes g ↔ is_Some (node g !! n).
Proof.
  unfold nodes. rewrite list_elem_of_fmap. split.
  - intros ([n' a] & -> & H). apply elem_of_map_to_list in H. by exists a.
  - intros [a H]. exists (n, a). split; [done|]. by apply elem_of_map_to_list.
Qed.

Lemma NoDup_nodes (g : DiGraph) : NoDup (nodes g).
Proof. apply NoDup_fst_map_to_list. Qed.

Lemma weight_body_ok (d : gmap string Z) (g : DiGraph) (n : string)
    (attrs : gmap string attr) :
  node g !! n = Some attrs →
  weight_body d g n = Ok (mkDiGraph (<[n := with_weight d n attrs]> (node g)) (edges g)).
Proof.
  intros Hn. unfold weight_body, set_node_attr, getitem, with_weight.
  rewrite Hn. by destruct (d !! n).
Qed.

Lemma weights_loop (d : gmap string Z) (l : list string) :
  NoDup l →
  ∀ g, (∀ n, n ∈ l → is_Some (node g !! n)) →
  ∃ g', for_each (weight_body d) l g = Ok g' ∧ edges g' = edges g ∧
        ∀ n, node g' !! n =
             if decide (n ∈ l) then with_weight d n <$> node g !! n else node g !! n.
Proof.
  induction 1 as [|n l Hn Hl IH]; intros g Hg.
  - exists g. repeat split.
  - destruct (Hg n) as [attrs Hattrs]; [set_solver|].
    simpl. rewrite (weight_body_ok _ _ _ _ Hattrs). simpl.
    destruct (IH (mkDiGraph (<[n := with_weight d n attrs]> (node g)) (edges g)))
      as (g' & Hrun & He & Hnode).
    { intros n' Hn'. simpl. rewrite lookup_insert_ne by set_solver.
      apply Hg. set_solver. }
    exists g'. split; [done|]. split; [done|].
    intros n'. rewrite Hnode. simpl.
    destruct (decide (n' = n)) as [->|Hne].
    + rewrite decide_False by done. rewrite decide_True by set_solver.
      by rewrite lookup_insert_eq, Hattrs.
    + rewrite lookup_insert_ne by done.
      destruct (decide (n' ∈ l)).
      * by rewrite decide_True by set_solver.
      * by rewrite decide_False by set_solver.
Qed.

(** C8. [assign_node_weights] never raises; afterwards every node [n] of
    the graph has the weight [d[n]], or 0 when [n] is not a key of [d], its
    other attributes are what they were, and the graph has the same nodes
    and edges. *)
Theorem assign_node_weights_total (g : DiGraph) (d : gmap string Z) :
  ∃ g', assign_node_weights g d = Ok g' ∧
        dom (node g') = dom (node g) ∧
        edges g' = edges g ∧
        ∀ n attrs, node g !! n = Some attrs →
          ∃ attrs', node g' !! n = Some attrs' ∧
                    attrs' !! "weight" = Some (AInt (default 0 (d !! n))) ∧
                    ∀ k, k ≠ "weight" → attrs' !! k = attrs !! k.
Proof.
  destruct (weights_loop d (nodes g) (NoDup_nodes g) g) as (g' & Hrun & He & Hnode).
  { intros n. by rewrite elem_of_nodes. }
  exists g'. split; [done|]. split; [|split; [done|]].
  - apply set_eq. intros n. rewrite !elem_of_dom, Hnode.
    destruct (decide (n ∈ nodes g)); [|done].
    by rewrite fmap_is_Some.
  - intros n attrs Hn. rewrite Hnode, decide_True by (apply elem_of_nodes; eauto).
    rewrite Hn. simpl. eexists. split; [done|]. unfold with_weight. split.
    + by rewrite lookup_insert_eq.
    + intros k Hk. by rewrite lookup_insert_ne.
Qed.

(** ** Node attributes: shift_nodes *)

Lemma shift_body_ok (x y : float64) (g : DiGraph) (n : string)
    (attrs : gmap string attr) (xn yn : float64) :
  node g !! n = Some attrs →
  attrs !! "pos" = Some (APos xn yn) →
  shift_body x y g n =
    Ok (mkDiGraph (<[n := shift_attrs x y 1 attrs]> (node g)) (edges g)).
Proof.
  intros Hn Hp. unfold shift_body, set_node_attr, getitem, shift_attrs.
  rewrite Hn. simpl. rewrite Hp. simpl. done.
Qed.

Lemma shift_attrs_0 (x y : float64) (attrs : gmap string attr) :
  shift_attrs x y 0 attrs = attrs.
Proof.
  unfold shift_attrs. destruct (attrs !! "pos") eqn:E; [|done].
  simpl. by apply insert_id.
Qed.

Lemma shift_attrs_S (x y : float64) (k : nat) (attrs : gmap string attr) :
  shift_attrs x y k (shift_attrs x y 1 attrs) = shift_attrs x y (S k) attrs.
Proof.
  unfold shift_attrs. destruct (attrs !! "pos") as [v|] eqn:E.
  - rewrite lookup_insert_eq, insert_insert_eq. simpl.
    by rewrite <- Nat.iter_succ_r.
  - by rewrite E.
Qed.

Lemma occurrences_cons (n m : string) (ns : list string) :
  occurrences n (m :: ns) =
    if decide (m = n) then S (occurrences n ns) else occurrences n ns.
Proof.
  unfold occurrences. rewrite filter_cons. by destruct (decide (m = n)).
Qed.

Lemma occurrences_not_in (n : string) (ns : list string) :
  n ∉ ns → occurrences n ns = 0%nat.
Proof.
  induction ns as [|m ns IH]; [done|]. intros Hn.
  rewrite occurrences_cons, decide_False by set_solver. apply IH. set_solver.
Qed.

Lemma occurrences_NoDup (n : string) (ns : list string) :
  NoDup ns → n ∈ ns → occurrences n ns = 1%nat.
Proof.
  induction 1 as [|m ns Hm Hns IH]; [set_solver|]. intros Hn.
  rewrite occurrences_cons. destruct (decide (m = n)) as [->|Hne].
  - by rewrite occurrences_not_in.
  - apply IH. set_solver.
Qed.

Lemma shift_loop (x y : float64) (ns : list string) :
  ∀ g, (∀ n, n ∈ ns → has_pos g n) →
  ∃ g', for_each (shift_body x y) ns g = Ok g' ∧ edges g' = edges g ∧
        ∀ n, node g' !! n = shift_attrs x y (occurrences n ns) <$> node g !! n.
Proof.
  induction ns as [|m ns IH]; intros g Hg.
  - exists g. repeat split. intros n. simpl.
    destruct (node g !! n); simpl; [|done]. by rewrite shift_attrs_0.
  - destruct (Hg m) as (attrs & xn & yn & Hm & Hp); [set_solver|].
    simpl. rewrite (shift_body_ok _ _ _ _ _ _ _ Hm Hp). simpl.
    set (g1 := mkDiGraph (<[m := shift_attrs x y 1 attrs]> (node g)) (edges g)).
    destruct (IH g1) as (g' & Hrun & He & Hnode).
    { intros n Hn. destruct (decide (n = m)) as [->|Hne].
      - exists (shift_attrs x y 1 attrs), (SF64add xn x), (SF64add yn y).
        simpl. rewrite lookup_insert_eq. split; [done|].
        unfold shift_attrs. rewrite Hp. by rewrite lookup_insert_eq.
      - destruct (Hg n) as (a & xa & ya & Ha & Hpa); [set_solver|].
        exists a, xa, ya. simpl. by rewrite lookup_insert_ne. }
    exists g'. split; [done|]. split; [done|].
    intros n. rewrite Hnode, occurrences_cons. simpl.
    destruct (decide (m = n)) as [->|Hne].
    + rewrite lookup_insert_eq, Hm. simpl. by rewrite shift_attrs_S.
    + by rewrite lookup_insert_ne.
Qed.

(** C9, as the code has it. When every listed node carries a position,
    [shift_nodes] returns the graph with the same edges, with every node
    that is not listed unchanged, and with the position of a listed node
    moved by [(x, y)] once for each time the node is listed, its other
    attributes unchanged. For a list without repetition this is one move
    per listed node. *)
Theorem shift_nodes_frame (g : DiGraph) (ns : list string) (x y : float64) :
  (∀ n, n ∈ ns → has_pos g n) →
  ∃ g', shift_nodes g ns x y = Ok g' ∧
        edges g' = edges g ∧
        (∀ n, n ∉ ns → node g' !! n = node g !! n) ∧
        (∀ n attrs v, node g !! n = Some attrs → attrs !! "pos" = Some v →
           node g' !! n =
             Some (<["pos" := Nat.iter (occurrences n ns) (translate x y) v]> attrs)) ∧
        (NoDup ns → shifted_once g ns x y g').
Proof.
  intros Hg. destruct (shift_loop x y ns g Hg) as (g' & Hrun & He & Hnode).
  exists g'. split; [done|]. split; [done|].
  assert (Hout : ∀ n, n ∉ ns → node g' !! n = node g !! n).
  { intros n Hn. rewrite Hnode, occurrences_not_in by done.
    destruct (node g !! n); simpl; [|done]. by rewrite shift_attrs_0. }
  assert (Hin : ∀ n attrs v, node g !! n = Some attrs → attrs !! "pos" = Some v →
            node g' !! n =
              Some (<["pos" := Nat.iter (occurrences n ns) (translate x y) v]> attrs)).
  { intros n attrs v Hn Hp. rewrite Hnode, Hn. simpl.
    unfold shift_attrs. by rewrite Hp. }
  split; [done|]. split; [done|].
  intros Hnd. split; [done|]. split; [|done].
  intros n Hn. destruct (Hg n Hn) as (attrs & xn & yn & Ha & Hp).
  exists attrs, (APos xn yn). split; [done|]. split; [done|].
  rewrite (Hin n attrs _ Ha Hp), occurrences_NoDup by done. done.
Qed.

Lemma shift_nodes_frame_witness :
  (∀ n, n ∈ ["a"] → has_pos one_node n) ∧
  ∃ g', shift_nodes one_node ["a"] (float_of_int 1) (float_of_int 0) = Ok g' ∧
        edges g' = edges one_node ∧
        (∀ n, n ∉ ["a"] → node g' !! n = node one_node !! n) ∧
        (∀ n attrs v, node one_node !! n = Some attrs → attrs !! "pos" = Some v →
           node g' !! n =
             Some (<["pos" := Nat.iter (occurrences n ["a"])
                                (translate (float_of_int 1) (float_of_int 0)) v]> attrs)) ∧
        (NoDup ["a"] → shifted_once one_node ["a"] (float_of_int 1) (float_of_int 0) g').
Proof.
  assert (H : ∀ n, n ∈ ["a"] → has_pos one_node n).
  { intros n Hn. apply list_elem_of_singleton in Hn as ->.
    eexists _, _, _. split; reflexivity. }
  split; [exact H|].
  exact (shift_nodes_frame one_node ["a"] (float_of_int 1) (float_of_int 0) H).
Defined.

(** C9 as stated fails on a list that names a node twice: the node is moved
    twice. *)
Lemma shift_nodes_repeated_node :
  (∀ n, n ∈ ["a"; "a"] → has_pos one_node n) ∧
  ∃ g', shift_nodes one_node ["a"; "a"] (float_of_int 1) (float_of_int 0) = Ok g' ∧
        ¬ shifted_once one_node ["a"; "a"] (float_of_int 1) (float_of_int 0) g'.
Proof.
  split.
  { intros n Hn. assert (n = "a") as -> by set_solver.
    eexists _, _, _. split; reflexivity. }
  assert (H : match shift_nodes one_node ["a"; "a"] (float_of_int 1) (float_of_int 0) with
              | Ok g' => node g' !! "a" ≫= (.!! "pos")
                         = Some (APos (float_of_int 3) (float_of_int 2))
              | Raise _ => False
              end) by (vm_compute; reflexivity).
  destruct (shift_nodes one_node ["a"; "a"] _ _) as [g'|]; [|done].
  exists g'. split; [done|]. intros (_ & Hin & _).
  destruct (Hin "a") as (attrs & v & Ha & Hv & Hg'); [by left|].
  unfold one_node in Ha. simpl in Ha. rewrite lookup_singleton_eq in Ha.
  injection Ha as <-. rewrite lookup_singleton_eq in Hv. injection Hv as <-.
  rewrite Hg' in H. simpl in H. rewrite lookup_insert_eq in H.
  vm_compute in H. discriminate H.
Qed.

(** ** add_subset: the graph operations *)

Lemma dom_add_node (n : string) (nd : gmap string (gmap string attr)) :
  dom (add_node n nd) = {[ n ]} ∪ dom nd.
Proof.
  unfold add_node. destruct (nd !! n) eqn:E.
  - apply elem_of_dom_2 in E. set_solver.
  - by rewrite dom_insert_L.
Qed.

Lemma add_edge_extends (u v : string) (g : DiGraph) : extends g u v (add_edge u v g).
Proof.
  split; [done|]. simpl. rewrite !dom_add_node. set_solver.
Qed.

Lemma set_node_attr_ok (g : DiGraph) (n k : string) (a : attr) :
  n ∈ dom (node g) →
  ∃ g', set_node_attr g n k a = Ok g' ∧ edges g' = edges g ∧
        dom (node g') = dom (node g).
Proof.
  intros Hn. apply elem_of_dom in Hn as [d Hd].
  unfold set_node_attr, getitem. rewrite Hd. simpl. eexists. split; [done|].
  split; [done|]. simpl. rewrite dom_insert_L.
  apply elem_of_dom_2 in Hd. set_solver.
Qed.

(** One step down the hierarchy: the edge and the colour of both ends. *)
Lemma link_ok (col u v : string) (g : DiGraph) :
  ∃ g', (dg ← set_node_attr (add_edge u v g) v "col" (AStr col);
         set_node_attr dg u "col" (AStr col)) = Ok g' ∧
        extends g u v g'.
Proof.
  destruct (add_edge_extends u v g) as [He Hd].
  destruct (set_node_attr_ok (add_edge u v g) v "col" (AStr col))
    as (g1 & H1 & He1 & Hd1); [rewrite Hd; set_solver|].
  destruct (set_node_attr_ok g1 u "col" (AStr col))
    as (g2 & H2 & He2 & Hd2); [rewrite Hd1, Hd; set_solver|].
  exists g2. rewrite H1. simpl. split; [done|].
  split; congruence.
Qed.

Lemma category_body_ok (col : string) (r : gmap string (option string))
    (dg : DiGraph) (previous : string) (i : Z) (cell : option string) :
  getitem r ("Category" +:+ pretty i) = Ok cell →
  ∃ dg', category_body col r (dg, previous) i = Ok (dg', level_name cell previous i) ∧
         extends dg previous (level_name cell previous i) dg'.
Proof.
  intros Hc. unfold category_body. rewrite Hc. simpl.
  assert (Hs : split_first (if is_nan cell then Some previous else cell)
               = Ok (before_bar (default previous cell))) by by destruct cell.
  rewrite Hs. simpl.
  destruct (link_ok col previous (level_name cell previous i) dg) as (g' & Hl & Hext).
  exists g'. split; [|done].
  unfold level_name in *.
  destruct (set_node_attr _ _ "col" _) as [g1|]; simpl in *; [|done].
  by rewrite Hl.
Qed.

Lemma series_category (r : row) :
  getitem (series r) ("Category" +:+ pretty 2) = Ok (Category2 r) ∧
  getitem (series r) ("Category" +:+ pretty 3) = Ok (Category3 r) ∧
  getitem (series r) ("Category" +:+ pretty 4) = Ok (Category4 r) ∧
  getitem (series r) ("Category" +:+ pretty 5) = Ok (Category5 r) ∧
  getitem (series r) ("Category" +:+ pretty 6) = Ok (Category6 r) ∧
  getitem (series r) ("Category" +:+ pretty 7) = Ok (Category7 r) ∧
  getitem (series r) "Parent" = Ok (Parent r) ∧
  getitem (series r) "Name" = Ok (Name r).
Proof. repeat split; reflexivity. Qed.



(** ** add_subset: rows of the grouped table *)

Lemma first_valid_is_Some (col : row → option string) (rs : list row) (x : row)
    (v : string) :
  x ∈ rs → col x = Some v → is_Some (first_valid col rs).
Proof.
  intros Hx Hv. unfold first_valid. apply head_is_Some.
  intros Hnil. assert (Hin : v ∈ omap col rs) by (apply list_elem_of_omap; eauto).
  rewrite Hnil in Hin. by apply not_elem_of_nil in Hin.
Qed.

Lemma loc_first_Ok (df : list row) (p : string) (x : row) :
  x ∈ df → Pathway x = p →
  ∃ r, loc_first df p = Ok r ∧
       ∀ v, Parent x = Some v → is_Some (Parent r).
Proof.
  intros Hx Hp. unfold loc_first.
  assert (Hin : x ∈ filter (λ r, Pathway r = p) df) by by apply list_elem_of_filter.
  destruct (filter (λ r, Pathway r = p) df) as [|r0 rs] eqn:E.
  - by apply not_elem_of_nil in Hin.
  - eexists. split; [done|]. simpl. intros v Hv.
    by apply (first_valid_is_Some Parent _ x v).
Qed.


(** ** add_subset: paths, reachability and levels *)

Lemma path_edges_cons (u w : string) (path : list string) :
  path_edges (u :: w :: path) = {[ (u, w) ]} ∪ path_edges (w :: path).
Proof. done. Qed.

Lemma path_reach (g : DiGraph) (path : list string) :
  ∀ u, path_edges (u :: path) ⊆ edges g →
       ∀ v, v ∈ u :: path → rtc (edge g) u v.
Proof.
  induction path as [|w path IH]; intros u Hsub v Hv.
  - apply list_elem_of_singleton in Hv as ->. apply rtc_refl.
  - rewrite path_edges_cons in Hsub.
    apply elem_of_cons in Hv as [->|Hv]; [apply rtc_refl|].
    apply rtc_l with w.
    + unfold edge. clear -Hsub. set_solver.
    + apply IH; [|done]. clear -Hsub. set_solver.
Qed.






(** The level suffix is read back from a segment name. *)
Lemma after_bar_segment (s t : string) :
  after_bar (before_bar s +:+ "|" +:+ t) = Some t.
Proof.
  induction s as [|c s IH]; [done|]. simpl.
  destruct (Ascii.eqb c (Ascii.ascii_of_nat 124)) eqn:E; [done|].
  simpl. by rewrite E.
Qed.

Lemma after_bar_bar_free (s : string) : bar_free s → after_bar s = None.
Proof.
  unfold bar_free. induction s as [|c s IH]; [done|]. simpl.
  destruct (Ascii.eqb c (Ascii.ascii_of_nat 124)); [done|].
  intros H. injection H as H. by apply IH.
Qed.

Lemma level_segment (root : string) (cell : option string) (previous : string) (i : Z) :
  2 ≤ i ≤ 8 → level root (level_name cell previous i) = i.
Proof.
  intros Hi. unfold level, level_name. rewrite after_bar_segment.
  assert (i = 2 ∨ i = 3 ∨ i = 4 ∨ i = 5 ∨ i = 6 ∨ i = 7 ∨ i = 8) as Hcase by lia.
  destruct Hcase as [->|[->|[->|[->|[->|[->| ->]]]]]]; reflexivity.
Qed.

Lemma level_root (root : string) : bar_free root → level root root = 1.
Proof.
  intros H. unfold level. rewrite after_bar_bar_free by done.
  by rewrite decide_True.
Qed.

Lemma level_pathway (root p : string) : bar_free p → p ≠ root → level root p = 9.
Proof.
  intros H Hne. unfold level. rewrite after_bar_bar_free by done.
  by rewrite decide_False.
Qed.


(** ** add_subset: the graph it builds *)



Lemma path_edges_lookup (path : list string) (u v : string) :
  (u, v) ∈ path_edges path → ∃ k, path !! k = Some u ∧ path !! S k = Some v.
Proof.
  induction path as [|x [|y path] IH]; intros H.
  - by apply not_elem_of_empty in H.
  - by apply not_elem_of_empty in H.
  - rewrite path_edges_cons, elem_of_union, elem_of_singleton in H.
    destruct H as [H|H].
    + injection H as -> ->. by exists 0%nat.
    + destruct (IH H) as (k & Hk1 & Hk2). by exists (S k).
Qed.

Lemma walk_position_level (root p : string) (r : row) (k : nat) (v : string) :
  bar_free root → bar_free p → p ≠ root →
  walk root r p !! k = Some v → level root v = Z.of_nat k + 1.
Proof.
  intros Hroot Hp Hne H. unfold walk in H.
  pose proof (level_root root Hroot) as L1.
  pose proof (level_pathway root p Hp Hne) as L9.
  pose proof (λ c prev i, level_segment root c prev i) as Ls.
  do 9 (destruct k as [|k];
        [simpl in H; injection H as <-; rewrite ?L1, ?L9, ?Ls by lia; lia|]).
  done.
Qed.




Lemma tree_table_well_formed : well_formed_table "R" ["P1"; "P2"] tree_table.
Proof.
  intros p Hp. apply elem_of_cons in Hp as [->|Hp].
  - exists (sample_row "P1" "A" "X" "Q1"). repeat split; try done. by left.
  - apply list_elem_of_singleton in Hp as ->.
    exists (sample_row "P2" "B" "Y" "Q2"). repeat split; try done. right. by left.
Qed.






(** The graph has a cycle when a listed pathway carries the name of the root,
    which is why the absence of cycles is stated for names that keep the
    levels apart. *)
Lemma add_subset_pathway_named_root :
  well_formed_table "R" ["R"] root_named_table ∧
  ∃ dg, add_subset "R" ["R"] root_named_table "b" = Ok dg ∧ ¬ acyclic dg.
Proof.
  split.
  { intros p Hp. apply list_elem_of_singleton in Hp as ->.
    eexists. split; [by left|]. done. }
  pose (cycle := ["R|2"; "R|3"; "R|4"; "R|5"; "R|6"; "R|7"; "Q|8"; "R"]).
  assert (H : match add_subset "R" ["R"] root_named_table "b" with
              | Ok dg => bool_decide (path_edges ("R" :: cycle) ⊆ edges dg)
              | Raise _ => false
              end = true) by (vm_compute; reflexivity).
  destruct (add_subset "R" ["R"] root_named_table "b") as [dg|]; [|done].
  apply bool_decide_eq_true in H.
  exists dg. split; [done|]. intros Hacyc. apply (Hacyc "R").
  apply tc_rtc_l with "Q|8".
  - apply (path_reach dg cycle "R" H). unfold cycle. set_solver.
  - apply tc_once. unfold edge. apply H. unfold cycle, path_edges. simpl. set_solver.
Qed.

(** ** The walk over the category columns and the Parent column *)

Lemma category_loop_total (col : string) (r : row) (l : list Z) :
  (∀ i, i ∈ l → ∃ cell, getitem (series r) ("Category" +:+ pretty i) = Ok cell) →
  ∀ st, ∃ st', for_each (category_body col (series r)) l st = Ok st'.
Proof.
  induction l as [|i l IH]; intros Hl st; [by exists st|].
  destruct (Hl i) as [cell Hcell]; [by left|]. destruct st as [dg previous].
  destruct (category_body_ok col _ dg previous i cell Hcell) as (dg' & Hb & _).
  rewrite for_each_cons, Hb, bind_Ok. apply IH. intros j Hj. apply Hl. by right.
Qed.

(** At a category level the name of the previous level stands in for a
    missing value. *)
Lemma category_body_missing (col : string) (r : gmap string (option string))
    (dg : DiGraph) (previous : string) (i : Z) :
  getitem r ("Category" +:+ pretty i) = Ok None →
  ∃ dg', category_body col r (dg, previous) i
           = Ok (dg', before_bar previous +:+ "|" +:+ pretty i) ∧
         extends dg previous (before_bar previous +:+ "|" +:+ pretty i) dg'.
Proof. intros H. exact (category_body_ok col r dg previous i None H). Qed.

(** At the Parent column nothing stands in for a missing value: the walk
    raises. *)
Lemma path_body_missing_parent (root col : string) (df : list row) (dg : DiGraph)
    (p : string) (r : row) :
  loc_first df p = Ok r →
  Parent r = None →
  path_body root col df dg p = Raise AttributeError.
Proof.
  intros Hloc Hpar.
  destruct (series_category r) as (H2 & H3 & H4 & H5 & H6 & H7 & HP & HN).
  unfold path_body. rewrite Hloc.
  change (series <$> Ok r) with (Ok (series r)). rewrite bind_Ok.
  destruct (category_loop_total col r [2; 3; 4; 5; 6; 7]) with (st := (dg, root))
    as [[g7 n7] Hloop].
  { intros i Hi. repeat (apply elem_of_cons in Hi as [->|Hi]; [eauto|]).
    by apply not_elem_of_nil in Hi. }
  rewrite Hloop, bind_Ok, HP, bind_Ok, Hpar. simpl is_nan. cbv iota.
  rewrite bind_Ok. reflexivity.
Qed.

(** C6 fails on the code at the Parent column: for a pathway whose Parent is
    missing the walk does not reuse the previous node name, it raises
    [AttributeError]. *)
Theorem add_subset_missing_parent :
  add_subset "R" ["P1"] orphan_table "b" = Raise AttributeError.
Proof. vm_compute. reflexivity. Qed.

(** ** Exceptions *)

Lemma loc_first_KeyError (df : list row) (p : string) :
  (∀ r, r ∈ df → Pathway r ≠ p) → loc_first df p = Raise (KeyError p).
Proof.
  intros H. unfold loc_first.
  destruct (filter (λ r, Pathway r = p) df) as [|r rs] eqn:E; [done|].
  assert (Hr : r ∈ filter (λ r, Pathway r = p) df) by (rewrite E; by left).
  apply list_elem_of_filter in Hr as [Hp Hr]. by destruct (H r Hr).
Qed.

Lemma path_body_KeyError (root col : string) (pwys : list string) (df : list row)
    (dg : DiGraph) (p : string) :
  (∀ r, r ∈ df → Category1 r = Some root → Pathway r ≠ p) →
  path_body root col (select_rows root pwys df) dg p = Raise (KeyError p).
Proof.
  intros H. unfold path_body. rewrite loc_first_KeyError; [done|].
  intros r Hr. apply list_elem_of_filter in Hr as [[Hc _] Hr]. by apply H.
Qed.

Lemma for_each_not_Ok {A S : Type} (body : S → A → result S) (xs : list A) (x : A) :
  x ∈ xs →
  (∀ st, ∃ e, body st x = Raise e) →
  ∀ st, ∃ e, for_each body xs st = Raise e.
Proof.
  intros Hx Hbody. induction xs as [|y xs IH]; intros st.
  - by apply not_elem_of_nil in Hx.
  - rewrite for_each_cons. apply elem_of_cons in Hx as [<-|Hx].
    + destruct (Hbody st) as [e ->]. by exists e.
    + destruct (body st y) as [st'|e]; [|by exists e].
      rewrite bind_Ok. by apply IH.
Qed.

(** C7. Neither function handles a failure. In [make_shells] the exception
    of the division (a [ZeroDivisionError] for no shell at all) or of the
    loop body is the outcome of the call. In [add_subset] the exception
    raised for the first pathway that fails is the outcome of the call; a
    listed pathway without a row under [root] raises [KeyError], and with
    such a pathway in the list no graph is returned. *)
Theorem exceptions_propagate :
  (∀ (A : Type) (nodes : list A),
     Shells.make_shells 0 nodes = Raise ZeroDivisionError) ∧
  (∀ (A : Type) (num_shells : Z) (nodes : list A) (e : exn),
     true_div (Z.of_nat (length nodes)) num_shells = Raise e →
     Shells.make_shells num_shells nodes = Raise e) ∧
  (∀ (A : Type) (num_shells : Z) (nodes : list A) (r : float64) (e : exn),
     true_div (Z.of_nat (length nodes)) num_shells = Ok r →
     for_each (Shells.shell_body num_shells (np_round r))
       (enumerate_from_1 (list_repeat (A := list A) [] num_shells))
       (list_repeat [] num_shells, nodes) = Raise e →
     Shells.make_shells num_shells nodes = Raise e) ∧
  (∀ (root col : string) (pwys1 pwys2 : list string) (p : string) (df : list row)
     (dg : DiGraph) (e : exn),
     let rows := select_rows root (pwys1 ++ p :: pwys2) df in
     for_each (path_body root col rows) pwys1 empty_graph = Ok dg →
     path_body root col rows dg p = Raise e →
     add_subset root (pwys1 ++ p :: pwys2) df col = Raise e) ∧
  (∀ (root col : string) (pwys1 pwys2 : list string) (p : string) (df : list row)
     (dg : DiGraph),
     let rows := select_rows root (pwys1 ++ p :: pwys2) df in
     for_each (path_body root col rows) pwys1 empty_graph = Ok dg →
     (∀ r, r ∈ df → Category1 r = Some root → Pathway r ≠ p) →
     add_subset root (pwys1 ++ p :: pwys2) df col = Raise (KeyError p)) ∧
  (∀ (root col : string) (pwys : list string) (p : string) (df : list row),
     p ∈ pwys →
     (∀ r, r ∈ df → Category1 r = Some root → Pathway r ≠ p) →
     ∃ e, add_subset root pwys df col = Raise e).
Proof.
  split; [|split; [|split; [|split; [|split]]]].
  - intros A nodes. reflexivity.
  - intros A num_shells nodes e H. unfold Shells.make_shells. by rewrite H.
  - intros A num_shells nodes r e Hdiv Hloop. unfold Shells.make_shells.
    rewrite Hdiv. change (np_round <$> Ok r) with (Ok (np_round r)).
    rewrite bind_Ok, Hloop. reflexivity.
  - intros root col pwys1 pwys2 p df dg e rows Hrun Hbody.
    unfold add_subset. by apply for_each_raise with dg.
  - intros root col pwys1 pwys2 p df dg rows Hrun Hrow.
    unfold add_subset. apply for_each_raise with dg; [done|].
    by apply path_body_KeyError.
  - intros root col pwys p df Hp Hrow. unfold add_subset.
    apply for_each_not_Ok with p; [done|].
    intros st. exists (KeyError p). by apply path_body_KeyError.
Qed.

Lemma exceptions_propagate_witness :
  Shells.make_shells 0 [1; 2; 3] = Raise ZeroDivisionError ∧
  add_subset "R" ["P1"; "P9"; "P2"] shared_table "b" = Raise (KeyError "P9").
Proof.
  destruct exceptions_propagate as (Hzero & _ & _ & _ & Hkey & _).
  split; [exact (Hzero Z [1; 2; 3])|].
  assert (Hrun : match for_each
                         (path_body "R" "b"
                            (select_rows "R" (["P1"] ++ "P9" :: ["P2"]) shared_table))
                         ["P1"] empty_graph with
                 | Ok _ => True
                 | Raise _ => False
                 end) by (vm_compute; exact I).
  destruct (for_each _ ["P1"] empty_graph) as [dg|] eqn:E; [|destruct Hrun].
  apply (Hkey "R" "b" ["P1"] ["P2"] "P9" shared_table dg E).
  intros r Hr _. unfold shared_table in Hr.
  apply elem_of_cons in Hr as [->|Hr]; [discriminate|].
  apply list_elem_of_singleton in Hr as ->. discriminate.
Defined.

(** ** Determinism *)



(** ** make_shells: the edges of its domain *)

Lemma split_shells_nil {A : Type} (counts : list nat) :
  split_shells counts ([] : list A) = replicate (S (length counts)) [].
Proof.
  induction counts as [|c counts IH]; simpl; [done|].
  by rewrite take_nil, drop_nil, IH.
Qed.

(** X1. A negative number of shells is not an error: [make_shells] returns
    the empty list of shells, and with it none of the nodes. *)
Theorem make_shells_negative {A : Type} (num_shells : Z) (nodes : list A) :
  num_shells < 0 → Shells.make_shells num_shells nodes = Ok [].
Proof.
  intros Hneg. unfold Shells.make_shells, true_div, list_repeat, enumerate_from_1.
  destruct (Z.eqb_spec num_shells 0) as [->|_]; [lia|].
  replace (Z.to_nat num_shells) with 0%nat by lia. reflexivity.
Qed.

Lemma make_shells_negative_witness :
  Shells.make_shells (-2) [1; 2; 3] = Ok [].
Proof. apply (make_shells_negative (-2) [1; 2; 3]). reflexivity. Defined.

(** X2. With one shell, the shell holds all the nodes, in their order. *)
Theorem make_shells_one_shell {A : Type} (nodes : list A) :
  Z.of_nat (length nodes) ≤ 2 ^ 53 → Shells.make_shells 1 nodes = Ok [nodes].
Proof.
  intros Hlen. destruct (make_shells_split 1 nodes) as [_ Hrun]; [lia|done|].
  by rewrite Hrun.
Qed.

Lemma make_shells_one_shell_witness :
  Shells.make_shells 1 [1; 2; 3] = Ok [[1; 2; 3]].
Proof. apply (make_shells_one_shell [1; 2; 3]). vm_compute. discriminate. Defined.

(** X3. Without nodes, [make_shells] returns [num_shells] empty shells. *)
Theorem make_shells_no_nodes {A : Type} (num_shells : Z) :
  1 ≤ num_shells < 2 ^ 53 →
  Shells.make_shells num_shells ([] : list A) = Ok (replicate (Z.to_nat num_shells) []).
Proof.
  intros Hn. destruct (make_shells_split num_shells ([] : list A)) as [_ Hrun];
    [done|simpl; lia|].
  rewrite Hrun, split_shells_nil. do 2 f_equal.
  unfold shell_counts. rewrite length_map, length_seq. lia.
Qed.

Lemma make_shells_no_nodes_witness :
  Shells.make_shells 3 ([] : list Z) = Ok [[]; []; []].
Proof.
  apply (make_shells_no_nodes (A := Z) 3). vm_compute. split; [discriminate|reflexivity].
Defined.

(** ** make_shells: the arithmetic of the node counts is exact *)

Lemma repr_int_zero (x : float64) (a : Z) :
  repr x (a * 2 ^ 1074) → 0 ≤ a.
Proof.
  intros H. apply repr_nonneg in H.
  pose proof (pow2_pos 1074 ltac:(lia)). nia.
Qed.

(** A sum of two integers that does not exceed [2^53] is computed without
    rounding. *)
Lemma add_exact (x y : float64) (a b : Z) :
  repr x (a * 2 ^ 1074) → repr y (b * 2 ^ 1074) → a + b ≤ 2 ^ 53 →
  repr (SF64add x y) ((a + b) * 2 ^ 1074).
Proof.
  intros Hx Hy Hle.
  pose proof (repr_int_zero x a Hx) as Ha. pose proof (repr_int_zero y b Hy) as Hb.
  pose proof (pow2_pos 1074 ltac:(lia)) as HP.
  destruct x as [sx|sx| |[] mx ex]; try done;
    destruct y as [sy|sy| |[] my ey]; try done.
  - simpl in Hx, Hy. assert (a = 0) as -> by nia. assert (b = 0) as -> by nia.
    by destruct sx, sy.
  - simpl in Hx. assert (a = 0) as -> by nia. exact Hy.
  - simpl in Hy. assert (b = 0) as -> by nia. by rewrite Z.add_0_r.
  - destruct Hx as [HBx Hvx], Hy as [HBy Hvy].
    pose proof (bounded_emin _ _ HBx). pose proof (bounded_emin _ _ HBy).
    pose proof (pow2_pos (ex + 1074) ltac:(lia)) as Hpx'.
    pose proof (pow2_pos (ey + 1074) ltac:(lia)) as Hpy'.
    assert (1 ≤ a) by nia. assert (1 ≤ b) by nia.
    destruct (float_of_int_finite (a + b)) as (M & E & _ & HB & HME); [lia|].
    unfold SF64add, SFadd. cbn [cond_Zopp].
    set (ez := Z.min ex ey).
    rewrite !shl_align_fst by (unfold ez; lia).
    pose proof (pow2_pos (ex - ez) ltac:(unfold ez; lia)) as Hpx.
    pose proof (pow2_pos (ey - ez) ltac:(unfold ez; lia)) as Hpy.
    pose proof (pow2_pos (ez - -1074) ltac:(unfold ez; lia)) as Hpz.
    destruct (Zpos mx * 2 ^ (ex - ez) + Zpos my * 2 ^ (ey - ez)) as [|p|p] eqn:Ep;
      [nia| |nia].
    unfold binary_normalize.
    assert (Hvx' : Zpos mx * 2 ^ (ex + 1074) = Zpos mx * 2 ^ (ex - ez) * 2 ^ (ez - -1074)).
    { rewrite <- Z.mul_assoc, <- pow2_add by (unfold ez; lia). f_equal. f_equal. lia. }
    assert (Hvy' : Zpos my * 2 ^ (ey + 1074) = Zpos my * 2 ^ (ey - ez) * 2 ^ (ez - -1074)).
    { rewrite <- Z.mul_assoc, <- pow2_add by (unfold ez; lia). f_equal. f_equal. lia. }
    assert (Hsum : Zpos p * 2 ^ (ez - -1074) = Zpos M * 2 ^ (E - -1074)).
    { replace (E - -1074) with (E + 1074) by lia.
      rewrite <- HME, <- Ep, Z.mul_add_distr_r, <- Hvx', <- Hvy'. lia. }
    pose proof (binary_round_upper false p ez M E (-1074)
                  HB ltac:(unfold ez; lia) ltac:(lia) ltac:(lia)) as HU.
    pose proof (binary_round_lower false p ez M E (-1074)
                  HB ltac:(unfold ez; lia) ltac:(lia) ltac:(lia)) as HL.
    destruct (binary_round prec emax false p ez) as [s|s| |s m e]; try done.
    destruct HU as (-> & HBm & _ & HUv). destruct HL as (_ & _ & HLv).
    split; [done|]. rewrite HME.
    replace (E - -1074) with (E + 1074) in * by lia.
    replace (e - -1074) with (e + 1074) in * by lia. lia.
Qed.

(** A difference of two integers up to [2^53] that is not negative is
    computed without rounding. *)
Lemma sub_exact (x y : float64) (a b : Z) :
  repr x (a * 2 ^ 1074) → repr y (b * 2 ^ 1074) → b ≤ a → a ≤ 2 ^ 53 →
  repr (SF64sub x y) ((a - b) * 2 ^ 1074).
Proof.
  intros Hx Hy Hle Hbound.
  pose proof (repr_int_zero x a Hx) as Ha. pose proof (repr_int_zero y b Hy) as Hb.
  pose proof (pow2_pos 1074 ltac:(lia)) as HP.
  destruct x as [sx|sx| |[] mx ex]; try done;
    destruct y as [sy|sy| |[] my ey]; try done.
  - simpl in Hx, Hy. assert (a = 0) as -> by nia. assert (b = 0) as -> by nia.
    by destruct sx, sy.
  - simpl in Hx. destruct Hy as [HBy Hvy].
    pose proof (bounded_emin _ _ HBy).
    pose proof (pow2_pos (ey + 1074) ltac:(lia)). nia.
  - simpl in Hy. assert (b = 0) as -> by nia. by rewrite Z.sub_0_r.
  - destruct Hx as [HBx Hvx], Hy as [HBy Hvy].
    pose proof (bounded_emin _ _ HBx). pose proof (bounded_emin _ _ HBy).
    unfold SF64sub, SFsub. cbn [cond_Zopp].
    set (ez := Z.min ex ey).
    rewrite !shl_align_fst by (unfold ez; lia).
    pose proof (pow2_pos (ex - ez) ltac:(unfold ez; lia)) as Hpx.
    pose proof (pow2_pos (ey - ez) ltac:(unfold ez; lia)) as Hpy.
    pose proof (pow2_pos (ez - -1074) ltac:(unfold ez; lia)) as Hpz.
    assert (Hvx' : Zpos mx * 2 ^ (ex + 1074) = Zpos mx * 2 ^ (ex - ez) * 2 ^ (ez - -1074)).
    { rewrite <- Z.mul_assoc, <- pow2_add by (unfold ez; lia). f_equal. f_equal. lia. }
    assert (Hvy' : Zpos my * 2 ^ (ey + 1074) = Zpos my * 2 ^ (ey - ez) * 2 ^ (ez - -1074)).
    { rewrite <- Z.mul_assoc, <- pow2_add by (unfold ez; lia). f_equal. f_equal. lia. }
    assert (Hdiff : (Zpos mx * 2 ^ (ex - ez) - Zpos my * 2 ^ (ey - ez)) * 2 ^ (ez - -1074)
                    = (a - b) * 2 ^ 1074).
    { rewrite Z.mul_sub_distr_r, <- Hvx', <- Hvy'. lia. }
    destruct (Zpos mx * 2 ^ (ex - ez) - Zpos my * 2 ^ (ey - ez)) as [|p|p] eqn:Ep.
    + assert (a - b = 0) as -> by nia. done.
    + assert (1 ≤ a - b) by nia.
      destruct (float_of_int_finite (a - b)) as (M & E & _ & HB & HME); [lia|].
      unfold binary_normalize.
      assert (Hsum : Zpos p * 2 ^ (ez - -1074) = Zpos M * 2 ^ (E - -1074)).
      { replace (E - -1074) with (E + 1074) by lia. rewrite <- HME. exact Hdiff. }
      pose proof (binary_round_upper false p ez M E (-1074)
                    HB ltac:(unfold ez; lia) ltac:(lia) ltac:(lia)) as HU.
      pose proof (binary_round_lower false p ez M E (-1074)
                    HB ltac:(unfold ez; lia) ltac:(lia) ltac:(lia)) as HL.
      destruct (binary_round prec emax false p ez) as [s|s| |s m e]; try done.
      destruct HU as (-> & HBm & _ & HUv). destruct HL as (_ & _ & HLv).
      split; [done|]. rewrite HME.
      replace (E - -1074) with (E + 1074) in * by lia.
      replace (e - -1074) with (e + 1074) in * by lia. lia.
    + exfalso. nia.
Qed.

(** [int] of a binary64 that holds an integer is that integer. *)
Lemma int_of_float_exact (x : float64) (k : Z) :
  repr x (k * 2 ^ 1074) → int_of_float x = Ok k.
Proof.
  pose proof (pow2_pos 1074 ltac:(lia)) as HP.
  destruct x as [s|s| |[] m e]; try done.
  - simpl. intros H. f_equal. nia.
  - intros [HB Hv]. pose proof (bounded_emin _ _ HB) as He.
    simpl. f_equal. destruct (Z.le_gt_cases 0 e) as [Hpos|Hneg].
    + rewrite Z.shiftl_mul_pow2 by done.
      rewrite pow2_add in Hv by lia. nia.
    + rewrite Z.shiftl_div_pow2 by lia.
      assert (Hm : Zpos m = k * 2 ^ (- e)).
      { pose proof (pow2_pos (e + 1074) ltac:(lia)) as Hp1.
        assert (Hsplit : 2 ^ 1074 = 2 ^ (- e) * 2 ^ (e + 1074)).
        { rewrite <- pow2_add by lia. f_equal. lia. }
        rewrite Hsplit in Hv. nia. }
      rewrite Hm. apply Z.div_mul. pose proof (pow2_pos (- e) ltac:(lia)). lia.
Qed.

Lemma to_outer_repr (nps : float64) (K a : Z) :
  repr nps (K * 2 ^ 1074) → 0 ≤ K ≤ 2 ^ 53 → 0 ≤ a → a + 1 ≤ 2 ^ 53 →
  0 ≤ to_outer nps a ≤ K ∧
  repr (np_round (SF64mul nps (SF64div (float_of_int a) (float_of_int (a + 1)))))
    (to_outer nps a * 2 ^ 1074).
Proof.
  intros Hnps HK Ha Hb.
  destruct (share_repr nps K a Hnps HK Ha Hb) as (k & Hk & Hrepr).
  unfold to_outer. by rewrite (int_of_float_exact _ k Hrepr).
Qed.

Lemma num_nodes_exact_repr (nps : float64) (K i : Z) :
  repr nps (K * 2 ^ 1074) → 0 ≤ K ≤ 2 ^ 52 → 1 ≤ i < 2 ^ 53 →
  Shells.num_nodes nps i
  = Ok ((if i =? 1 then 0 else to_outer nps (i - 1)) + K - to_outer nps i).
Proof.
  intros Hnps HK Hi. unfold Shells.num_nodes.
  assert (HK' : 0 ≤ K ≤ 2 ^ 53) by lia.
  destruct (to_outer_repr nps K i Hnps HK') as [Hout Hto]; [lia..|].
  set (k_in := if i =? 1 then 0 else to_outer nps (i - 1)).
  assert (Hfi : 0 ≤ k_in ≤ K ∧
            repr (if i =? 1 then float_of_int 0
                  else np_round (SF64mul nps
                         (SF64div (float_of_int (i - 1)) (float_of_int i))))
              (k_in * 2 ^ 1074)).
  { unfold k_in. destruct (Z.eqb_spec i 1) as [->|Hne].
    - split; [lia|]. apply (float_of_int_repr 0). lia.
    - destruct (to_outer_repr nps K (i - 1) Hnps HK') as [Hin Hfrom]; [lia..|].
      replace (i - 1 + 1) with i in Hfrom by lia. done. }
  destruct Hfi as [Hin Hfi].
  pose proof (add_exact _ nps k_in K Hfi Hnps ltac:(lia)) as Hadd.
  pose proof (sub_exact _ _ (k_in + K) (to_outer nps i) Hadd Hto ltac:(lia) ltac:(lia))
    as Hsub.
  exact (int_of_float_exact _ _ Hsub).
Qed.

Lemma nodes_per_shell_small (total num_shells : Z) :
  0 ≤ total ≤ 2 ^ 52 → 1 ≤ num_shells ≤ 2 ^ 53 →
  ∃ K, 0 ≤ K ≤ 2 ^ 52 ∧ repr (nodes_per_shell total num_shells) (K * 2 ^ 1074).
Proof.
  intros Ht Hn.
  destruct (div_int_repr total num_shells 52) as (v & Hv & Hle); [lia..|].
  destruct (np_round_repr _ v (2 ^ 52) Hv) as (K & HK & Hrepr); [lia|done|].
  exists K. done.
Qed.

(** X4. The node count of a shell is computed without rounding error.
    For up to [2^52] nodes the three rounded terms are integers that
    binary64 adds and subtracts exactly: [num_nodes] is the [to_outer] of
    the shell before (0 for the first shell) plus [nodes_per_shell] minus
    the [to_outer] of the shell, as integers; and a shell passes outwards
    at most [nodes_per_shell] nodes. *)
Theorem num_nodes_exact (total num_shells i : Z) :
  0 ≤ total ≤ 2 ^ 52 → 1 ≤ num_shells < 2 ^ 53 → 1 ≤ i < 2 ^ 53 →
  let nps := nodes_per_shell total num_shells in
  ∃ K, int_of_float nps = Ok K ∧
       0 ≤ to_outer nps i ≤ K ∧
       Shells.num_nodes nps i
       = Ok ((if i =? 1 then 0 else to_outer nps (i - 1)) + K - to_outer nps i).
Proof.
  intros Ht Hn Hi nps.
  destruct (nodes_per_shell_small total num_shells Ht) as (K & HK & Hrepr); [lia|].
  fold nps in Hrepr. exists K. split; [by apply int_of_float_exact|]. split.
  - by destruct (to_outer_repr nps K i Hrepr) as [Hout _]; [lia..|].
  - by apply num_nodes_exact_repr.
Qed.

Lemma num_nodes_exact_witness :
  Shells.num_nodes (nodes_per_shell 10 3) 2 = Ok 3 ∧
  to_outer (nodes_per_shell 10 3) 1 = 2 ∧ to_outer (nodes_per_shell 10 3) 2 = 2.
Proof.
  destruct (num_nodes_exact 10 3 2) as (K & HK & _ & Hrun).
  - vm_compute. split; discriminate.
  - vm_compute. split; [discriminate|reflexivity].
  - vm_compute. split; [discriminate|reflexivity].
  - split; [|split; vm_compute; reflexivity].
    rewrite Hrun. vm_compute in HK. injection HK as <-. vm_compute. reflexivity.
Defined.

(** *** The number of nodes in the first shells *)

Lemma length_concat_take_split {A : Type} (counts : list nat) :
  ∀ (nodes : list A) (m : nat), (m ≤ length counts)%nat →
    length (concat (take m (split_shells counts nodes)))
    = (length nodes `min` sum_list (take m counts))%nat.
Proof.
  induction counts as [|c counts IH]; intros nodes m Hm.
  - simpl in Hm. replace m with 0%nat by lia. simpl. lia.
  - destruct m as [|m]; [simpl; lia|].
    simpl in Hm. cbn [split_shells take concat sum_list_with].
    rewrite length_app, IH by lia.
    rewrite length_take, length_drop. unfold id. lia.
Qed.

Lemma shell_counts_lookup (total num_shells : Z) (k : nat) :
  (k < Z.to_nat (num_shells - 1))%nat →
  shell_counts total num_shells !! k
  = Some (shell_count (nodes_per_shell total num_shells) (Z.of_nat (S k))).
Proof.
  intros Hk. unfold shell_counts.
  by rewrite list_lookup_fmap, lookup_seq_lt by done.
Qed.

Lemma sum_shell_counts (total num_shells K : Z) :
  0 ≤ K ≤ 2 ^ 52 → 1 ≤ num_shells < 2 ^ 53 →
  repr (nodes_per_shell total num_shells) (K * 2 ^ 1074) →
  ∀ m : nat, (1 ≤ m)%nat → (m ≤ Z.to_nat (num_shells - 1))%nat →
    Z.of_nat (sum_list (take m (shell_counts total num_shells)))
    = Z.of_nat m * K - to_outer (nodes_per_shell total num_shells) (Z.of_nat m).
Proof.
  intros HK Hn Hrepr. set (nps := nodes_per_shell total num_shells) in *.
  assert (Hcount : ∀ k : nat, (k < Z.to_nat (num_shells - 1))%nat →
            Z.of_nat (shell_count nps (Z.of_nat (S k)))
            = (if Z.of_nat (S k) =? 1 then 0 else to_outer nps (Z.of_nat (S k) - 1))
              + K - to_outer nps (Z.of_nat (S k))).
  { intros k Hk. unfold shell_count.
    rewrite (num_nodes_exact_repr nps K (Z.of_nat (S k)) Hrepr HK) by lia.
    destruct (to_outer_repr nps K (Z.of_nat (S k)) Hrepr) as [Hout _]; [lia..|].
    assert (0 ≤ if Z.of_nat (S k) =? 1 then 0 else to_outer nps (Z.of_nat (S k) - 1)).
    { destruct (Z.of_nat (S k) =? 1); [lia|].
      destruct (to_outer_repr nps K (Z.of_nat (S k) - 1) Hrepr) as [Hin _]; lia. }
    lia. }
  induction m as [|m IH]; intros H1 Hm; [lia|].
  rewrite (take_S_r _ m _ (shell_counts_lookup total num_shells m ltac:(lia))).
  rewrite sum_list_with_app. fold nps. cbn [sum_list_with]. unfold id at 2.
  rewrite Nat.add_0_r, Nat2Z.inj_add, Hcount by lia.
  destruct m as [|m'].
  - rewrite take_0. cbn [sum_list_with]. change (Z.of_nat 1 =? 1) with true.
    cbv iota. lia.
  - rewrite IH by lia.
    destruct (Z.eqb_spec (Z.of_nat (S (S m'))) 1) as [Heq|_]; [lia|].
    replace (Z.of_nat (S (S m')) - 1) with (Z.of_nat (S m')) by lia. lia.
Qed.

(** X5. The node counts of the shells telescope. For up to [2^52]
    nodes, the first [m] shells that [make_shells] returns hold together
    [m] times [nodes_per_shell] minus the [to_outer] of shell [m] nodes, or
    all the nodes when there are fewer. *)
Theorem make_shells_first_shells {A : Type} (num_shells : Z) (nodes : list A) :
  1 ≤ num_shells < 2 ^ 53 → Z.of_nat (length nodes) ≤ 2 ^ 52 →
  let nps := nodes_per_shell (Z.of_nat (length nodes)) num_shells in
  ∃ shells K,
    Shells.make_shells num_shells nodes = Ok shells ∧
    int_of_float nps = Ok K ∧
    ∀ m, 1 ≤ m < num_shells →
      Z.of_nat (length (concat (take (Z.to_nat m) shells)))
      = Z.min (Z.of_nat (length nodes)) (m * K - to_outer nps m).
Proof.
  intros Hn Hlen nps.
  destruct (make_shells_split num_shells nodes Hn) as [_ Hrun]; [lia|].
  destruct (nodes_per_shell_small (Z.of_nat (length nodes)) num_shells)
    as (K & HK & Hrepr); [lia..|].
  eexists _, K. split; [exact Hrun|]. split; [by apply int_of_float_exact|].
  intros m Hm.
  assert (Hlc : length (shell_counts (Z.of_nat (length nodes)) num_shells)
                = Z.to_nat (num_shells - 1)).
  { unfold shell_counts. by rewrite length_map, length_seq. }
  rewrite length_concat_take_split by lia.
  rewrite Nat2Z.inj_min.
  rewrite (sum_shell_counts _ num_shells K HK Hn Hrepr) by lia.
  fold nps. by rewrite Z2Nat.id by lia.
Qed.

Lemma make_shells_first_shells_witness :
  ∃ shells,
    Shells.make_shells 3 [1; 2; 3; 4; 5; 6; 7; 8; 9; 10] = Ok shells ∧
    Z.of_nat (length (concat (take 2 shells))) = 4.
Proof.
  destruct (make_shells_first_shells 3 [1; 2; 3; 4; 5; 6; 7; 8; 9; 10])
    as (shells & K & Hrun & HK & Hsum).
  - vm_compute. split; [discriminate|reflexivity].
  - vm_compute. discriminate.
  - exists shells. split; [exact Hrun|].
    vm_compute in HK. injection HK as <-.
    change (take 2 shells) with (take (Z.to_nat 2) shells).
    rewrite (Hsum 2) by (vm_compute; split; [discriminate|reflexivity]).
    vm_compute. reflexivity.
Defined.

(** ** Node positions: assign_node_pos and create_shell_graph *)

Section NodePositions.
Context {G : Type} `{NodeDict G}.

Lemma pos_body_ok (pos : layout) (g : G) (n : string) (p : float64 * float64)
    (d : gmap string attr) :
  pos !! n = Some p → node_dict g !! n = Some d →
  pos_body pos g n = Ok (with_node_dict (<[n := place pos n d]> (node_dict g)) g).
Proof.
  intros Hp Hd. unfold pos_body, getitem, place. by rewrite Hp, Hd.
Qed.

Lemma pos_body_KeyError (pos : layout) (g : G) (n : string) :
  pos !! n = None → pos_body pos g n = Raise (KeyError n).
Proof. intros Hp. unfold pos_body, getitem. by rewrite Hp. Qed.

Lemma pos_loop (pos : layout) (l : list string) :
  NoDup l →
  ∀ g, (∀ n, n ∈ l → is_Some (node_dict g !! n) ∧ is_Some (pos !! n)) →
  ∃ nd, for_each (pos_body pos) l g = Ok (with_node_dict nd g) ∧
        ∀ n, nd !! n =
             if decide (n ∈ l) then place pos n <$> node_dict g !! n
             else node_dict g !! n.
Proof.
  induction 1 as [|n l Hn Hl IH]; intros g Hg.
  - exists (node_dict g). rewrite with_node_dict_id. split; [done|]. intros n.
    by rewrite decide_False by apply not_elem_of_nil.
  - destruct (Hg n) as [[d Hd] [p Hp]]; [by left|].
    rewrite for_each_cons, (pos_body_ok pos g n p d Hp Hd), bind_Ok.
    destruct (IH (with_node_dict (<[n := place pos n d]> (node_dict g)) g))
      as (nd & Hrun & Hnd).
    { intros m Hm. rewrite node_dict_with.
      rewrite lookup_insert_ne by (intros ->; done).
      apply Hg. by right. }
    exists nd. rewrite Hrun, with_node_dict_with. split; [done|].
    intros m. rewrite Hnd, node_dict_with.
    destruct (decide (m = n)) as [->|Hne].
    + rewrite decide_False by done. rewrite decide_True by (by left).
      by rewrite lookup_insert_eq, Hd.
    + rewrite lookup_insert_ne by done.
      destruct (decide (m ∈ l)) as [Hm|Hm].
      * by rewrite decide_True by (by right).
      * rewrite decide_False; [done|]. by intros [?|?]%elem_of_cons.
Qed.

Lemma pos_loop_KeyError (pos : layout) (l : list string) :
  NoDup l →
  ∀ g n, (∀ m, m ∈ l → is_Some (node_dict g !! m)) →
  n ∈ l → pos !! n = None →
  ∃ m, m ∈ l ∧ pos !! m = None ∧ for_each (pos_body pos) l g = Raise (KeyError m).
Proof.
  induction 1 as [|x l Hx Hl IH]; intros g n Hg Hn Hp.
  - by apply not_elem_of_nil in Hn.
  - rewrite for_each_cons. destruct (pos !! x) as [p|] eqn:Ex.
    + destruct (Hg x) as [d Hd]; [by left|].
      rewrite (pos_body_ok pos g x p d Ex Hd), bind_Ok.
      apply elem_of_cons in Hn as [->|Hn]; [congruence|].
      destruct (IH (with_node_dict (<[x := place pos x d]> (node_dict g)) g) n)
        as (m & Hm & Hpm & Hrun); [|done|done|].
      { intros m Hm. rewrite node_dict_with.
        rewrite lookup_insert_ne by (intros ->; done).
        apply Hg. by right. }
      exists m. split; [by right|done].
    + exists x. split; [by left|]. split; [done|].
      by rewrite (pos_body_KeyError pos g x Ex).
Qed.

Lemma elem_of_node_list (g : G) (n : string) :
  n ∈ (map_to_list (node_dict g)).*1 ↔ is_Some (node_dict g !! n).
Proof.
  rewrite list_elem_of_fmap. split.
  - intros ([n' a] & -> & Hin). apply elem_of_map_to_list in Hin. by exists a.
  - intros [a Ha]. exists (n, a). split; [done|]. by apply elem_of_map_to_list.
Qed.

Lemma assign_node_pos_placed (g : G) (pos : layout) :
  (∀ n, is_Some (node_dict g !! n) → is_Some (pos !! n)) →
  assign_node_pos g pos = Ok (with_node_dict (placed pos (node_dict g)) g).
Proof.
  intros Hpos. unfold assign_node_pos.
  destruct (pos_loop pos (map_to_list (node_dict g)).*1 (NoDup_fst_map_to_list _) g)
    as (nd & Hrun & Hnd).
  { intros n Hn. apply elem_of_node_list in Hn. split; [done|by apply Hpos]. }
  rewrite Hrun. do 2 f_equal. apply map_eq. intros n.
  rewrite Hnd. unfold placed. rewrite map_lookup_imap.
  destruct (node_dict g !! n) as [d|] eqn:Ed; simpl.
  - by rewrite decide_True by (apply elem_of_node_list; eauto).
  - by destruct (decide _).
Qed.

(** X6. When the layout gives a position to every node of the graph,
    [assign_node_pos] returns the graph with the same nodes, each with its
    position set to the one the layout gives it and its other attributes as
    they were; nothing but the node dictionary is changed. *)
Theorem assign_node_pos_total (g : G) (pos : layout) :
  (∀ n, n ∈ dom (node_dict g) → n ∈ dom pos) →
  ∃ nd, assign_node_pos g pos = Ok (with_node_dict nd g) ∧
        dom nd = dom (node_dict g) ∧
        ∀ n attrs, node_dict g !! n = Some attrs →
          ∃ p attrs', pos !! n = Some p ∧ nd !! n = Some attrs' ∧
                      attrs' !! "pos" = Some (APos p.1 p.2) ∧
                      ∀ k, k ≠ "pos" → attrs' !! k = attrs !! k.
Proof.
  intros Hpos. exists (placed pos (node_dict g)). split; [|split].
  - apply assign_node_pos_placed. intros n Hn.
    apply elem_of_dom, Hpos. by apply elem_of_dom.
  - apply set_eq. intros n. unfold placed.
    rewrite !elem_of_dom, map_lookup_imap.
    destruct (node_dict g !! n); simpl; split; intros [? ?]; eauto; done.
  - intros n attrs Hn. destruct (pos !! n) as [p|] eqn:Ep.
    + exists p, (<["pos" := pos_attr p]> attrs). split; [done|].
      unfold placed, place. rewrite map_lookup_imap, Hn. simpl. rewrite Ep.
      split; [done|]. split; [by rewrite lookup_insert_eq|].
      intros k Hk. by rewrite lookup_insert_ne.
    + assert (Hin : n ∈ dom pos) by (apply Hpos; by apply elem_of_dom_2 in Hn).
      apply elem_of_dom in Hin as [? ?]. congruence.
Qed.

(** X7. When the layout has no position for some node of the graph,
    [assign_node_pos] raises [KeyError] for a node of the graph that the
    layout does not place: the first one the loop comes to. *)
Theorem assign_node_pos_KeyError (g : G) (pos : layout) (n : string) :
  n ∈ dom (node_dict g) → n ∉ dom pos →
  ∃ m, m ∈ dom (node_dict g) ∧ (m ∉ dom pos) ∧
       assign_node_pos g pos = Raise (KeyError m).
Proof.
  intros Hn Hp. unfold assign_node_pos.
  destruct (pos_loop_KeyError pos (map_to_list (node_dict g)).*1
              (NoDup_fst_map_to_list _) g n) as (m & Hm & Hpm & Hrun).
  - intros m Hm. by apply elem_of_node_list.
  - apply elem_of_node_list. by apply elem_of_dom.
  - by apply not_elem_of_dom.
  - exists m. split; [|split; [|done]].
    + apply elem_of_dom. by apply elem_of_node_list.
    + by apply not_elem_of_dom.
Qed.


End NodePositions.

Lemma assign_node_pos_total_witness :
  ∃ nd, assign_node_pos bare_nodes sample_layout = Ok (with_node_dict nd bare_nodes) ∧
        dom nd = dom (node bare_nodes) ∧
        nd !! "b" = Some {[ "pos" := APos (float_of_int 30) (float_of_int 40);
                            "weight" := AInt 5 ]}.
Proof.
  destruct (assign_node_pos_total bare_nodes sample_layout) as (nd & Hrun & Hdom & Hnd).
  - intros n Hn.
    assert (Hdom : dom sample_layout = dom (node bare_nodes)) by (vm_compute; reflexivity).
    rewrite Hdom. exact Hn.
  - exists nd. split; [exact Hrun|]. split; [exact Hdom|].
    destruct (Hnd "b" {[ "weight" := AInt 5 ]} eq_refl) as (p & attrs' & Hp & Hb & Hpos & Hk).
    injection Hp as <-. rewrite Hb. f_equal. apply map_eq. intros k.
    destruct (decide (k = "pos")) as [->|Hne]; [by rewrite Hpos|].
    rewrite (Hk k Hne). by rewrite lookup_insert_ne.
Defined.

Lemma bare_nodes_dom (n : string) : n ∈ dom (node bare_nodes) → n = "a" ∨ n = "b".
Proof.
  unfold bare_nodes. simpl. rewrite dom_insert_L, dom_singleton_L.
  intros [Hn|Hn]%elem_of_union; apply elem_of_singleton in Hn; auto.
Qed.

Lemma assign_node_pos_KeyError_witness :
  ∃ m, assign_node_pos bare_nodes {[ "a" := (float_of_int 10, float_of_int 20) ]}
       = Raise (KeyError m) ∧ m = "b".
Proof.
  destruct (assign_node_pos_KeyError bare_nodes
              {[ "a" := (float_of_int 10, float_of_int 20) ]} "b")
    as (m & Hm & Hpm & Hrun).
  - apply elem_of_dom. eexists. reflexivity.
  - apply not_elem_of_dom. reflexivity.
  - exists m. split; [exact Hrun|].
    destruct (bare_nodes_dom m Hm) as [->| ->]; [|reflexivity].
    destruct Hpm. apply elem_of_dom. eexists. reflexivity.
Defined.

(** ** Node attributes: how the assignments compose *)

Lemma DiGraph_eq (g1 g2 : DiGraph) :
  edges g1 = edges g2 → (∀ n, node g1 !! n = node g2 !! n) → g1 = g2.
Proof.
  destruct g1 as [nd1 e1], g2 as [nd2 e2]. simpl. intros -> Hn.
  f_equal. by apply map_eq.
Qed.

Lemma assign_node_weights_eq (g : DiGraph) (d : gmap string Z) :
  assign_node_weights g d
  = Ok (mkDiGraph (map_imap (λ n attrs, Some (with_weight d n attrs)) (node g)) (edges g)).
Proof.
  destruct (weights_loop d (nodes g) (NoDup_nodes g) g) as (g' & Hrun & He & Hnode).
  { intros n. by rewrite elem_of_nodes. }
  unfold assign_node_weights. rewrite Hrun. f_equal.
  apply DiGraph_eq; [done|]. intros n. simpl.
  rewrite Hnode, map_lookup_imap.
  destruct (node g !! n) as [attrs|] eqn:E; simpl.
  - by rewrite decide_True by (apply elem_of_nodes; eauto).
  - by destruct (decide _).
Qed.

(** X9. Weights assigned a second time replace the first ones: assigning
    the weights of [d1] and then those of [d2] gives the graph that
    assigning those of [d2] alone gives. Assigning the same weights twice
    is assigning them once. *)
Theorem assign_node_weights_overwrite (g : DiGraph) (d1 d2 : gmap string Z) :
  (g1 ← assign_node_weights g d1; assign_node_weights g1 d2) = assign_node_weights g d2.
Proof.
  rewrite (assign_node_weights_eq g d1), bind_Ok, !assign_node_weights_eq.
  f_equal. apply DiGraph_eq; [done|]. intros n. simpl.
  rewrite !map_lookup_imap. destruct (node g !! n) as [attrs|]; simpl; [|done].
  unfold with_weight. by rewrite insert_insert_eq.
Qed.

Lemma iter_translate_pos (x y : float64) (k : nat) (xn yn : float64) :
  ∃ xn' yn', Nat.iter k (translate x y) (APos xn yn) = APos xn' yn'.
Proof.
  induction k as [|k (xn' & yn' & IH)]; simpl; [by eauto|].
  rewrite IH. simpl. eauto.
Qed.

Lemma shift_attrs_has_pos (x y : float64) (k : nat) (attrs : gmap string attr)
    (xn yn : float64) :
  attrs !! "pos" = Some (APos xn yn) →
  ∃ xn' yn', shift_attrs x y k attrs !! "pos" = Some (APos xn' yn').
Proof.
  intros Hp. unfold shift_attrs. rewrite Hp, lookup_insert_eq.
  destruct (iter_translate_pos x y k xn yn) as (xn' & yn' & ->). eauto.
Qed.

Lemma shift_attrs_no_pos (x y : float64) (k : nat) (attrs : gmap string attr) :
  attrs !! "pos" = None → shift_attrs x y k attrs = attrs.
Proof. intros Hp. unfold shift_attrs. by rewrite Hp. Qed.

(** X10. [shift_nodes] raises [KeyError] at the first listed node that it
    cannot move: with the name of the node when the graph has no such node,
    and with ['pos'] when the node carries no position. *)
Theorem shift_nodes_KeyError (g : DiGraph) (ns1 ns2 : list string) (n : string)
    (x y : float64) :
  (∀ m, m ∈ ns1 → has_pos g m) →
  (n ∉ dom (node g) → shift_nodes g (ns1 ++ n :: ns2) x y = Raise (KeyError n)) ∧
  (∀ attrs, node g !! n = Some attrs → attrs !! "pos" = None →
     shift_nodes g (ns1 ++ n :: ns2) x y = Raise (KeyError "pos")).
Proof.
  intros Hpos. destruct (shift_loop x y ns1 g Hpos) as (g' & Hrun & _ & Hnode).
  split.
  - intros Hn. apply not_elem_of_dom in Hn. unfold shift_nodes.
    apply for_each_raise with g'; [done|].
    unfold shift_body, getitem. by rewrite Hnode, Hn.
  - intros attrs Hattrs Hp. unfold shift_nodes.
    apply for_each_raise with g'; [done|].
    unfold shift_body, getitem. rewrite Hnode, Hattrs. simpl.
    by rewrite shift_attrs_no_pos, Hp.
Qed.

Lemma shift_nodes_KeyError_witness :
  shift_nodes two_nodes (["a"] ++ "z" :: ["b"]) (float_of_int 1) (float_of_int 0)
  = Raise (KeyError "z").
Proof.
  destruct (shift_nodes_KeyError two_nodes ["a"] ["b"] "z" (float_of_int 1) (float_of_int 0))
    as [Hmissing _].
  - intros m Hm. apply list_elem_of_singleton in Hm as ->.
    eexists _, _, _. split; reflexivity.
  - apply Hmissing. apply not_elem_of_dom. reflexivity.
Defined.

Lemma shift_loop_has_pos (x y : float64) (ns : list string) (g g' : DiGraph) (n : string) :
  (∀ m, node g' !! m = shift_attrs x y (occurrences m ns) <$> node g !! m) →
  has_pos g n → has_pos g' n.
Proof.
  intros Hnode (attrs & xn & yn & Ha & Hp).
  destruct (shift_attrs_has_pos x y (occurrences n ns) attrs xn yn Hp) as (xn' & yn' & Hp').
  exists (shift_attrs x y (occurrences n ns) attrs), xn', yn'.
  by rewrite Hnode, Ha.
Qed.

(** X11. Moves of node lists that have no node in common commute: moving
    the nodes of [ns1] by [(x1, y1)] and then those of [ns2] by [(x2, y2)]
    gives the graph that the two moves give in the other order. *)
Theorem shift_nodes_commute (g : DiGraph) (ns1 ns2 : list string)
    (x1 y1 x2 y2 : float64) :
  (∀ n, n ∈ ns1 ++ ns2 → has_pos g n) →
  (∀ n, n ∈ ns1 → n ∉ ns2) →
  ∃ g', (g1 ← shift_nodes g ns1 x1 y1; shift_nodes g1 ns2 x2 y2) = Ok g' ∧
        (g2 ← shift_nodes g ns2 x2 y2; shift_nodes g2 ns1 x1 y1) = Ok g'.
Proof.
  intros Hpos Hdisj.
  destruct (shift_loop x1 y1 ns1 g) as (g1 & Hrun1 & He1 & Hn1).
  { intros n Hn. apply Hpos, elem_of_app. by left. }
  destruct (shift_loop x2 y2 ns2 g1) as (g12 & Hrun12 & He12 & Hn12).
  { intros n Hn. apply (shift_loop_has_pos x1 y1 ns1 g g1 n Hn1).
    apply Hpos, elem_of_app. by right. }
  destruct (shift_loop x2 y2 ns2 g) as (g2 & Hrun2 & He2 & Hn2).
  { intros n Hn. apply Hpos, elem_of_app. by right. }
  destruct (shift_loop x1 y1 ns1 g2) as (g21 & Hrun21 & He21 & Hn21).
  { intros n Hn. apply (shift_loop_has_pos x2 y2 ns2 g g2 n Hn2).
    apply Hpos, elem_of_app. by left. }
  exists g12. unfold shift_nodes.
  rewrite Hrun1, bind_Ok, Hrun12, Hrun2, bind_Ok, Hrun21.
  split; [done|]. f_equal. apply DiGraph_eq; [congruence|].
  intros n. rewrite Hn21, Hn2, Hn12, Hn1.
  destruct (node g !! n) as [attrs|]; simpl; [|done]. f_equal.
  destruct (decide (n ∈ ns1)) as [Hin|Hout].
  - rewrite (occurrences_not_in n ns2) by by apply Hdisj.
    by rewrite !shift_attrs_0.
  - rewrite (occurrences_not_in n ns1) by done.
    by rewrite !shift_attrs_0.
Qed.

Lemma two_nodes_has_pos (n : string) : n ∈ ["a"; "b"] → has_pos two_nodes n.
Proof.
  intros Hn. apply elem_of_cons in Hn as [->|Hn];
    [|apply list_elem_of_singleton in Hn as ->]; eexists _, _, _; split; reflexivity.
Qed.

Lemma shift_nodes_commute_witness :
  ∃ g', (g1 ← shift_nodes two_nodes ["a"] (float_of_int 1) (float_of_int 0);
         shift_nodes g1 ["b"] (float_of_int 5) (float_of_int 7)) = Ok g' ∧
        (g2 ← shift_nodes two_nodes ["b"] (float_of_int 5) (float_of_int 7);
         shift_nodes g2 ["a"] (float_of_int 1) (float_of_int 0)) = Ok g'.
Proof.
  apply (shift_nodes_commute two_nodes ["a"] ["b"]).
  - exact two_nodes_has_pos.
  - intros n Hn Hb. apply list_elem_of_singleton in Hn as ->.
    apply list_elem_of_singleton in Hb. discriminate Hb.
Defined.

(** X12. Once [assign_node_pos] has given every node its position,
    [shift_nodes] moves any list of nodes of the graph without raising:
    the position of a node is the one of the layout, moved once for each
    time the node is listed; the other attributes and the edges are those
    of the graph. *)
Theorem shift_nodes_after_assign_node_pos (g : DiGraph) (pos : layout) (ns : list string)
    (x y : float64) :
  (∀ n, n ∈ dom (node g) → n ∈ dom pos) →
  (∀ n, n ∈ ns → n ∈ dom (node g)) →
  ∃ g', (g1 ← assign_node_pos g pos; shift_nodes g1 ns x y) = Ok g' ∧
        edges g' = edges g ∧
        dom (node g') = dom (node g) ∧
        ∀ n attrs, node g !! n = Some attrs →
          ∃ p, pos !! n = Some p ∧
               node g' !! n =
                 Some (<["pos" := Nat.iter (occurrences n ns) (translate x y)
                                    (APos p.1 p.2)]> attrs).
Proof.
  intros Hpos Hns.
  assert (Hall : ∀ n, is_Some (node g !! n) → is_Some (pos !! n)).
  { intros n Hn. apply elem_of_dom, Hpos. by apply elem_of_dom. }
  rewrite (@assign_node_pos_placed DiGraph DiGraph_NodeDict g pos Hall), bind_Ok.
  set (g1 := with_node_dict (placed pos (node_dict g)) g).
  assert (Hg1 : ∀ n, node g1 !! n = place pos n <$> node g !! n).
  { intros n. unfold g1, placed. simpl. rewrite map_lookup_imap.
    by destruct (node g !! n). }
  destruct (shift_loop x y ns g1) as (g' & Hrun & He & Hnode).
  { intros n Hn. apply Hns, elem_of_dom in Hn as [attrs Hattrs].
    destruct (Hall n) as [p Hp]; [eauto|].
    exists (place pos n attrs), p.1, p.2. rewrite Hg1, Hattrs. split; [done|].
    unfold place. rewrite Hp. by rewrite lookup_insert_eq. }
  exists g'. split; [done|]. split; [done|]. split.
  - apply set_eq. intros n. rewrite !elem_of_dom, Hnode, Hg1.
    by rewrite !fmap_is_Some.
  - intros n attrs Hattrs. destruct (Hall n) as [p Hp]; [eauto|].
    exists p. split; [done|]. rewrite Hnode, Hg1, Hattrs. simpl.
    unfold shift_attrs, place. rewrite Hp, lookup_insert_eq.
    by rewrite insert_insert_eq.
Qed.

Lemma shift_nodes_after_assign_node_pos_witness :
  ∃ g', (g1 ← assign_node_pos bare_nodes sample_layout;
         shift_nodes g1 ["b"; "b"] (float_of_int 1) (float_of_int 0)) = Ok g' ∧
        node g' !! "b" = Some {[ "pos" := APos (float_of_int 32) (float_of_int 40);
                                 "weight" := AInt 5 ]}.
Proof.
  destruct (shift_nodes_after_assign_node_pos bare_nodes sample_layout ["b"; "b"]
              (float_of_int 1) (float_of_int 0)) as (g' & Hrun & _ & _ & Hnode).
  - intros n Hn.
    assert (Hdom : dom sample_layout = dom (node bare_nodes)) by (vm_compute; reflexivity).
    rewrite Hdom. exact Hn.
  - intros n Hn. assert (n = "b") as ->.
    { apply elem_of_cons in Hn as [->|Hn]; [reflexivity|].
      by apply list_elem_of_singleton in Hn. }
    apply elem_of_dom. eexists. reflexivity.
  - exists g'. split; [exact Hrun|].
    destruct (Hnode "b" {[ "weight" := AInt 5 ]} eq_refl) as (p & Hp & Hb).
    injection Hp as <-. rewrite Hb. f_equal.
Defined.

(** ** Undirected graphs: the graph of a subset and the edges between subsets *)

Lemma lookup_add_node (n m : string) (nd : gmap string (gmap string attr)) :
  add_node n nd !! m = if decide (m = n) then Some (default ∅ (nd !! n)) else nd !! m.
Proof.
  unfold add_node. destruct (nd !! n) as [d|] eqn:E.
  - destruct (decide (m = n)) as [->|]; [by rewrite E|done].
  - destruct (decide (m = n)) as [->|]; [by rewrite lookup_insert_eq|].
    by rewrite lookup_insert_ne.
Qed.

Lemma lookup_add_two (a b n : string) (nd : gmap string (gmap string attr)) :
  add_node b (add_node a nd) !! n =
    match nd !! n with
    | Some d => Some d
    | None => if decide (n = a ∨ n = b) then Some ∅ else None
    end.
Proof.
  rewrite !lookup_add_node.
  destruct (decide (n = b)) as [->|Hb].
  - destruct (decide (b = a)) as [->|Hne].
    + destruct (nd !! a); simpl; [done|]. by rewrite decide_True by auto.
    + destruct (nd !! b); simpl; [done|]. by rewrite decide_True by auto.
  - destruct (decide (n = a)) as [->|Ha].
    + destruct (nd !! a); simpl; [done|]. by rewrite decide_True by auto.
    + destruct (nd !! n); [done|]. rewrite decide_False; [done|]. tauto.
Qed.

Lemma lookup_add_nodes (ns : list string) :
  ∀ (nd : gmap string (gmap string attr)) (m : string),
    foldl (λ nd n, add_node n nd) nd ns !! m =
      match nd !! m with
      | Some d => Some d
      | None => if decide (m ∈ ns) then Some ∅ else None
      end.
Proof.
  induction ns as [|n ns IH]; intros nd m; cbn [foldl].
  - destruct (nd !! m); [done|]. by rewrite decide_False by apply not_elem_of_nil.
  - rewrite IH, lookup_add_node. destruct (decide (m = n)) as [->|Hne].
    + destruct (nd !! n); simpl; [done|]. by rewrite decide_True by (by left).
    + destruct (nd !! m); [done|]. destruct (decide (m ∈ ns)) as [Hin|Hout].
      * by rewrite decide_True by (by right).
      * rewrite decide_False; [done|]. by intros [?|?]%elem_of_cons.
Qed.

Lemma links_sym (r : edge_row) (u v : string) : links r u v → links r v u.
Proof. unfold links. tauto. Qed.

Lemma lookup_edge_pair (e : gmap (string * string) (gmap string attr))
    (a b u v : string) (d : gmap string attr) :
  <[(b, a) := d]> (<[(a, b) := d]> e) !! (u, v) =
    if decide ((a = u ∧ b = v) ∨ (a = v ∧ b = u)) then Some d else e !! (u, v).
Proof.
  destruct (decide ((b, a) = (u, v))) as [Heq|Hne].
  - rewrite Heq, lookup_insert_eq. injection Heq as -> ->.
    by rewrite decide_True by (by right).
  - rewrite lookup_insert_ne by done.
    destruct (decide ((a, b) = (u, v))) as [Heq|Hne'].
    + rewrite Heq, lookup_insert_eq. injection Heq as -> ->.
      by rewrite decide_True by (by left).
    + rewrite lookup_insert_ne by done. rewrite decide_False; [done|].
      intros [[-> ->]|[-> ->]]; congruence.
Qed.

(** [add_edge]: the entries of the two ends, and every other entry. *)
Lemma lookup_add_edge (a b : string) (attr_dict : gmap string attr)
    (g : Undirected.Graph) (u v : string) :
  Undirected.edge (Undirected.add_edge a b attr_dict g) !! (u, v) =
    if decide ((a = u ∧ b = v) ∨ (a = v ∧ b = u))
    then Some (attr_dict ∪ default ∅ (Undirected.edge g !! (a, b)))
    else Undirected.edge g !! (u, v).
Proof. unfold Undirected.add_edge. simpl. apply lookup_edge_pair. Qed.

(** One iteration of [add_intergraph_edges]. *)
Lemma intergraph_body_ok (g : Undirected.Graph) (r : edge_row) :
  ∃ g', intergraph_body g r = Ok g' ∧
        Undirected.node g' = add_node (Node2 r) (add_node (Node1 r) (Undirected.node g)) ∧
        ∀ u v, Undirected.edge g' !! (u, v) =
               if decide ((Node1 r = u ∧ Node2 r = v) ∨ (Node1 r = v ∧ Node2 r = u))
               then Some (<["CPD" := AStr (str_of_cell (CPD r))]>
                            (default ∅ (Undirected.edge g !! (Node1 r, Node2 r))))
               else Undirected.edge g !! (u, v).
Proof.
  unfold intergraph_body, Undirected.set_edge_attr. cbn [fst snd].
  assert (Hnode : is_Some (Undirected.node (Undirected.add_edge (Node1 r) (Node2 r) ∅ g)
                           !! Node1 r)).
  { simpl. rewrite lookup_add_two.
    destruct (Undirected.node g !! Node1 r); [by eauto|].
    rewrite decide_True by auto. eauto. }
  destruct Hnode as [d0 ->].
  rewrite lookup_add_edge, decide_True by (by left).
  rewrite map_empty_union.
  eexists. split; [done|]. split; [done|].
  intros u v. cbn [Undirected.edge]. rewrite lookup_edge_pair.
  destruct (decide _); [done|]. rewrite lookup_add_edge. by rewrite decide_False.
Qed.

Lemma intergraph_loop_total (rows : list edge_row) :
  ∀ g, ∃ g', for_each intergraph_body rows g = Ok g'.
Proof.
  induction rows as [|r rows IH]; intros g; [by exists g|].
  destruct (intergraph_body_ok g r) as (g1 & Hb & _).
  rewrite for_each_cons, Hb, bind_Ok. apply IH.
Qed.

(** The nodes after the loop: an old node keeps its attributes, and the
    new nodes are the ends of the rows, without attributes. *)
Lemma intergraph_loop_nodes (rows : list edge_row) :
  ∀ g g', for_each intergraph_body rows g = Ok g' →
    ∀ n, Undirected.node g' !! n =
         match Undirected.node g !! n with
         | Some d => Some d
         | None => if decide (n ∈ (Node1 <$> rows) ++ (Node2 <$> rows)) then Some ∅ else None
         end.
Proof.
  induction rows as [|r rows IH]; intros g g' Hrun n.
  - injection Hrun as <-. destruct (Undirected.node g !! n); [done|].
    by rewrite decide_False by apply not_elem_of_nil.
  - destruct (intergraph_body_ok g r) as (g1 & Hb & Hn1 & _).
    rewrite for_each_cons, Hb, bind_Ok in Hrun.
    rewrite (IH g1 g' Hrun n), Hn1, lookup_add_two.
    assert (Hmem : n ∈ (Node1 <$> r :: rows) ++ (Node2 <$> r :: rows) ↔
                   n = Node1 r ∨ n = Node2 r ∨ n ∈ (Node1 <$> rows) ++ (Node2 <$> rows)).
    { rewrite !fmap_cons, !elem_of_app, !elem_of_cons. tauto. }
    destruct (Undirected.node g !! n); [done|].
    destruct (decide (n = Node1 r ∨ n = Node2 r)) as [Hends|Hends].
    + by rewrite decide_True by (apply Hmem; tauto).
    + destruct (decide (n ∈ (Node1 <$> rows) ++ (Node2 <$> rows))) as [Hin|Hout].
      * by rewrite decide_True by (apply Hmem; tauto).
      * by rewrite decide_False by (rewrite Hmem; tauto).
Qed.

(** An entry that no row links is what it was. *)
Lemma intergraph_loop_frame (rows : list edge_row) (u v : string) :
  (∀ r, r ∈ rows → ¬ links r u v) →
  ∀ g g', for_each intergraph_body rows g = Ok g' →
          Undirected.edge g' !! (u, v) = Undirected.edge g !! (u, v).
Proof.
  induction rows as [|r rows IH]; intros Hrows g g' Hrun.
  - by injection Hrun as <-.
  - destruct (intergraph_body_ok g r) as (g1 & Hb & _ & He1).
    rewrite for_each_cons, Hb, bind_Ok in Hrun.
    rewrite (IH (λ r' Hr', Hrows r' (list_elem_of_further _ _ _ Hr')) g1 g' Hrun), He1.
    rewrite decide_False; [done|]. apply Hrows. by left.
Qed.

(** The edges after the loop: the old ones and the links of the rows. *)
Lemma intergraph_loop_edges (rows : list edge_row) (u v : string) :
  ∀ g g', for_each intergraph_body rows g = Ok g' →
    (is_Some (Undirected.edge g' !! (u, v)) ↔
     is_Some (Undirected.edge g !! (u, v)) ∨ ∃ r, r ∈ rows ∧ links r u v).
Proof.
  induction rows as [|r rows IH]; intros g g' Hrun.
  - injection Hrun as <-. split; [by left|].
    intros [H|(r & Hr & _)]; [done|]. by apply not_elem_of_nil in Hr.
  - destruct (intergraph_body_ok g r) as (g1 & Hb & _ & He1).
    rewrite for_each_cons, Hb, bind_Ok in Hrun.
    rewrite (IH g1 g' Hrun), He1.
    destruct (decide ((Node1 r = u ∧ Node2 r = v) ∨ (Node1 r = v ∧ Node2 r = u)))
      as [Hl|Hl].
    + split; [|by eauto]. intros _. right. exists r. split; [by left|done].
    + split.
      * intros [H|(r' & Hr' & Hl')]; [by left|].
        right. exists r'. split; [by right|done].
      * intros [H|(r' & Hr' & Hl')]; [by left|].
        apply elem_of_cons in Hr' as [->|Hr']; [done|].
        right. by exists r'.
Qed.

Lemma intergraph_loop_symmetric (rows : list edge_row) :
  ∀ g g', for_each intergraph_body rows g = Ok g' →
          Undirected.symmetric g → Undirected.symmetric g'.
Proof.
  induction rows as [|r rows IH]; intros g g' Hrun Hsym.
  - by injection Hrun as <-.
  - destruct (intergraph_body_ok g r) as (g1 & Hb & _ & He1).
    rewrite for_each_cons, Hb, bind_Ok in Hrun.
    apply (IH g1 g' Hrun). intros u v. rewrite !He1.
    destruct (decide ((Node1 r = u ∧ Node2 r = v) ∨ (Node1 r = v ∧ Node2 r = u)))
      as [Hl|Hl].
    + by rewrite decide_True by tauto.
    + rewrite decide_False by tauto. apply Hsym.
Qed.

Lemma elem_of_loc_isin (p1 p2 : list string) (df : list edge_row) (r : edge_row) :
  r ∈ loc_isin p1 p2 df ↔ r ∈ df ∧ Node1 r ∈ p1 ∧ Node2 r ∈ p2.
Proof. unfold loc_isin. rewrite list_elem_of_filter. tauto. Qed.

Lemma end_of_elem (rows : list edge_row) (n : string) :
  n ∈ (Node1 <$> rows) ++ (Node2 <$> rows) ↔ end_of rows n.
Proof.
  unfold end_of. rewrite elem_of_app, !list_elem_of_fmap. split.
  - intros [(r & -> & Hr)|(r & -> & Hr)]; exists r; auto.
  - intros (r & Hr & [<-|<-]); [left|right]; by exists r.
Qed.

(** X13. [add_intergraph_edges] never raises. The nodes of the graph keep
    their attributes, and the new nodes are the ends of the selected rows,
    those with Node1 in [p1] and Node2 in [p2]; they have no attribute. Two
    nodes are joined afterwards when they were joined before or a selected
    row links them; a row from [p2] to [p1] adds nothing. An edge that no
    selected row links keeps its attributes, and when the two ends of every
    edge reached the same attributes before, they still do. *)
Theorem add_intergraph_edges_frame (g : Undirected.Graph) (p1 p2 : list string)
    (df : list edge_row) :
  ∃ g', add_intergraph_edges g p1 p2 df = Ok g' ∧
        (∀ n attrs, Undirected.node g !! n = Some attrs →
                    Undirected.node g' !! n = Some attrs) ∧
        (∀ n, Undirected.node g !! n = None →
              (end_of (loc_isin p1 p2 df) n ∧ Undirected.node g' !! n = Some ∅) ∨
              (¬ end_of (loc_isin p1 p2 df) n ∧ Undirected.node g' !! n = None)) ∧
        (∀ u v, is_Some (Undirected.edge g' !! (u, v)) ↔
                is_Some (Undirected.edge g !! (u, v)) ∨
                ∃ r, r ∈ df ∧ Node1 r ∈ p1 ∧ Node2 r ∈ p2 ∧ links r u v) ∧
        (∀ u v, (∀ r, r ∈ df → Node1 r ∈ p1 → Node2 r ∈ p2 → ¬ links r u v) →
                Undirected.edge g' !! (u, v) = Undirected.edge g !! (u, v)) ∧
        (Undirected.symmetric g → Undirected.symmetric g').
Proof.
  unfold add_intergraph_edges.
  destruct (intergraph_loop_total (loc_isin p1 p2 df) g) as [g' Hrun].
  exists g'. split; [done|].
  pose proof (intergraph_loop_nodes _ g g' Hrun) as Hnodes.
  split; [|split; [|split; [|split]]].
  - intros n attrs Hn. by rewrite Hnodes, Hn.
  - intros n Hn. rewrite Hnodes, Hn.
    destruct (decide _) as [Hin|Hout].
    + left. split; [by apply end_of_elem|done].
    + right. split; [by rewrite <- end_of_elem|done].
  - intros u v. rewrite (intergraph_loop_edges _ u v g g' Hrun).
    split; (intros [H|(r & Hr & Hl)]; [by left|right; exists r]).
    + apply elem_of_loc_isin in Hr. tauto.
    + destruct Hl as (H1 & H2 & Hl). split; [|done].
      apply elem_of_loc_isin. tauto.
  - intros u v Hnone. apply (intergraph_loop_frame (loc_isin p1 p2 df)); [|done].
    intros r Hr. apply elem_of_loc_isin in Hr as (Hr & H1 & H2). by apply Hnone.
  - by apply (intergraph_loop_symmetric (loc_isin p1 p2 df)).
Qed.

(** X14. The compound of an edge is the one of the last selected row that
    links its ends: after [add_intergraph_edges], the edge between Node1 and
    Node2 of a selected row that no later selected row links again carries,
    from both of its ends, the CPD of that row as a string (["nan"] for a
    missing value). *)
Theorem add_intergraph_edges_last_CPD (g : Undirected.Graph) (p1 p2 : list string)
    (df1 df2 : list edge_row) (r : edge_row) :
  Node1 r ∈ p1 → Node2 r ∈ p2 →
  (∀ r', r' ∈ df2 → Node1 r' ∈ p1 → Node2 r' ∈ p2 → ¬ links r' (Node1 r) (Node2 r)) →
  ∃ g' d, add_intergraph_edges g p1 p2 (df1 ++ r :: df2) = Ok g' ∧
          Undirected.edge g' !! (Node1 r, Node2 r) = Some d ∧
          Undirected.edge g' !! (Node2 r, Node1 r) = Some d ∧
          d !! "CPD" = Some (AStr (str_of_cell (CPD r))).
Proof.
  intros H1 H2 Hlast. unfold add_intergraph_edges, loc_isin.
  rewrite filter_app, filter_cons_True by done.
  fold (loc_isin p1 p2 df1). fold (loc_isin p1 p2 df2).
  destruct (intergraph_loop_total (loc_isin p1 p2 df1) g) as [g1 Hrun1].
  destruct (intergraph_body_ok g1 r) as (g2 & Hb & _ & He2).
  destruct (intergraph_loop_total (loc_isin p1 p2 df2) g2) as [g' Hrun2].
  assert (Hframe : ∀ u v, links r u v →
            Undirected.edge g' !! (u, v) = Undirected.edge g2 !! (u, v)).
  { intros u v Hl. apply (intergraph_loop_frame (loc_isin p1 p2 df2)); [|done].
    intros r' Hr' Hl'. apply elem_of_loc_isin in Hr' as (Hr' & Hp1 & Hp2).
    apply (Hlast r' Hr' Hp1 Hp2).
    destruct Hl as [[<- <-]|[<- <-]]; [done|by apply links_sym]. }
  exists g'. eexists. rewrite for_each_app, Hrun1, bind_Ok.
  rewrite for_each_cons, Hb, bind_Ok, Hrun2. split; [done|].
  rewrite (Hframe (Node1 r) (Node2 r)) by (by left).
  rewrite (Hframe (Node2 r) (Node1 r)) by (by right). rewrite !He2.
  rewrite !decide_True by tauto.
  split; [done|]. split; [done|]. by rewrite lookup_insert_eq.
Qed.

Lemma add_intergraph_edges_last_CPD_witness :
  ∃ g' d, add_intergraph_edges Undirected.empty_graph ["A"; "B"] ["X"] sample_edges = Ok g' ∧
          Undirected.edge g' !! ("A", "X") = Some d ∧
          Undirected.edge g' !! ("X", "A") = Some d ∧
          d !! "CPD" = Some (AStr "nan").
Proof.
  refine (add_intergraph_edges_last_CPD Undirected.empty_graph ["A"; "B"] ["X"]
            [mkEdgeRow "A" "B" (Some "c1"); mkEdgeRow "B" "A" (Some "c2");
             mkEdgeRow "A" "X" (Some "c3")]
            [mkEdgeRow "Y" "C" (Some "c5")] (mkEdgeRow "A" "X" None) _ _ _).
  - left.
  - left.
  - intros r' Hr' _ H2. apply list_elem_of_singleton in Hr' as ->.
    simpl in H2. apply list_elem_of_singleton in H2. discriminate H2.
Defined.

(** *** The graph of a subset *)

Lemma from_pandas_nodes (df : list edge_row) :
  ∀ g n, Undirected.node
           (foldl (λ g r, Undirected.add_edge (Node1 r) (Node2 r)
                            {[ "CPD" := attr_of_cell (CPD r) ]} g) g df) !! n =
         match Undirected.node g !! n with
         | Some d => Some d
         | None => if decide (n ∈ (Node1 <$> df) ++ (Node2 <$> df)) then Some ∅ else None
         end.
Proof.
  induction df as [|r df IH]; intros g n; cbn [foldl].
  - destruct (Undirected.node g !! n); [done|].
    by rewrite decide_False by apply not_elem_of_nil.
  - rewrite IH. cbn [Undirected.add_edge Undirected.node]. rewrite lookup_add_two.
    assert (Hmem : n ∈ (Node1 <$> r :: df) ++ (Node2 <$> r :: df) ↔
                   n = Node1 r ∨ n = Node2 r ∨ n ∈ (Node1 <$> df) ++ (Node2 <$> df)).
    { rewrite !fmap_cons, !elem_of_app, !elem_of_cons. tauto. }
    destruct (Undirected.node g !! n); [done|].
    destruct (decide (n = Node1 r ∨ n = Node2 r)) as [Hends|Hends].
    + by rewrite decide_True by (apply Hmem; tauto).
    + destruct (decide (n ∈ (Node1 <$> df) ++ (Node2 <$> df))) as [Hin|Hout].
      * by rewrite decide_True by (apply Hmem; tauto).
      * by rewrite decide_False by (rewrite Hmem; tauto).
Qed.

Lemma from_pandas_edges (df : list edge_row) (u v : string) :
  ∀ g, is_Some (Undirected.edge
                  (foldl (λ g r, Undirected.add_edge (Node1 r) (Node2 r)
                                   {[ "CPD" := attr_of_cell (CPD r) ]} g) g df) !! (u, v)) ↔
       is_Some (Undirected.edge g !! (u, v)) ∨ ∃ r, r ∈ df ∧ links r u v.
Proof.
  induction df as [|r df IH]; intros g; cbn [foldl].
  - split; [by left|]. intros [H|(r & Hr & _)]; [done|]. by apply not_elem_of_nil in Hr.
  - rewrite IH, lookup_add_edge.
    destruct (decide ((Node1 r = u ∧ Node2 r = v) ∨ (Node1 r = v ∧ Node2 r = u)))
      as [Hl|Hl].
    + split; [|by eauto]. intros _. right. exists r. split; [by left|done].
    + split.
      * intros [H|(r' & Hr' & Hl')]; [by left|].
        right. exists r'. split; [by right|done].
      * intros [H|(r' & Hr' & Hl')]; [by left|].
        apply elem_of_cons in Hr' as [->|Hr']; [done|].
        right. by exists r'.
Qed.

Lemma subset_graph_node (pwys : list string) (metacyc_graph : list edge_row) (n : string) :
  Undirected.node (subset_graph pwys metacyc_graph) !! n =
    if decide (n ∈ pwys) then Some ∅ else None.
Proof.
  set (df := graph_df pwys metacyc_graph).
  unfold subset_graph, Undirected.add_nodes_from, Undirected.from_pandas_dataframe.
  fold df. cbn [Undirected.node].
  rewrite lookup_add_nodes, from_pandas_nodes. cbn [Undirected.node Undirected.empty_graph].
  rewrite lookup_empty.
  assert (Hends : n ∈ (Node1 <$> df) ++ (Node2 <$> df) → n ∈ pwys).
  { intros Hin. apply end_of_elem in Hin as (r & Hr & Hn).
    apply elem_of_loc_isin in Hr as (_ & H1 & H2). by destruct Hn as [<-|<-]. }
  destruct (decide (n ∈ (Node1 <$> df) ++ (Node2 <$> df))) as [Hin|Hout].
  - by rewrite decide_True by auto.
  - unfold pwy_singles. destruct (decide (n ∈ pwys)) as [Hp|Hp].
    + rewrite decide_True; [done|]. apply elem_of_elements, elem_of_difference.
      split; [by apply elem_of_list_to_set|].
      rewrite elem_of_list_to_set. intros Hn1. apply Hout, elem_of_app. by left.
    + rewrite decide_False; [done|].
      rewrite elem_of_elements, elem_of_difference, elem_of_list_to_set. tauto.
Qed.

(** X15. The graph of a subset has the pathways of the subset as its
    nodes, each without attributes, whether a pathway has links inside the
    subset or not; and two pathways are joined in it exactly when a row of
    the table links them and both are in the subset. *)
Theorem subset_graph_nodes_edges (pwys : list string) (metacyc_graph : list edge_row) :
  let g := subset_graph pwys metacyc_graph in
  dom (Undirected.node g) = list_to_set pwys ∧
  (∀ n, n ∈ pwys → Undirected.node g !! n = Some ∅) ∧
  (∀ u v, is_Some (Undirected.edge g !! (u, v)) ↔
          ∃ r, r ∈ metacyc_graph ∧ u ∈ pwys ∧ v ∈ pwys ∧ links r u v).
Proof.
  pose proof (subset_graph_node pwys metacyc_graph) as Hnode.
  split; [|split].
  - apply set_eq. intros n. rewrite elem_of_dom, Hnode, elem_of_list_to_set.
    destruct (decide (n ∈ pwys)); split; intros; try done; by destruct H as [? ?].
  - intros n Hn. by rewrite Hnode, decide_True.
  - intros u v. unfold subset_graph, Undirected.add_nodes_from,
      Undirected.from_pandas_dataframe. cbn [Undirected.edge].
    rewrite from_pandas_edges. cbn [Undirected.edge Undirected.empty_graph].
    rewrite lookup_empty. split.
    + intros [[? H]|(r & Hr & Hl)]; [done|].
      apply elem_of_loc_isin in Hr as (Hr & H1 & H2). exists r.
      destruct Hl as [[<- <-]|[<- <-]]; (split; [done|]); (split; [done|]);
        (split; [done|]); [by left|by right].
    + intros (r & Hr & Hu & Hv & Hl). right. exists r. split; [|done].
      apply elem_of_loc_isin. split; [done|].
      destruct Hl as [[-> ->]|[-> ->]]; done.
Qed.


(** *** The compound of an edge inside a subset *)

Lemma from_pandas_frame (df : list edge_row) (u v : string) :
  (∀ r, r ∈ df → ¬ links r u v) →
  ∀ g, Undirected.edge
         (foldl (λ g r, Undirected.add_edge (Node1 r) (Node2 r)
                          {[ "CPD" := attr_of_cell (CPD r) ]} g) g df) !! (u, v)
       = Undirected.edge g !! (u, v).
Proof.
  induction df as [|r df IH]; intros Hdf g; cbn [foldl]; [done|].
  rewrite IH by (intros r' Hr'; apply Hdf; by right).
  rewrite lookup_add_edge, decide_False; [done|]. apply Hdf. by left.
Qed.

(** The edges made from the table carry the compound and nothing else. *)
Lemma from_pandas_only_CPD (df : list edge_row) :
  ∀ g, (∀ e d k, Undirected.edge g !! e = Some d → k ≠ "CPD" → d !! k = None) →
       ∀ e d k,
         Undirected.edge
           (foldl (λ g r, Undirected.add_edge (Node1 r) (Node2 r)
                            {[ "CPD" := attr_of_cell (CPD r) ]} g) g df) !! e = Some d →
         k ≠ "CPD" → d !! k = None.
Proof.
  induction df as [|r df IH]; intros g Hg; cbn [foldl]; [exact Hg|].
  apply IH. intros [u v] d k. rewrite lookup_add_edge.
  destruct (decide _) as [Hl|Hl]; [|by apply Hg].
  intros [= <-] Hk. rewrite lookup_union, lookup_singleton_ne by done.
  destruct (Undirected.edge g !! (Node1 r, Node2 r)) as [d0|] eqn:E; simpl.
  - by rewrite (Hg _ d0 k E Hk).
  - by rewrite lookup_empty.
Qed.

(** X16. Inside a subset the compound of an edge is the one of the last
    row of the table that links its ends within the subset, kept as the
    table has it: the edge carries, from both of its ends, the CPD of that
    row as its only attribute, the missing value NaN when the row has
    none (where [add_intergraph_edges] stores the string ["nan"]). *)
Theorem subset_graph_last_CPD (pwys : list string) (df1 df2 : list edge_row)
    (r : edge_row) :
  Node1 r ∈ pwys → Node2 r ∈ pwys →
  (∀ r', r' ∈ df2 → Node1 r' ∈ pwys → Node2 r' ∈ pwys →
         ¬ links r' (Node1 r) (Node2 r)) →
  let g := subset_graph pwys (df1 ++ r :: df2) in
  Undirected.edge g !! (Node1 r, Node2 r) = Some {[ "CPD" := attr_of_cell (CPD r) ]} ∧
  Undirected.edge g !! (Node2 r, Node1 r) = Some {[ "CPD" := attr_of_cell (CPD r) ]}.
Proof.
  intros H1 H2 Hlast.
  unfold subset_graph, Undirected.add_nodes_from, Undirected.from_pandas_dataframe,
    graph_df, loc_isin.
  cbn [Undirected.edge].
  rewrite filter_app, filter_cons_True by done.
  fold (loc_isin pwys pwys df1). fold (loc_isin pwys pwys df2).
  rewrite foldl_app. cbn [foldl].
  set (g1 := foldl _ Undirected.empty_graph (loc_isin pwys pwys df1)).
  assert (Hold : {[ "CPD" := attr_of_cell (CPD r) ]}
                   ∪ default ∅ (Undirected.edge g1 !! (Node1 r, Node2 r))
                 = ({[ "CPD" := attr_of_cell (CPD r) ]} : gmap string attr)).
  { apply map_eq. intros k. rewrite lookup_union.
    destruct (decide (k = "CPD")) as [->|Hne].
    - rewrite lookup_singleton_eq. by destruct (default ∅ _ !! "CPD").
    - rewrite lookup_singleton_ne by done.
      destruct (Undirected.edge g1 !! (Node1 r, Node2 r)) as [d0|] eqn:E; simpl.
      + rewrite (from_pandas_only_CPD (loc_isin pwys pwys df1) Undirected.empty_graph)
          with (e := (Node1 r, Node2 r)) (d := d0) (k := k); [done| |done|done].
        intros e d k'. cbn [Undirected.edge Undirected.empty_graph].
        by rewrite lookup_empty.
      + by rewrite lookup_empty. }
  assert (Hframe : ∀ u v, links r u v →
            ∀ g, Undirected.edge
                   (foldl (λ g r, Undirected.add_edge (Node1 r) (Node2 r)
                                    {[ "CPD" := attr_of_cell (CPD r) ]} g) g
                      (loc_isin pwys pwys df2)) !! (u, v)
                 = Undirected.edge g !! (u, v)).
  { intros u v Hl. apply from_pandas_frame.
    intros r' Hr' Hl'. apply elem_of_loc_isin in Hr' as (Hr' & Hp1 & Hp2).
    apply (Hlast r' Hr' Hp1 Hp2).
    destruct Hl as [[<- <-]|[<- <-]]; [done|by apply links_sym]. }
  rewrite (Hframe (Node1 r) (Node2 r)) by (by left).
  rewrite (Hframe (Node2 r) (Node1 r)) by (by right).
  rewrite !lookup_add_edge, Hold.
  rewrite !decide_True by tauto. done.
Qed.

Lemma subset_graph_last_CPD_witness :
  Undirected.edge (subset_graph ["A"; "B"; "C"] sample_edges) !! ("A", "B")
  = Some {[ "CPD" := AStr "c2" ]}.
Proof.
  destruct (subset_graph_last_CPD ["A"; "B"; "C"] [mkEdgeRow "A" "B" (Some "c1")]
              [mkEdgeRow "A" "X" (Some "c3"); mkEdgeRow "A" "X" None;
               mkEdgeRow "Y" "C" (Some "c5")] (mkEdgeRow "B" "A" (Some "c2")))
    as [_ Hback].
  - right. left.
  - left.
  - intros r' Hr' H1 H2 Hl. unfold links in Hl. simpl in Hl.
    repeat (apply elem_of_cons in Hr' as [->|Hr']; [simpl in *; destruct Hl as [[? ?]|[? ?]]; discriminate|]).
    by apply not_elem_of_nil in Hr'.
  - exact Hback.
Defined.

(** ** add_subset: the attributes of the nodes *)

Lemma set_node_attr_eq (g : DiGraph) (n k : string) (a : attr) (d : gmap string attr) :
  node g !! n = Some d →
  set_node_attr g n k a = Ok (mkDiGraph (<[n := <[k := a]> d]> (node g)) (edges g)).
Proof. intros Hd. unfold set_node_attr, getitem. by rewrite Hd. Qed.

Lemma coloured_link (col u v : string) (g : DiGraph) :
  ∃ g', (dg ← set_node_attr (add_edge u v g) v "col" (AStr col);
         set_node_attr dg u "col" (AStr col)) = Ok g' ∧
        edges g' = {[ (u, v) ]} ∪ edges g ∧
        coloured col [u; v] g g'.
Proof.
  assert (Hv : node (add_edge u v g) !! v = Some (default ∅ (node g !! v))).
  { simpl. rewrite lookup_add_two. destruct (node g !! v); simpl; [done|].
    by rewrite decide_True by auto. }
  rewrite (set_node_attr_eq _ v "col" (AStr col) _ Hv), bind_Ok.
  match goal with |- context [set_node_attr ?g1 u _ _] => set (g1' := g1) end.
  assert (Hu : node g1' !! u =
               Some (if decide (u = v)
                     then <["col" := AStr col]> (default ∅ (node g !! v))
                     else default ∅ (node g !! u))).
  { unfold g1'. simpl. destruct (decide (u = v)) as [->|Hne].
    - by rewrite lookup_insert_eq.
    - rewrite lookup_insert_ne by done. rewrite lookup_add_two.
      destruct (node g !! u); simpl; [done|]. by rewrite decide_True by auto. }
  rewrite (set_node_attr_eq _ u "col" (AStr col) _ Hu).
  eexists. split; [done|]. split; [done|].
  intros n. cbn [node]. unfold g1'. cbn [node add_edge].
  destruct (decide (n = u)) as [->|Hnu].
  - rewrite lookup_insert_eq, (decide_True (P := u ∈ [u; v])) by (by left). f_equal.
    destruct (decide (u = v)) as [->|]; [by rewrite insert_insert_eq|done].
  - rewrite lookup_insert_ne by done. destruct (decide (n = v)) as [->|Hnv].
    + rewrite lookup_insert_eq. by rewrite decide_True by (right; by left).
    + rewrite lookup_insert_ne by done. rewrite lookup_add_two.
      rewrite (decide_False (P := n ∈ [u; v])).
      2: { rewrite !elem_of_cons. intros [?|[?|H0]]; [done|done|].
           by apply not_elem_of_nil in H0. }
      destruct (node g !! n); [done|]. by rewrite decide_False by tauto.
Qed.

Lemma coloured_trans (col : string) (l1 l2 : list string) (g g1 g2 : DiGraph) :
  coloured col l1 g g1 → coloured col l2 g1 g2 → coloured col (l1 ++ l2) g g2.
Proof.
  intros H1 H2 n. rewrite H2, H1.
  destruct (decide (n ∈ l2)) as [Hin2|Hout2].
  - rewrite (decide_True (P := n ∈ l1 ++ l2)) by (apply elem_of_app; by right).
    destruct (decide (n ∈ l1)); simpl; [by rewrite insert_insert_eq|done].
  - destruct (decide (n ∈ l1)).
    + by rewrite (decide_True (P := n ∈ l1 ++ l2)) by (apply elem_of_app; by left).
    + rewrite (decide_False (P := n ∈ l1 ++ l2)); [done|]. rewrite elem_of_app. tauto.
Qed.

Lemma category_body_coloured (col : string) (r : gmap string (option string))
    (dg : DiGraph) (previous : string) (i : Z) (cell : option string) :
  getitem r ("Category" +:+ pretty i) = Ok cell →
  ∃ dg', category_body col r (dg, previous) i = Ok (dg', level_name cell previous i) ∧
         edges dg' = {[ (previous, level_name cell previous i) ]} ∪ edges dg ∧
         coloured col [previous; level_name cell previous i] dg dg'.
Proof.
  intros Hc. unfold category_body. rewrite Hc. simpl.
  assert (Hs : split_first (if is_nan cell then Some previous else cell)
               = Ok (before_bar (default previous cell))) by by destruct cell.
  rewrite Hs. simpl.
  destruct (coloured_link col previous (level_name cell previous i) dg)
    as (g' & Hl & He & Hcol).
  exists g'. split; [|done].
  unfold level_name in *.
  destruct (set_node_attr _ _ "col" _) as [g1|]; simpl in *; [|done].
  by rewrite Hl.
Qed.

(** The last step of a walk: the edge to the pathway, its colour and its
    name. *)
Lemma leaf_ok (col u p : string) (name : attr) (g : DiGraph) :
  is_Some (node g !! u) →
  ∃ g', (dg ← set_node_attr (add_edge u p g) p "col" (AStr col);
         set_node_attr dg p "Name" name) = Ok g' ∧
        edges g' = {[ (u, p) ]} ∪ edges g ∧
        ∀ n, node g' !! n =
             if decide (n = p)
             then Some (<["Name" := name]>
                          (<["col" := AStr col]> (default ∅ (node g !! p))))
             else node g !! n.
Proof.
  intros [du Hu].
  assert (Hp : node (add_edge u p g) !! p = Some (default ∅ (node g !! p))).
  { simpl. rewrite lookup_add_two. destruct (node g !! p); simpl; [done|].
    by rewrite decide_True by auto. }
  rewrite (set_node_attr_eq _ p "col" (AStr col) _ Hp), bind_Ok.
  erewrite set_node_attr_eq; [|simpl; by rewrite lookup_insert_eq].
  eexists. split; [done|]. split; [done|].
  intros n. cbn [node add_edge]. destruct (decide (n = p)) as [->|Hne].
  - by rewrite lookup_insert_eq.
  - rewrite !lookup_insert_ne by done. rewrite lookup_add_two.
    destruct (node g !! n) eqn:En; [done|].
    rewrite decide_False; [done|]. intros [->| ->]; congruence.
Qed.

Lemma path_body_attrs (root col : string) (df : list row) (dg : DiGraph) (p : string)
    (r : row) (par : string) :
  loc_first df p = Ok r →
  Parent r = Some par →
  ∃ dg', path_body root col df dg p = Ok dg' ∧
         edges dg' = path_edges (walk root r p) ∪ edges dg ∧
         ∀ n, node dg' !! n =
              if decide (n ∈ walk root r p)
              then Some (walk_attrs col p (attr_of_cell (Name r)) n
                           (default ∅ (node dg !! n)))
              else node dg !! n.
Proof.
  intros Hloc Hpar.
  destruct (series_category r) as (H2 & H3 & H4 & H5 & H6 & H7 & HP & HN).
  unfold path_body. rewrite Hloc.
  change (series <$> Ok r) with (Ok (series r)). rewrite bind_Ok.
  pose (n2 := level_name (Category2 r) root 2).
  pose (n3 := level_name (Category3 r) n2 3).
  pose (n4 := level_name (Category4 r) n3 4).
  pose (n5 := level_name (Category5 r) n4 5).
  pose (n6 := level_name (Category6 r) n5 6).
  pose (n7 := level_name (Category7 r) n6 7).
  pose (n8 := level_name (Parent r) n7 8).
  destruct (category_body_coloured col _ dg root 2 _ H2) as (g2 & B2 & E2 & C2).
  fold n2 in B2, E2, C2.
  destruct (category_body_coloured col _ g2 n2 3 _ H3) as (g3 & B3 & E3 & C3).
  fold n3 in B3, E3, C3.
  destruct (category_body_coloured col _ g3 n3 4 _ H4) as (g4 & B4 & E4 & C4).
  fold n4 in B4, E4, C4.
  destruct (category_body_coloured col _ g4 n4 5 _ H5) as (g5 & B5 & E5 & C5).
  fold n5 in B5, E5, C5.
  destruct (category_body_coloured col _ g5 n5 6 _ H6) as (g6 & B6 & E6 & C6).
  fold n6 in B6, E6, C6.
  destruct (category_body_coloured col _ g6 n6 7 _ H7) as (g7 & B7 & E7 & C7).
  fold n7 in B7, E7, C7.
  assert (Hn8 : before_bar par +:+ "|" +:+ pretty 8 = n8).
  { unfold n8, level_name. rewrite Hpar. reflexivity. }
  assert (Hw : walk root r p = [root; n2; n3; n4; n5; n6; n7; n8; p]) by reflexivity.
  rewrite Hw. clear Hw.
  clearbody n2 n3 n4 n5 n6 n7 n8.
  rewrite for_each_cons, B2, bind_Ok.
  rewrite for_each_cons, B3, bind_Ok.
  rewrite for_each_cons, B4, bind_Ok.
  rewrite for_each_cons, B5, bind_Ok.
  rewrite for_each_cons, B6, bind_Ok.
  rewrite for_each_cons, B7, bind_Ok.
  rewrite (for_each_nil (category_body col (series r))), bind_Ok.
  rewrite HP, bind_Ok, Hpar. simpl is_nan. cbv iota. rewrite bind_Ok.
  change (split_first (Some par)) with (Ok (before_bar par)). rewrite bind_Ok.
  rewrite Hn8.
  destruct (coloured_link col n7 n8 g7) as (a2 & A2 & E8 & C8).
  destruct (set_node_attr (add_edge n7 n8 g7) n8 "col" (AStr col)) as [a1|] eqn:A1;
    [|discriminate A2].
  rewrite bind_Ok in A2. rewrite bind_Ok, A2, bind_Ok.
  assert (Hcol : coloured col ([root; n2] ++ [n2; n3] ++ [n3; n4] ++ [n4; n5] ++
                               [n5; n6] ++ [n6; n7] ++ [n7; n8]) dg a2).
  { repeat (eapply coloured_trans; [eassumption|]). exact C8. }
  assert (Hn8in : is_Some (node a2 !! n8)).
  { rewrite C8, decide_True by (right; by left). eauto. }
  destruct (leaf_ok col n8 p (attr_of_cell (Name r)) a2 Hn8in) as (a4 & A4 & E9 & N9).
  destruct (set_node_attr (add_edge n8 p a2) p "col" (AStr col)) as [a3|] eqn:A3;
    [|discriminate A4].
  rewrite bind_Ok in A4. rewrite bind_Ok, HN, bind_Ok, A4.
  exists a4. split; [done|]. split.
  - unfold path_edges. simpl. rewrite E9, E8, E7, E6, E5, E4, E3, E2.
    clear. set_solver.
  - clear -Hcol N9. intros n. rewrite N9. unfold walk_attrs.
    assert (Hmem : n ∈ [root; n2; n3; n4; n5; n6; n7; n8; p] ↔
                   n = p ∨ n ∈ [root; n2] ++ [n2; n3] ++ [n3; n4] ++ [n4; n5] ++
                                [n5; n6] ++ [n6; n7] ++ [n7; n8]).
    { cbn [app]. rewrite !elem_of_cons. tauto. }
    destruct (decide (n = p)) as [->|Hne].
    + rewrite decide_True by (apply Hmem; by left). do 2 f_equal.
      rewrite Hcol. destruct (decide _); simpl; [by rewrite insert_insert_eq|done].
    + rewrite Hcol. destruct (decide (n ∈ _ ++ _)) as [Hin|Hout].
      * by rewrite decide_True by (apply Hmem; by right).
      * rewrite decide_False; [done|]. rewrite Hmem. tauto.
Qed.

(** ** add_subset: the rows of the listed pathways *)

Lemma loc_first_selected (root : string) (pwys : list string) (df : list row)
    (p : string) :
  p ∈ pwys →
  (∃ r, r ∈ df ∧ Pathway r = p ∧ Category1 r = Some root ∧ Parent r ≠ None) →
  ∃ r par, loc_first (select_rows root pwys df) p = Ok r ∧ Parent r = Some par.
Proof.
  intros Hp (x & Hx & Hxp & Hc & Hpar).
  destruct (loc_first_Ok (select_rows root pwys df) p x) as (r & Hr & Hparent).
  - apply list_elem_of_filter. by rewrite Hxp.
  - done.
  - destruct (Parent x) as [v|] eqn:Ev; [|done].
    destruct (Hparent v eq_refl) as [par Hr']. eauto.
Qed.

Lemma select_rows_ext (root : string) (pwys pwys' : list string) (df : list row) :
  (∀ p, p ∈ pwys ↔ p ∈ pwys') →
  select_rows root pwys df = select_rows root pwys' df.
Proof.
  intros Hsame. unfold select_rows. apply list_filter_iff.
  intros r. by rewrite Hsame.
Qed.

Lemma walk_last (root : string) (r : row) (p : string) : p ∈ walk root r p.
Proof. unfold walk. rewrite !elem_of_cons. tauto. Qed.

(** ** add_subset: the graph as a function of the set of pathways *)

Lemma node_attrs_col (col : string) (rows : list row) (done : gset string) (n : string) :
  <["col" := AStr col]> (node_attrs col rows done n) = node_attrs col rows done n.
Proof.
  apply insert_id. unfold node_attrs.
  destruct (decide (n ∈ done)); [destruct (loc_first rows n)|];
    by rewrite ?lookup_insert_ne, lookup_singleton_eq.
Qed.

Lemma node_attrs_other (col : string) (rows : list row) (done : gset string)
    (p n : string) :
  n ≠ p → node_attrs col rows ({[ p ]} ∪ done) n = node_attrs col rows done n.
Proof.
  intros Hne. unfold node_attrs. destruct (decide (n ∈ done)) as [Hin|Hout].
  - by rewrite decide_True by set_solver.
  - by rewrite decide_False by set_solver.
Qed.

Lemma node_attrs_self (col : string) (rows : list row) (done : gset string)
    (p : string) (r : row) :
  loc_first rows p = Ok r →
  node_attrs col rows ({[ p ]} ∪ done) p
  = <["Name" := attr_of_cell (Name r)]> {[ "col" := AStr col ]}.
Proof.
  intros Hr. unfold node_attrs. rewrite decide_True by set_solver. by rewrite Hr.
Qed.

Lemma name_over_attrs (col : string) (rows : list row) (done : gset string)
    (p : string) (r : row) :
  loc_first rows p = Ok r →
  <["Name" := attr_of_cell (Name r)]> (<["col" := AStr col]> (node_attrs col rows done p))
  = <["Name" := attr_of_cell (Name r)]> {[ "col" := AStr col ]}.
Proof.
  intros Hr. rewrite node_attrs_col. unfold node_attrs. rewrite Hr.
  destruct (decide (p ∈ done)); [by rewrite insert_insert_eq|done].
Qed.

Lemma walked_empty (root col : string) (pwys : list string) (df : list row) :
  walked root col pwys df ∅ empty_graph.
Proof.
  split; [|split].
  - intros e. split; [by intros ?%not_elem_of_empty|].
    by intros (p & ?%not_elem_of_empty & _).
  - intros n. split; [by intros [? ?]|]. by intros (p & ?%not_elem_of_empty & _).
  - intros n attrs H. done.
Qed.

Lemma walked_step (root col : string) (pwys : list string) (df : list row)
    (done : gset string) (dg : DiGraph) (p : string) (r : row) (par : string) :
  (∀ q, q ∈ done → ∃ rq, loc_first (select_rows root pwys df) q = Ok rq) →
  loc_first (select_rows root pwys df) p = Ok r →
  Parent r = Some par →
  walked root col pwys df done dg →
  ∃ dg', path_body root col (select_rows root pwys df) dg p = Ok dg' ∧
         walked root col pwys df ({[ p ]} ∪ done) dg'.
Proof.
  intros Hdone Hr Hpar (Hedges & Hnodes & Hattrs).
  destruct (path_body_attrs root col _ dg p r par Hr Hpar) as (dg' & Hrun & He & Hn).
  assert (Hwalk : walk_of root pwys df p = walk root r p).
  { unfold walk_of. by rewrite Hr. }
  exists dg'. split; [done|]. split; [|split].
  - intros e. rewrite He, elem_of_union, Hedges. split.
    + intros [H|(q & Hq & H)].
      * exists p. split; [set_solver|]. by rewrite Hwalk.
      * exists q. split; [set_solver|done].
    + intros (q & Hq & H). apply elem_of_union in Hq as [Hq|Hq].
      * apply elem_of_singleton in Hq as ->. left. by rewrite <- Hwalk.
      * right. by exists q.
  - intros n. rewrite Hn. destruct (decide (n ∈ walk root r p)) as [Hin|Hout].
    + split; [|by eauto]. intros _. exists p. split; [set_solver|]. by rewrite Hwalk.
    + rewrite Hnodes. split.
      * intros (q & Hq & H). exists q. split; [set_solver|done].
      * intros (q & Hq & H). apply elem_of_union in Hq as [Hq|Hq].
        -- apply elem_of_singleton in Hq as ->. by rewrite Hwalk in H.
        -- by exists q.
  - intros n attrs. rewrite Hn. destruct (decide (n ∈ walk root r p)) as [Hin|Hout].
    + intros [= <-]. unfold walk_attrs.
      destruct (node dg !! n) as [old|] eqn:Eold; simpl.
      * rewrite (Hattrs n old Eold). destruct (decide (n = p)) as [->|Hne].
        -- by rewrite (name_over_attrs col _ done p r Hr), (node_attrs_self col _ done p r Hr).
        -- by rewrite node_attrs_col, node_attrs_other.
      * destruct (decide (n = p)) as [->|Hne].
        -- rewrite (node_attrs_self col _ done p r Hr). by rewrite insert_empty.
        -- rewrite node_attrs_other by done. unfold node_attrs.
           rewrite decide_False; [by rewrite insert_empty|].
           intros Hq. destruct (Hdone n Hq) as [rq Hrq].
           assert (Hsome : is_Some (node dg !! n)).
           { apply Hnodes. exists n. split; [done|]. unfold walk_of. rewrite Hrq.
             apply walk_last. }
           rewrite Eold in Hsome. by destruct Hsome.
    + intros Hold. rewrite (Hattrs n attrs Hold).
      rewrite node_attrs_other; [done|]. intros ->. apply Hout, walk_last.
Qed.

Lemma walked_loop (root col : string) (pwys : list string) (df : list row)
    (l : list string) :
  (∀ p, p ∈ l →
     ∃ r par, loc_first (select_rows root pwys df) p = Ok r ∧ Parent r = Some par) →
  ∀ (done : gset string) (dg : DiGraph),
    (∀ q, q ∈ done → ∃ rq, loc_first (select_rows root pwys df) q = Ok rq) →
    walked root col pwys df done dg →
    ∃ dg', for_each (path_body root col (select_rows root pwys df)) l dg = Ok dg' ∧
           walked root col pwys df (list_to_set l ∪ done) dg'.
Proof.
  induction l as [|p l IH]; intros Hl done dg Hdone Hw.
  - exists dg. split; [done|]. simpl.
    by replace (∅ ∪ done) with done by set_solver.
  - destruct (Hl p) as (r & par & Hr & Hpar); [by left|].
    destruct (walked_step root col pwys df done dg p r par Hdone Hr Hpar Hw)
      as (dg1 & Hrun1 & Hw1).
    destruct (IH (λ q Hq, Hl q (list_elem_of_further _ _ _ Hq)) ({[ p ]} ∪ done) dg1)
      as (dg' & Hrun & Hw'); [|done|].
    { intros q [Hq|Hq]%elem_of_union; [|by apply Hdone].
      apply elem_of_singleton in Hq as ->. eauto. }
    exists dg'. rewrite for_each_cons, Hrun1, bind_Ok. split; [done|].
    simpl. by replace ({[ p ]} ∪ list_to_set l ∪ done)
             with (list_to_set l ∪ ({[ p ]} ∪ done)) by set_solver.
Qed.

Lemma add_subset_walked (root col : string) (pwys : list string) (df : list row) :
  has_parents root pwys df →
  ∃ dg, add_subset root pwys df col = Ok dg ∧
        walked root col pwys df (list_to_set pwys) dg.
Proof.
  intros Hwf.
  destruct (walked_loop root col pwys df pwys) with (done := (∅ : gset string))
                                                   (dg := empty_graph)
    as (dg & Hrun & Hw).
  - intros p Hp. by apply loc_first_selected; [|apply Hwf].
  - by intros q ?%not_elem_of_empty.
  - apply walked_empty.
  - exists dg. split; [done|].
    by replace (list_to_set pwys ∪ ∅ : gset string) with (list_to_set pwys : gset string)
      in Hw by set_solver.
Qed.

Lemma walked_unique (root col : string) (pwys : list string) (df : list row)
    (done : gset string) (dg dg' : DiGraph) :
  walked root col pwys df done dg → walked root col pwys df done dg' → dg = dg'.
Proof.
  intros (He & Hn & Ha) (He' & Hn' & Ha').
  apply DiGraph_eq.
  - apply set_eq. intros e. by rewrite He, He'.
  - intros n. destruct (node dg !! n) as [a|] eqn:E, (node dg' !! n) as [a'|] eqn:E'.
    + by rewrite (Ha n a E), (Ha' n a' E').
    + assert (H : is_Some (node dg' !! n)) by (apply Hn', Hn; eauto).
      rewrite E' in H. by destruct H.
    + assert (H : is_Some (node dg !! n)) by (apply Hn, Hn'; eauto).
      rewrite E in H. by destruct H.
    + done.
Qed.

Lemma well_formed_has_parents (root : string) (pwys : list string) (df : list row) :
  well_formed_table root pwys df → has_parents root pwys df.
Proof.
  intros Hwf p Hp. destruct (Hwf p Hp) as (r & Hr & Hrp & Hc & Hpar & _). eauto.
Qed.

Lemma walked_ext (root col : string) (pwys pwys' : list string) (df : list row)
    (done : gset string) (dg : DiGraph) :
  (∀ p, p ∈ pwys ↔ p ∈ pwys') →
  walked root col pwys' df done dg → walked root col pwys df done dg.
Proof.
  intros Hsame. unfold walked, walk_of.
  by rewrite (select_rows_ext root pwys pwys' df Hsame).
Qed.

(** X17. The attributes of the graph of [add_subset]. When every listed
    pathway has a row under [root] with a Parent, every node of the graph
    carries the colour [col]; a node that is not a listed pathway carries
    nothing else; and every listed pathway is a node that carries, besides
    the colour, the Name of its grouped row (NaN when the table has no name
    for it). *)
Theorem add_subset_attributes (root : string) (pwys : list string) (df : list row)
    (col : string) :
  has_parents root pwys df →
  ∃ dg, add_subset root pwys df col = Ok dg ∧
        (∀ n attrs, node dg !! n = Some attrs →
           attrs !! "col" = Some (AStr col) ∧
           ((n ∉ pwys) → attrs = {[ "col" := AStr col ]})) ∧
        (∀ p, p ∈ pwys →
           ∃ r, loc_first (select_rows root pwys df) p = Ok r ∧
                node dg !! p
                = Some (<["Name" := attr_of_cell (Name r)]> {[ "col" := AStr col ]})).
Proof.
  intros Hwf. destruct (add_subset_walked root col pwys df Hwf) as (dg & Hrun & Hw).
  destruct Hw as (_ & Hnodes & Hattrs).
  exists dg. split; [done|]. split.
  - intros n attrs Hn. rewrite (Hattrs n attrs Hn). split.
    + rewrite <- (node_attrs_col col _ (list_to_set pwys) n). by rewrite lookup_insert_eq.
    + intros Hout. unfold node_attrs.
      by rewrite decide_False by (by rewrite elem_of_list_to_set).
  - intros p Hp.
    destruct (loc_first_selected root pwys df p Hp (Hwf p Hp)) as (r & par & Hr & _).
    exists r. split; [done|].
    assert (Hsome : is_Some (node dg !! p)).
    { apply Hnodes. exists p. split; [by apply elem_of_list_to_set|].
      unfold walk_of. rewrite Hr. apply walk_last. }
    destruct Hsome as [attrs Hp']. rewrite Hp'. f_equal.
    rewrite (Hattrs p attrs Hp'). unfold node_attrs.
    rewrite decide_True by (by apply elem_of_list_to_set). by rewrite Hr.
Qed.

Lemma tree_table_has_parents : has_parents "R" ["P1"; "P2"] tree_table.
Proof. apply well_formed_has_parents, tree_table_well_formed. Qed.

Lemma add_subset_attributes_witness :
  ∃ dg, add_subset "R" ["P1"; "P2"] tree_table "b" = Ok dg ∧
        node dg !! "P1" = Some {[ "Name" := AStr "n"; "col" := AStr "b" ]} ∧
        node dg !! "R" = Some {[ "col" := AStr "b" ]}.
Proof.
  destruct (add_subset_attributes "R" ["P1"; "P2"] tree_table "b" tree_table_has_parents)
    as (dg & Hrun & Hall & Hpwy).
  exists dg. split; [exact Hrun|]. split.
  - destruct (Hpwy "P1") as (r & Hr & Hnode); [by left|].
    vm_compute in Hr. injection Hr as <-. exact Hnode.
  - assert (H : match add_subset "R" ["P1"; "P2"] tree_table "b" with
                | Ok g => is_Some (node g !! "R")
                | Raise _ => False
                end) by (vm_compute; eauto).
    rewrite Hrun in H. destruct H as [attrs Hattrs].
    destruct (Hall "R" attrs Hattrs) as [_ Honly]. rewrite Hattrs. f_equal.
    apply Honly. intros Hin. apply elem_of_cons in Hin as [Hin|Hin]; [discriminate|].
    apply list_elem_of_singleton in Hin. discriminate.
Defined.

(** X18. The graph of [add_subset] depends on the set of the listed
    pathways only: when every listed pathway has a row under [root] with a
    Parent, a list with the same pathways in another order, or with some of
    them repeated, gives the same graph. *)
Theorem add_subset_order (root : string) (pwys pwys' : list string) (df : list row)
    (col : string) :
  has_parents root pwys df →
  (∀ p, p ∈ pwys ↔ p ∈ pwys') →
  ∃ dg, add_subset root pwys df col = Ok dg ∧ add_subset root pwys' df col = Ok dg.
Proof.
  intros Hwf Hsame.
  assert (Hwf' : has_parents root pwys' df).
  { intros p Hp. apply Hwf. by apply Hsame. }
  destruct (add_subset_walked root col pwys df Hwf) as (dg & Hrun & Hw).
  destruct (add_subset_walked root col pwys' df Hwf') as (dg' & Hrun' & Hw').
  exists dg. split; [done|]. rewrite Hrun'. f_equal.
  apply (walked_unique root col pwys df (list_to_set pwys)); [|done].
  replace (list_to_set pwys : gset string) with (list_to_set pwys' : gset string).
  - by apply (walked_ext root col pwys pwys').
  - apply set_eq. intros p. by rewrite !elem_of_list_to_set.
Qed.

Lemma add_subset_order_witness :
  ∃ dg, add_subset "R" ["P1"; "P2"] tree_table "b" = Ok dg ∧
        add_subset "R" ["P2"; "P1"; "P1"] tree_table "b" = Ok dg.
Proof.
  apply (add_subset_order "R" ["P1"; "P2"] ["P2"; "P1"; "P1"] tree_table "b").
  - exact tree_table_has_parents.
  - intros p. rewrite !elem_of_cons. tauto.
Defined.

(** X19. The shape of the graph of [add_subset] when [root] and the listed
    pathways contain no bar and no listed pathway is [root]: its edges are
    those between consecutive nodes of the walks of the listed pathways, no
    edge enters [root], no edge leaves a listed pathway, and every listed
    pathway ends a path of eight edges that starts at [root]. *)
Theorem add_subset_root_and_leaves (root : string) (pwys : list string) (df : list row)
    (col : string) :
  has_parents root pwys df →
  bar_free root → (∀ p, p ∈ pwys → bar_free p ∧ p ≠ root) →
  ∃ dg, add_subset root pwys df col = Ok dg ∧
        (∀ e, e ∈ edges dg ↔ ∃ p, p ∈ pwys ∧ e ∈ path_edges (walk_of root pwys df p)) ∧
        (∀ u, ¬ edge dg u root) ∧
        (∀ p v, p ∈ pwys → ¬ edge dg p v) ∧
        (∀ p, p ∈ pwys →
           ∃ path, length path = 9%nat ∧ path !! 0%nat = Some root ∧
                   path !! 8%nat = Some p ∧ path_edges path ⊆ edges dg).
Proof.
  intros Hwf Hroot Hnames.
  destruct (add_subset_walked root col pwys df Hwf) as (dg & Hrun & Hw).
  destruct Hw as (Hedges & _ & _).
  assert (Hedges' : ∀ e, e ∈ edges dg ↔
                      ∃ p, p ∈ pwys ∧ e ∈ path_edges (walk_of root pwys df p)).
  { intros e. rewrite Hedges. split; intros (p & Hp & He); exists p; (split; [|done]).
    - by apply elem_of_list_to_set in Hp.
    - by apply elem_of_list_to_set. }
  assert (Hrow : ∀ p, p ∈ pwys → ∃ r, walk_of root pwys df p = walk root r p).
  { intros p Hp.
    destruct (loc_first_selected root pwys df p Hp (Hwf p Hp)) as (r & par & Hr & _).
    exists r. unfold walk_of. by rewrite Hr. }
  exists dg. split; [done|]. split; [done|]. split; [|split].
  - intros u Hu. apply Hedges' in Hu as (p & Hp & He).
    destruct (Hrow p Hp) as [r Hr]. rewrite Hr in He.
    apply path_edges_lookup in He as (k & _ & Hk).
    destruct (Hnames p Hp) as [Hbf Hne].
    pose proof (walk_position_level root p r (S k) root Hroot Hbf Hne Hk) as Hlev.
    rewrite (level_root root Hroot) in Hlev. lia.
  - intros p v Hp Hpv. apply Hedges' in Hpv as (q & Hq & He).
    destruct (Hrow q Hq) as [r Hr]. rewrite Hr in He.
    apply path_edges_lookup in He as (k & Hk & Hk').
    destruct (Hnames q Hq) as [Hbf Hne]. destruct (Hnames p Hp) as [Hbfp Hnep].
    pose proof (walk_position_level root q r k p Hroot Hbf Hne Hk) as Hlev.
    rewrite (level_pathway root p Hbfp Hnep) in Hlev.
    assert (k = 8%nat) as -> by lia. discriminate Hk'.
  - intros p Hp. destruct (Hrow p Hp) as [r Hr]. exists (walk root r p).
    split; [done|]. split; [done|]. split; [done|].
    intros e He. apply Hedges'. exists p. split; [done|]. by rewrite Hr.
Qed.

Lemma add_subset_root_and_leaves_witness :
  ∃ dg, add_subset "R" ["P1"; "P2"] tree_table "b" = Ok dg ∧
        (∀ u, ¬ edge dg u "R") ∧
        (∀ v, ¬ edge dg "P1" v).
Proof.
  destruct (add_subset_root_and_leaves "R" ["P1"; "P2"] tree_table "b")
    as (dg & Hrun & _ & Hin & Hout & _).
  - exact tree_table_has_parents.
  - reflexivity.
  - intros p Hp. apply elem_of_cons in Hp as [->|Hp];
      [|apply list_elem_of_singleton in Hp as ->]; split; (reflexivity || discriminate).
  - exists dg. split; [exact Hrun|]. split; [exact Hin|].
    intros v. apply Hout. left.
Defined.

Lemma loc_first_no_parent (rows : list row) (p : string) :
  (∃ x, x ∈ rows ∧ Pathway x = p) →
  (∀ x, x ∈ rows → Pathway x = p → Parent x = None) →
  ∃ r, loc_first rows p = Ok r ∧ Parent r = None.
Proof.
  intros (x & Hx & Hxp) Hnone. unfold loc_first.
  assert (Hin : x ∈ filter (λ r, Pathway r = p) rows) by by apply list_elem_of_filter.
  destruct (filter (λ r, Pathway r = p) rows) as [|r0 rs] eqn:E.
  - by apply not_elem_of_nil in Hin.
  - eexists. split; [done|]. simpl. unfold first_valid.
    destruct (omap Parent (r0 :: rs)) as [|v vs] eqn:Ev; [done|].
    assert (Hv : v ∈ omap Parent (r0 :: rs)) by (rewrite Ev; by left).
    apply list_elem_of_omap in Hv as (y & Hy & Hpy).
    rewrite <- E in Hy. apply list_elem_of_filter in Hy as [Hyp Hy].
    rewrite (Hnone y Hy Hyp) in Hpy. discriminate.
Qed.

(** X20. A listed pathway without a Parent makes [add_subset] raise
    [AttributeError]: when the pathways listed before it have a row under
    [root] with a Parent, and the pathway has rows under [root] but none of
    them has a Parent, the missing value reaches [split] and no graph is
    returned. *)
Theorem add_subset_AttributeError (root : string) (pwys1 pwys2 : list string)
    (p : string) (df : list row) (col : string) :
  has_parents root pwys1 df →
  (∃ r, r ∈ df ∧ Pathway r = p ∧ Category1 r = Some root) →
  (∀ r, r ∈ df → Pathway r = p → Category1 r = Some root → Parent r = None) →
  add_subset root (pwys1 ++ p :: pwys2) df col = Raise AttributeError.
Proof.
  intros Hwf (x & Hx & Hxp & Hxc) Hnone. unfold add_subset.
  set (pwys := pwys1 ++ p :: pwys2).
  destruct (walked_loop root col pwys df pwys1) with (done := (∅ : gset string))
                                                    (dg := empty_graph)
    as (dg & Hrun & _).
  - intros q Hq. apply loc_first_selected; [|by apply Hwf].
    unfold pwys. apply elem_of_app. by left.
  - by intros q ?%not_elem_of_empty.
  - apply walked_empty.
  - destruct (loc_first_no_parent (select_rows root pwys df) p) as (r & Hr & Hpar).
    + exists x. split; [|done]. apply list_elem_of_filter. split; [|done].
      split; [done|]. rewrite Hxp. unfold pwys. apply elem_of_app. right. by left.
    + intros y Hy Hyp. apply list_elem_of_filter in Hy as [[Hc _] Hy].
      by apply Hnone.
    + apply for_each_raise with dg; [done|].
      by apply (path_body_missing_parent root col _ dg p r).
Qed.

Lemma add_subset_AttributeError_witness :
  add_subset "R" (["P1"] ++ "P2" :: []) mixed_table "b" = Raise AttributeError.
Proof.
  apply (add_subset_AttributeError "R" ["P1"] [] "P2" mixed_table "b").
  - intros p Hp. apply list_elem_of_singleton in Hp as ->.
    exists (sample_row "P1" "A" "X" "Q1"). split; [by left|]. done.
  - eexists. split; [right; by left|]. done.
  - intros r Hr Hp _. unfold mixed_table in Hr.
    apply elem_of_cons in Hr as [->|Hr]; [discriminate Hp|].
    apply list_elem_of_singleton in Hr as ->. reflexivity.
Defined.

(** ** add_subset: missing category levels *)

Lemma first_valid_None (col : row → option string) (rs : list row) :
  (∀ x, x ∈ rs → col x = None) → first_valid col rs = None.
Proof.
  intros Hnone. unfold first_valid.
  destruct (omap col rs) as [|v vs] eqn:Ev; [done|].
  assert (Hv : v ∈ omap col rs) by (rewrite Ev; by left).
  apply list_elem_of_omap in Hv as (y & Hy & Hc).
  rewrite (Hnone y Hy) in Hc. discriminate.
Qed.

Lemma first_valid_Some (col : row → option string) (rs : list row) (v : string) :
  first_valid col rs = Some v → ∃ x, x ∈ rs ∧ col x = Some v.
Proof.
  unfold first_valid. intros Hv.
  assert (Hin : v ∈ omap col rs).
  { destruct (omap col rs) as [|w ws]; [done|]. injection Hv as ->. by left. }
  by apply list_elem_of_omap in Hin.
Qed.

(** The grouped row of [p] holds, per column, the first value of the rows
    of [p] that is not missing. *)
Lemma loc_first_inv (rows : list row) (p : string) (r : row) :
  loc_first rows p = Ok r →
  let rs := filter (λ x, Pathway x = p) rows in
  r = mkRow p (first_valid Category1 rs) (first_valid Category2 rs)
        (first_valid Category3 rs) (first_valid Category4 rs)
        (first_valid Category5 rs) (first_valid Category6 rs)
        (first_valid Category7 rs) (first_valid Parent rs) (first_valid Name rs).
Proof.
  unfold loc_first. destruct (filter (λ x, Pathway x = p) rows) as [|r0 rs0]; [done|].
  by intros [= <-].
Qed.

(** The base name of a segment is the base name it was made from. *)
Lemma before_bar_segment (s t : string) :
  before_bar (before_bar s +:+ "|" +:+ t) = before_bar s.
Proof.
  induction s as [|c s IH]; [done|]. simpl.
  destruct (Ascii.eqb c (Ascii.ascii_of_nat 124)) eqn:E; [done|].
  simpl. by rewrite E, IH.
Qed.

(** X21. Missing category levels do not make the walk fail and introduce
    no name of their own. For a listed pathway whose rows under [root] have
    no value in Category2 to Category7, the graph of [add_subset] holds the
    path from [root] through the base name of [root] with the suffixes
    [|2] to [|7], then the Parent with the suffix [|8], to the pathway;
    the Parent is that of a row of the pathway under [root]. *)
Theorem add_subset_missing_categories (root : string) (pwys : list string)
    (df : list row) (col p : string) :
  has_parents root pwys df → p ∈ pwys →
  (∀ r, r ∈ df → Pathway r = p → Category1 r = Some root →
     Category2 r = None ∧ Category3 r = None ∧ Category4 r = None ∧
     Category5 r = None ∧ Category6 r = None ∧ Category7 r = None) →
  ∃ dg par,
    add_subset root pwys df col = Ok dg ∧
    (∃ r, r ∈ df ∧ Pathway r = p ∧ Category1 r = Some root ∧ Parent r = Some par) ∧
    path_edges [root; before_bar root +:+ "|2"; before_bar root +:+ "|3";
                before_bar root +:+ "|4"; before_bar root +:+ "|5";
                before_bar root +:+ "|6"; before_bar root +:+ "|7";
                before_bar par +:+ "|8"; p] ⊆ edges dg.
Proof.
  intros Hwf Hp Hmissing.
  destruct (add_subset_walked root col pwys df Hwf) as (dg & Hrun & Hedges & _ & _).
  destruct (loc_first_selected root pwys df p Hp (Hwf p Hp)) as (r & par & Hr & Hpar).
  pose proof (loc_first_inv _ p r Hr) as Hinv. cbv zeta in Hinv.
  set (rs := filter (λ x, Pathway x = p) (select_rows root pwys df)) in Hinv.
  assert (Hrs : ∀ x, x ∈ rs → x ∈ df ∧ Pathway x = p ∧ Category1 x = Some root).
  { intros x Hx. apply list_elem_of_filter in Hx as [Hxp Hx].
    apply list_elem_of_filter in Hx as [[Hc _] Hx]. done. }
  assert (Hnone : ∀ col', (∀ x, x ∈ df → Pathway x = p → Category1 x = Some root →
                                col' x = None) → first_valid col' rs = None).
  { intros col' Hcol. apply first_valid_None. intros x Hx.
    destruct (Hrs x Hx) as (Hx1 & Hx2 & Hx3). by apply Hcol. }
  assert (H2 : Category2 r = None).
  { rewrite Hinv. simpl. apply Hnone. intros x ? ? ?. by destruct (Hmissing x) as (?&?&?&?&?&?). }
  assert (H3 : Category3 r = None).
  { rewrite Hinv. simpl. apply Hnone. intros x ? ? ?. by destruct (Hmissing x) as (?&?&?&?&?&?). }
  assert (H4 : Category4 r = None).
  { rewrite Hinv. simpl. apply Hnone. intros x ? ? ?. by destruct (Hmissing x) as (?&?&?&?&?&?). }
  assert (H5 : Category5 r = None).
  { rewrite Hinv. simpl. apply Hnone. intros x ? ? ?. by destruct (Hmissing x) as (?&?&?&?&?&?). }
  assert (H6 : Category6 r = None).
  { rewrite Hinv. simpl. apply Hnone. intros x ? ? ?. by destruct (Hmissing x) as (?&?&?&?&?&?). }
  assert (H7 : Category7 r = None).
  { rewrite Hinv. simpl. apply Hnone. intros x ? ? ?. by destruct (Hmissing x) as (?&?&?&?&?&?). }
  assert (Hrow : ∃ x, x ∈ df ∧ Pathway x = p ∧ Category1 x = Some root ∧
                      Parent x = Some par).
  { assert (Hfv : first_valid Parent rs = Some par) by (rewrite Hinv in Hpar; exact Hpar).
    apply first_valid_Some in Hfv as (x & Hx & Hxp).
    destruct (Hrs x Hx) as (Hx1 & Hx2 & Hx3). eauto. }
  assert (Hwalk : walk_of root pwys df p =
            [root; before_bar root +:+ "|2"; before_bar root +:+ "|3";
             before_bar root +:+ "|4"; before_bar root +:+ "|5";
             before_bar root +:+ "|6"; before_bar root +:+ "|7";
             before_bar par +:+ "|8"; p]).
  { unfold walk_of. rewrite Hr. unfold walk, level_name.
    rewrite H2, H3, H4, H5, H6, H7, Hpar. cbn [default].
    change (pretty 2) with "2". change (pretty 3) with "3". change (pretty 4) with "4".
    change (pretty 5) with "5". change (pretty 6) with "6". change (pretty 7) with "7".
    change (pretty 8) with "8".
    rewrite !before_bar_segment. reflexivity. }
  exists dg, par. split; [done|]. split; [done|].
  intros e He. apply Hedges. exists p. split; [by apply elem_of_list_to_set|].
  by rewrite Hwalk.
Qed.

Lemma add_subset_missing_categories_witness :
  ∃ dg, add_subset "R" ["P"] flat_table "b" = Ok dg ∧
        path_edges ["R"; "R|2"; "R|3"; "R|4"; "R|5"; "R|6"; "R|7"; "Q|8"; "P"] ⊆ edges dg.
Proof.
  destruct (add_subset_missing_categories "R" ["P"] flat_table "b" "P")
    as (dg & par & Hrun & (r & Hr & _ & _ & Hpar) & Hpath).
  - intros p Hp. apply list_elem_of_singleton in Hp as ->.
    eexists. split; [by left|]. done.
  - left.
  - intros r Hr _ _. apply list_elem_of_singleton in Hr as ->. done.
  - apply list_elem_of_singleton in Hr as ->. injection Hpar as <-.
    exists dg. split; [exact Hrun|exact Hpath].
Defined.
